(** * SpaceMissionDES: the discrete-event simulation kernel

    A shallow embedding of [objects/activities.py] and
    [drivers/simulator.py], and the properties of the engine that the
    specification states about them.

    Conventions of the embedding.
    - Python floats ([time], [duration], [p_fail], the uniform draw) are
      exact rationals [Q]: the engine only adds, subtracts and compares
      them.  Rounding is not modelled, and no statement below rests on
      the exact value of a rounded result: the statements use [1 - 0] and
      [1 - 1], which are exact in floating point, the sign of
      [1 - p_fail], and the order between the clock and its sum with a
      non-negative duration, which rounding keeps.  NaN and infinities
      are not modelled.
    - Python dictionaries are [gmap]s, Python lists are [list]s.
    - Objects that are mutated through several references (vehicles, the
      events that tasks wait on) live in a store and are named by an
      address or an identity number.
    - A Python exception is a value of [Exception]; code that can raise
      runs in the state-and-exception monad [M].
    - asyncio is cooperative: between two suspension points exactly one
      coroutine runs.  The driver and the activity tasks are therefore
      sequential code over one [Simulator] state, and a task is a record
      in [tasks] that says what it waits for. *)

From Stdlib Require Import ZArith QArith String List Lia Lqa Permutation Sorted.
From stdpp Require Import base option gmap strings list.

Local Open Scope Z_scope.
Local Open Scope string_scope.
Local Open Scope list_scope.

(* ================================================================== *)
(** ** Exceptions *)

(** The exceptions the engine can meet.  [KeyError] is what a failed
    dictionary subscript raises, [AttributeError] a missing attribute,
    [TypeError] an ordering comparison with [None].  [ReferenceError]
    stands for a dangling store address; the engine never produces one.
    [ConfigurationError] is the name the specification uses; no
    statement of the program constructs it. *)
Inductive Exception : Type :=
| KeyError (key : string)
| AttributeError (attr : string)
| TypeError
| ReferenceError
| ConfigurationError (msg : string).

Definition Result (A : Type) : Type := (Exception + A)%type.

(* ================================================================== *)
(** ** objects/events.py

    The engine imports this module, and the module is not among the
    sources; what the engine uses of it is taken from the
    specification. *)

(** Modelled from the spec: the classes of event templates, [Event] and
    its subclasses [Failure] and [Completor] ("the distinguished Failure
    terminal", "the distinguished Completion terminal"), which the
    handler tells apart with [isinstance]. *)
Inductive EventKind : Type := Plain | FailureK | CompletorK.

(** Modelled from the spec: an event template, the [start], [end] and
    [failure] of an activity; it has an "identity ([name])". *)
Record Event : Type := mkEvent {
  ev_name : string;
  ev_kind : EventKind
}.

(** Modelled from the spec: [Failure()], the default of the [failure]
    field of both activity classes. *)
Definition Failure : Event := mkEvent "FAILURE" FailureK.

(** Modelled from the spec: [Completor(name)], the terminal that ends a
    ConOps. *)
Definition Completor (name : string) : Event := mkEvent name CompletorK.

(** Modelled from the spec: a [Predicate] is "a capability object
    exposing [check(pendingEvent, simulatorState) -> bool]".  It is
    named by a number here; what [check] answers is a parameter of the
    engine (see [Section Engine]), a total function without effects. *)
Definition Predicate : Type := nat.

(** Modelled from the spec: the three classes of run-time events, "a
    schedulable event with a time and optional predicate gate, a
    terminal completion event, and a terminal failure event". *)
Inductive EventClass : Type := ScheduledEvent | FailureEvent | CompletionEvent.

(** Modelled from the spec: a run-time event, built by the engine as
    [Cls(name, template, time)] or [Cls(name, template,
    predicate=...)]; an argument that is left out is [None].  [se_id] is
    the identity of the Python object: a task waits on an event object,
    and [list.remove] looks for it. *)
Record SimEvent : Type := mkSimEvent {
  se_id : nat;
  se_class : EventClass;
  se_name : string;
  se_template : Event;
  se_time : option Q;
  se_predicate : option Predicate
}.

(** Whatever has a [.name]: [ConOps.after] is called with run-time
    events and with event templates alike. *)
Class Named (A : Type) : Type := name_of : A -> string.
#[export] Instance Event_Named : Named Event := ev_name.
#[export] Instance SimEvent_Named : Named SimEvent := se_name.

(* ================================================================== *)
(** ** objects/activities.py *)

Record Activity : Type := mkActivity {
  act_name : string;
  act_start : Event;
  act_end : Event;
  act_duration : Q;
  act_p_fail : Q;
  act_failure : Event;
  act_resource_change : gmap string Z;
  act_agg_type : string
}.

Record PredicatedActivity : Type := mkPredicatedActivity {
  pact_name : string;
  pact_start : Event;
  pact_end : Event;
  pact_predicate : Predicate;
  pact_p_fail : Q;
  pact_failure : Event;
  pact_resource_change : gmap string Z;
  pact_agg_type : string
}.

(** The values of a ConOps dictionary are of either class; the handler
    reads their attributes without asking which. *)
Inductive AnyActivity : Type :=
| Timed (a : Activity)
| Gated (a : PredicatedActivity).

Definition activity_name (a : AnyActivity) : string :=
  match a with Timed a => act_name a | Gated a => pact_name a end.
Definition activity_start (a : AnyActivity) : Event :=
  match a with Timed a => act_start a | Gated a => pact_start a end.
Definition activity_end (a : AnyActivity) : Event :=
  match a with Timed a => act_end a | Gated a => pact_end a end.
Definition activity_p_fail (a : AnyActivity) : Q :=
  match a with Timed a => act_p_fail a | Gated a => pact_p_fail a end.
Definition activity_failure (a : AnyActivity) : Event :=
  match a with Timed a => act_failure a | Gated a => pact_failure a end.
Definition activity_resource_change (a : AnyActivity) : gmap string Z :=
  match a with
  | Timed a => act_resource_change a
  | Gated a => pact_resource_change a
  end.

(** [PredicatedActivity] has no [duration] attribute (the field is
    commented out in the class). *)
Definition activity_duration (a : AnyActivity) : Result Q :=
  match a with
  | Timed a => inr (act_duration a)
  | Gated _ => inl (AttributeError "duration")
  end.

Definition isinstance_PredicatedActivity (a : AnyActivity) : bool :=
  match a with Gated _ => true | Timed _ => false end.

Record ConOps : Type := mkConOps {
  sequence : gmap string AnyActivity
}.

(** [self.sequence["INIT"]] *)
Definition first (self : ConOps) : Result AnyActivity :=
  match sequence self !! "INIT" with
  | Some a => inr a
  | None => inl (KeyError "INIT")
  end.

(** [self.sequence[current_event.name]] *)
Definition after {A : Type} `{Named A} (self : ConOps) (current_event : A)
  : Result AnyActivity :=
  match sequence self !! name_of current_event with
  | Some a => inr a
  | None => inl (KeyError (name_of current_event))
  end.

(** [self.sequence.update(additions); return self]: the state of the
    object after the call.  [dict.update] lets the additions win. *)
Definition update (self : ConOps) (additions : gmap string AnyActivity)
  : ConOps :=
  mkConOps (additions ∪ sequence self).

(** ConOps objects in the Python heap.  [ConOps(sequence)] stores the
    dictionary it is given, not a copy of it, and [update] writes that
    dictionary in place and returns the object it was called on.  The
    heap therefore keeps the dictionaries by address, and a ConOps
    object is the address of the dictionary that its [sequence]
    attribute refers to: objects built on one dictionary share it. *)
Module ConOpsHeap.

Record Heap : Type := mkHeap {
  dicts : gmap nat (gmap string AnyActivity);
  objects : gmap nat nat
}.

(** [ConOps(d)]: a new object whose [sequence] is the dictionary at
    the address [d]. *)
Definition new (h : Heap) (d : nat) : Heap * nat :=
  let self := fresh (dom (objects h) : gset nat) in
  (mkHeap (dicts h) (<[self := d]> (objects h)), self).

(** What the object holds now: [self.sequence], read through the
    reference. *)
Definition read (h : Heap) (self : nat) : option ConOps :=
  match objects h !! self with
  | Some d => mkConOps <$> dicts h !! d
  | None => None
  end.

(** [self.update(additions)]: the dictionary that [self.sequence] refers
    to is written, and [self] is returned. *)
Definition call_update (h : Heap) (self : nat)
    (additions : gmap string AnyActivity) : Heap * nat :=
  match objects h !! self with
  | Some d =>
      (mkHeap
         (alter (fun m => sequence (update (mkConOps m) additions)) d
            (dicts h))
         (objects h),
       self)
  | None => (h, self)
  end.

Definition call_after (h : Heap) (self : nat) (event : Event)
  : Heap * Result AnyActivity :=
  match read h self with
  | Some c => (h, after c event)
  | None => (h, inl ReferenceError)
  end.

Definition call_first (h : Heap) (self : nat) : Heap * Result AnyActivity :=
  match read h self with
  | Some c => (h, first c)
  | None => (h, inl ReferenceError)
  end.

End ConOpsHeap.

(* ================================================================== *)
(** ** The Future Event List *)

(** [FutureEventList], its iteration, and the [heappush] that the
    engine calls all come from [objects.events]. *)

(** Modelled from the spec: the [FutureEventList], "a time-ordered
    priority structure of pending scheduled events" whose key is "[(time,
    insertion-order)]".  The entries are kept in insertion order, each
    with its time, so that the smallest key is the leftmost entry of
    least time. *)
Record FutureEventList (A : Type) : Type := mkFEL {
  events : list (Q * A)
}.
Arguments mkFEL {A} _.
Arguments events {A} _.

(** Modelled from the spec: [FutureEventList()], no event pending. *)
Definition empty_fel {A : Type} : FutureEventList A := mkFEL [].

(** Modelled from the spec: "[push(event)] inserts", here after the
    entries that are there. *)
Definition heappush {A : Type} (fel : FutureEventList A) (time : Q) (event : A)
  : FutureEventList A :=
  mkFEL (events fel ++ [(time, event)]).

(** Modelled from the spec: the entry "with smallest [(time,
    insertion-order)] key", which is the leftmost entry of least time,
    and the other entries in their order. *)
Fixpoint pop_min {A : Type} (l : list (Q * A))
  : option ((Q * A) * list (Q * A)) :=
  match l with
  | [] => None
  | x :: l' =>
      match pop_min l' with
      | None => Some (x, [])
      | Some (y, rest) =>
          if Qle_bool (fst x) (fst y) then Some (x, l')
          else Some (y, x :: rest)
      end
  end.

(** Modelled from the spec: "[popMin()] removes and returns the event
    with smallest key"; this is one step of [for event in self.future],
    and [None] is the end of the iteration.  "Pushes during iteration
    are visible to subsequent pops." *)
Definition heappop {A : Type} (fel : FutureEventList A)
  : option ((Q * A) * FutureEventList A) :=
  match pop_min (events fel) with
  | Some (x, rest) => Some (x, mkFEL rest)
  | None => None
  end.

(** Popping until the list is exhausted. *)
Fixpoint drain {A : Type} (fuel : nat) (fel : FutureEventList A)
  : list (Q * A) :=
  match fuel with
  | O => []
  | S fuel' =>
      match heappop fel with
      | Some (x, fel') => x :: drain fuel' fel'
      | None => []
      end
  end.

Definition push_all {A : Type} (fel : FutureEventList A) (l : list (Q * A))
  : FutureEventList A :=
  fold_left (fun f x => heappush f (fst x) (snd x)) l fel.

(* ================================================================== *)
(** ** objects/vehicles.py

    This module is not among the sources either. *)

(** Modelled from the spec: a [Vehicle] has "identity ([name]), its
    ConOps, current activity reference, resource counters (e.g.,
    remaining propellant units), [completed] flag, accumulated execution
    trace".  The attribute names are the ones the handler uses. *)
Record Vehicle : Type := mkVehicle {
  v_name : string;
  conops : ConOps;
  activity : option AnyActivity;
  propload : Z;
  completed_conops : bool;
  trace : list (Q * option string)
}.

Definition set_activity (a : option AnyActivity) (v : Vehicle) : Vehicle :=
  mkVehicle (v_name v) (conops v) a (propload v) (completed_conops v) (trace v).
Definition set_propload (p : Z) (v : Vehicle) : Vehicle :=
  mkVehicle (v_name v) (conops v) (activity v) p (completed_conops v) (trace v).
Definition set_completed_conops (b : bool) (v : Vehicle) : Vehicle :=
  mkVehicle (v_name v) (conops v) (activity v) (propload v) b (trace v).

(** Modelled from the spec: [vehicle.update_trace(clock)], "append a
    trace entry to the vehicle". *)
Definition update_trace (clock : Q) (v : Vehicle) : Vehicle :=
  mkVehicle (v_name v) (conops v) (activity v) (propload v)
            (completed_conops v)
            (trace v ++ [(clock, activity_name <$> activity v)]).

(* ================================================================== *)
(** ** drivers/simulator.py: the state *)

(** An asyncio task created by the simulator: an [activity_handler]
    coroutine with its arguments (the vehicle by address), or the
    [process_events] coroutine. *)
Inductive TaskBody : Type :=
| Handler (name : string) (start : SimEvent) (vehicle : nat)
| Driver.

Inductive TaskStatus : Type := Waiting | Running | Finished | Cancelled.

Record Task : Type := mkTask {
  task_body : TaskBody;
  task_status : TaskStatus
}.

(** One row of the [failures] data frame: Time, Vehicle, Activity. *)
Definition FailureRow : Type := (Q * string * string)%type.

(** The fields of the [Simulator] dataclass, and after them the part of
    the Python world the engine works on: the vehicle objects by
    address, the number of event objects created so far (the identity
    of the next one) and the number of draws taken from the module-level
    random generator. *)
Record Simulator : Type := mkSimulator {
  entities : gmap string nat;
  failures : list FailureRow;
  future : FutureEventList SimEvent;
  tasks : list Task;
  predicates : list SimEvent;
  clock : Q;
  success : bool;
  queue_future : list SimEvent;
  vehicles : list Vehicle;
  next_id : nat;
  draws : nat
}.

Definition set_entities (x : gmap string nat) (s : Simulator) : Simulator :=
  mkSimulator x (failures s) (future s) (tasks s) (predicates s) (clock s)
    (success s) (queue_future s) (vehicles s) (next_id s) (draws s).
Definition set_failures (x : list FailureRow) (s : Simulator) : Simulator :=
  mkSimulator (entities s) x (future s) (tasks s) (predicates s) (clock s)
    (success s) (queue_future s) (vehicles s) (next_id s) (draws s).
Definition set_future (x : FutureEventList SimEvent) (s : Simulator)
  : Simulator :=
  mkSimulator (entities s) (failures s) x (tasks s) (predicates s) (clock s)
    (success s) (queue_future s) (vehicles s) (next_id s) (draws s).
Definition set_tasks (x : list Task) (s : Simulator) : Simulator :=
  mkSimulator (entities s) (failures s) (future s) x (predicates s) (clock s)
    (success s) (queue_future s) (vehicles s) (next_id s) (draws s).
Definition set_predicates (x : list SimEvent) (s : Simulator) : Simulator :=
  mkSimulator (entities s) (failures s) (future s) (tasks s) x (clock s)
    (success s) (queue_future s) (vehicles s) (next_id s) (draws s).
Definition set_clock (x : Q) (s : Simulator) : Simulator :=
  mkSimulator (entities s) (failures s) (future s) (tasks s) (predicates s) x
    (success s) (queue_future s) (vehicles s) (next_id s) (draws s).
Definition set_success (x : bool) (s : Simulator) : Simulator :=
  mkSimulator (entities s) (failures s) (future s) (tasks s) (predicates s)
    (clock s) x (queue_future s) (vehicles s) (next_id s) (draws s).
Definition set_queue_future (x : list SimEvent) (s : Simulator) : Simulator :=
  mkSimulator (entities s) (failures s) (future s) (tasks s) (predicates s)
    (clock s) (success s) x (vehicles s) (next_id s) (draws s).
Definition set_vehicles (x : list Vehicle) (s : Simulator) : Simulator :=
  mkSimulator (entities s) (failures s) (future s) (tasks s) (predicates s)
    (clock s) (success s) (queue_future s) x (next_id s) (draws s).
Definition set_next_id (x : nat) (s : Simulator) : Simulator :=
  mkSimulator (entities s) (failures s) (future s) (tasks s) (predicates s)
    (clock s) (success s) (queue_future s) (vehicles s) x (draws s).
Definition set_draws (x : nat) (s : Simulator) : Simulator :=
  mkSimulator (entities s) (failures s) (future s) (tasks s) (predicates s)
    (clock s) (success s) (queue_future s) (vehicles s) (next_id s) x.

(** [Simulator()] in a fresh interpreter: every field at its default. *)
Definition Simulator_default : Simulator :=
  mkSimulator ∅ [] empty_fel [] [] 0%Q false [] [] 0%nat 0%nat.

(* ================================================================== *)
(** ** The state-and-exception monad *)

Definition M (A : Type) : Type := Simulator -> Result A * Simulator.

Definition ret {A : Type} (a : A) : M A := fun s => (inr a, s).
Definition raise {A : Type} (e : Exception) : M A := fun s => (inl e, s).
Definition bind {A B : Type} (m : M A) (k : A -> M B) : M B :=
  fun s =>
    match m s with
    | (inr a, s') => k a s'
    | (inl e, s') => (inl e, s')
    end.
Definition gets {A : Type} (f : Simulator -> A) : M A :=
  fun s => (inr (f s), s).
Definition modify (f : Simulator -> Simulator) : M unit :=
  fun s => (inr tt, f s).
Definition lift {A : Type} (r : Result A) : M A := fun s => (r, s).

Declare Scope sim_scope.
Delimit Scope sim_scope with sim.
Notation "x <- m ;; k" := (bind m (fun x => k))
  (at level 20, m at level 99, k at level 200, only parsing) : sim_scope.
Notation "m ;; k" := (bind m (fun _ => k))
  (at level 100, k at level 200, right associativity, only parsing)
  : sim_scope.
Local Open Scope sim_scope.

(** ** Store access *)

(** [vehicle.conops], [vehicle.name] through the reference. *)
Definition deref (vid : nat) : M Vehicle :=
  fun s =>
    match vehicles s !! vid with
    | Some v => (inr v, s)
    | None => (inl ReferenceError, s)
    end.

(** In-place mutation of the vehicle object. *)
Definition modify_vehicle (vid : nat) (f : Vehicle -> Vehicle) : M unit :=
  modify (fun s => set_vehicles (alter f vid (vehicles s)) s).

(** A vehicle object handed to the simulator: its address. *)
Definition alloc_vehicle (v : Vehicle) : M nat :=
  fun s => (inr (length (vehicles s)), set_vehicles (vehicles s ++ [v]) s).

(** [Cls(name, template, time, predicate)]: a new event object. *)
Definition new_event (cls : EventClass) (name : string) (template : Event)
    (time : option Q) (predicate : option Predicate) : M SimEvent :=
  fun s =>
    (inr (mkSimEvent (next_id s) cls name template time predicate),
     set_next_id (S (next_id s)) s).

(** [p.time = t] on an event object. *)
Definition set_time (t : Q) (p : SimEvent) : SimEvent :=
  mkSimEvent (se_id p) (se_class p) (se_name p) (se_template p) (Some t)
             (se_predicate p).

(** [list.remove(p)]: the first entry that is the object [p]. *)
Fixpoint remove_event (p : SimEvent) (l : list SimEvent) : list SimEvent :=
  match l with
  | [] => []
  | x :: l' => if Nat.eqb (se_id x) (se_id p) then l' else x :: remove_event p l'
  end.

(* ================================================================== *)
(** ** drivers/simulator.py: the operations

    The definitions follow the methods of [Simulator] (lines 42 to 128)
    and the coroutine [activity_handler] (lines 131 to 220). *)

Section Engine.

(** What the engine takes from its collaborators: the answer of
    [predicate.check(p, sim)], the vehicle's [handle_failure()] hook, and
    the sequence of values that [random.random()] returns. *)
Variable check : Predicate -> SimEvent -> Simulator -> bool.
Variable handle_failure : Vehicle -> Vehicle.
Variable random : nat -> Q.

(** [schedule(event)]: [heappush(self.future.events, event)].  The key
    of the entry is the event's [time]; an event without one cannot be
    ordered (the engine never schedules one). *)
Definition schedule (event : SimEvent) : M unit :=
  fun s =>
    match se_time event with
    | Some t => (inr tt, set_future (heappush (future s) t event) s)
    | None => (inl TypeError, s)
    end.

(** [self.tasks.append(asyncio.create_task(activity_handler(name, start,
    self, vehicle)))]: the new task runs up to [await start.wait()]. *)
Definition add_activity (name : string) (start : SimEvent) (vehicle : nat)
  : M unit :=
  modify (fun s =>
    set_tasks (tasks s ++ [mkTask (Handler name start vehicle) Waiting]) s).

(** [log_failure(time, vehicle, activity)]: one more row at the end of
    the frame. *)
Definition log_failure (time : Q) (vehicle activity : string) : M unit :=
  modify (fun s => set_failures (failures s ++ [(time, vehicle, activity)]) s).

(** [task.cancel()]: a task that is done stays as it is; a waiting one
    gets [CancelledError] at its [await]; the running one (the driver
    itself is in [self.tasks]) ends cancelled when its coroutine
    returns. *)
Definition cancel (t : Task) : Task :=
  match task_status t with
  | Finished => t
  | _ => mkTask (task_body t) Cancelled
  end.

(** [cancel_tasks()]: every task in [self.tasks] is sent [cancel()]. *)
Definition cancel_tasks : M unit :=
  modify (fun s => set_tasks (map cancel (tasks s)) s).

(** [add_vehicle(vehicle, start_time)]; the vehicle object gets its
    address when it is handed to the simulator. *)
Definition add_vehicle (vehicle : Vehicle) (start_time : Q) : M unit :=
  vid <- alloc_vehicle vehicle ;;
  modify (fun s => set_entities (<[v_name vehicle := vid]> (entities s)) s) ;;
  activity <- lift (first (conops vehicle)) ;;
  INIT <- new_event ScheduledEvent (ev_name (activity_start activity))
            (activity_start activity) (Some start_time) None ;;
  schedule INIT ;;
  add_activity (activity_name activity) INIT vid.

(** [random.random()] *)
Definition random_random : M Q :=
  fun s => (inr (random (draws s)), set_draws (S (draws s)) s).

(** [trial > (1 - p_fail_activity)], in exact arithmetic: the rounding
    of the difference is not modelled. *)
Definition trial_fails (trial p_fail : Q) : bool :=
  negb (Qle_bool trial (1 - p_fail)).

(** [sim.queue_future.put_nowait(next_event)] *)
Definition put_nowait (e : SimEvent) : M unit :=
  modify (fun s => set_queue_future (queue_future s ++ [e]) s).

(** The body of [activity_handler] after [await start.wait()] has
    returned, statement by statement. *)
Definition activity_handler (name : string) (start : SimEvent) (vehicle : nat)
  : M unit :=
  v <- deref vehicle ;;
  current_activity <- lift (after (conops v) start) ;;
  let p_fail_activity := activity_p_fail current_activity in
  trial <- random_random ;;
  current_end <-
    (if trial_fails trial p_fail_activity then
       now <- gets clock ;;
       log_failure now (v_name v) (activity_name current_activity) ;;
       modify_vehicle vehicle handle_failure ;;
       ret (activity_failure current_activity)
     else ret (activity_end current_activity)) ;;
  modify_vehicle vehicle (set_activity (Some current_activity)) ;;
  modify_vehicle vehicle (fun v => set_propload (propload v - 1) v) ;;
  next_event <-
    match ev_kind current_end with
    | FailureK =>
        now <- gets clock ;;
        new_event FailureEvent (ev_name (activity_failure current_activity))
          (activity_failure current_activity) (Some now) None
    | CompletorK =>
        now <- gets clock ;;
        duration <- lift (activity_duration current_activity) ;;
        e <- new_event CompletionEvent
               (ev_name (activity_end current_activity))
               (activity_end current_activity) (Some (now + duration)%Q) None ;;
        modify_vehicle vehicle (set_completed_conops true) ;;
        ret e
    | Plain =>
        v <- deref vehicle ;;
        next_activity <- lift (after (conops v) current_end) ;;
        e <- match current_activity with
             | Gated pa =>
                 new_event ScheduledEvent
                   (ev_name (activity_start next_activity))
                   (activity_start next_activity) None
                   (Some (pact_predicate pa))
             | Timed a =>
                 now <- gets clock ;;
                 new_event ScheduledEvent
                   (ev_name (activity_start next_activity))
                   (activity_start next_activity)
                   (Some (now + act_duration a)%Q) None
             end ;;
        add_activity (activity_name next_activity) e vehicle ;;
        ret e
    end ;;
  now <- gets clock ;;
  modify_vehicle vehicle (update_trace now) ;;
  put_nowait next_event.

(** The re-scan of the pending predicates (the inner [for p in
    self.predicates] loop, lines 74 to 80).  A Python list iterator is
    an index into the live list: each round reads [predicates[i]] if [i]
    is in range, and moves to [i + 1].  The function returns the entries
    it checked, in the order it checked them; the driver does not use
    that list. *)
Fixpoint scan_predicates (fuel i : nat) : M (list SimEvent) :=
  match fuel with
  | O => ret []
  | S fuel' =>
      ps <- gets predicates ;;
      match ps !! i with
      | None => ret []
      | Some p =>
          pred <- match se_predicate p with
                  | Some c => ret c
                  | None => raise (AttributeError "check")
                  end ;;
          fire <- gets (check pred p) ;;
          (if fire : bool then
             now <- gets clock ;;
             schedule (set_time now p) ;;
             modify (fun s => set_predicates (remove_event p (predicates s)) s)
           else ret tt) ;;
          rest <- scan_predicates fuel' (S i) ;;
          ret (p :: rest)
      end
  end.

(** The list never grows during the scan, so its length at the start
    bounds the number of rounds. *)
Definition check_predicates : M (list SimEvent) :=
  ps <- gets predicates ;;
  scan_predicates (length ps) 0.

(** How the loop body of [process_events] leaves: falls through to the
    next round, or [return]s. *)
Inductive Flow : Type := Next | Return.

(** The loop body from the classification of [new_event] on (lines 58
    to 80). *)
Definition dispatch (new_event : SimEvent) : M Flow :=
  match se_class new_event with
  | FailureEvent => cancel_tasks ;; ret Return
  | CompletionEvent => check_predicates ;; ret Next
  | ScheduledEvent =>
      match se_predicate new_event with
      | Some _ =>
          modify (fun s => set_predicates (predicates s ++ [new_event]) s)
      | None => schedule new_event
      end ;;
      check_predicates ;;
      ret Next
  end.

(** [event.set()] wakes the task that awaits [start.wait()] on this very
    event object: the first task of [self.tasks] that waits on it. *)
Definition waits_on (id : nat) (t : Task) : bool :=
  match task_body t, task_status t with
  | Handler _ start _, Waiting => Nat.eqb (se_id start) id
  | _, _ => false
  end.

Definition find_waiter (id : nat) (l : list Task) : option (nat * Task) :=
  list_find (fun t => waits_on id t = true) l.

(** The woken task has run to its end. *)
Definition finish (t : Task) : Task := mkTask (task_body t) Finished.

Definition finish_task (i : nat) (s : Simulator) : Simulator :=
  set_tasks (alter finish i (tasks s)) s.

(** How [await sim.run(...)] ends.
    - [Completed]: the event list was exhausted and [success] set.
    - [Failed]: the driver returned on a [FailureEvent] (the caller sees
      [CancelledError], because the driver cancelled itself too).
    - [Raised]: an exception reached [run].
    - [Stalled]: the driver waits for ever on [queue_future.get()]: no
      task was woken, or the woken task died without a result and
      [gather] does not watch it.
    - [OutOfFuel]: the loop was still running after [fuel] rounds. *)
Inductive Outcome : Type :=
| Completed (s : Simulator)
| Failed (s : Simulator)
| Raised (e : Exception) (s : Simulator)
| Stalled (s : Simulator)
| OutOfFuel (s : Simulator).

(** [process_events()].  Each round pops the next event, sets the clock
    to its time, fires it, takes the one result that the woken task has
    put on [queue_future], and classifies it.  [awaited] is the number of
    tasks that [run] passed to [asyncio.gather]: an exception in one of
    those reaches the caller of [run], an exception in a task that was
    spawned later is kept in that task. *)
Fixpoint process_events (awaited : nat) (fuel : nat) (s : Simulator)
  : Outcome :=
  match fuel with
  | O => OutOfFuel s
  | S fuel' =>
      match heappop (future s) with
      | None => Completed (set_success true s)
      | Some ((time, event), rest) =>
          let s := set_clock time (set_future rest s) in
          match find_waiter (se_id event) (tasks s) with
          | None | Some (_, mkTask Driver _) => Stalled s
          | Some (i, mkTask (Handler name start vehicle) _) =>
              match activity_handler name start vehicle s with
              | (inl e, s) =>
                  if Nat.ltb i awaited then Raised e s else Stalled s
              | (inr _, s) =>
                  let s := finish_task i s in
                  match queue_future s with
                  | [] => Stalled s
                  | new_event :: queue =>
                      match dispatch new_event (set_queue_future queue s) with
                      | (inl e, s) => Raised e s
                      | (inr Return, s) => Failed s
                      | (inr Next, s) => process_events awaited fuel' s
                      end
                  end
              end
          end
      end
  end.

(** [for start_time, vehicle in initial_vehicles:
    self.add_vehicle(vehicle, start_time)] *)
Fixpoint add_vehicles (initial_vehicles : list (Q * Vehicle)) : M unit :=
  match initial_vehicles with
  | [] => ret tt
  | (start_time, vehicle) :: rest =>
      add_vehicle vehicle start_time ;;
      add_vehicles rest
  end.

(** [run(initial_vehicles)]: the vehicles are added, the driver task
    is created, and all the tasks created so far are gathered.  Each
    entry of the list is a vehicle object of its own. *)
Definition run (fuel : nat) (initial_vehicles : list (Q * Vehicle))
    (s : Simulator) : Outcome :=
  match add_vehicles initial_vehicles s with
  | (inl e, s) => Raised e s
  | (inr _, s) =>
      let s := set_tasks (tasks s ++ [mkTask Driver Running]) s in
      process_events (length (tasks s)) fuel s
  end.

(** The simulator as the run has left it. *)
Definition final_state (o : Outcome) : Simulator :=
  match o with
  | Completed s | Failed s | Raised _ s | Stalled s | OutOfFuel s => s
  end.

End Engine.


(* ================================================================== *)
(** ** Nominal missions *)

(** [nominal c depth k]: in the ConOps [c], the task woken by an event
    named [k] finds its activity, that activity has [p_fail = 0] and an
    end that is not the Failure terminal, and either the end is the
    Completion terminal (and the activity has a duration to add to the
    clock), or the end resolves to a next activity whose start event is
    nominal in turn; the Completion terminal is reached within [depth]
    activities. *)
Fixpoint nominal (c : ConOps) (depth : nat) (k : string) : bool :=
  match depth with
  | O => false
  | S depth' =>
      match sequence c !! k with
      | None => false
      | Some a =>
          Qeq_bool (activity_p_fail a) 0 &&
          match ev_kind (activity_end a) with
          | FailureK => false
          | CompletorK => negb (isinstance_PredicatedActivity a)
          | Plain =>
              match sequence c !! ev_name (activity_end a) with
              | None => false
              | Some next =>
                  nominal c depth' (ev_name (activity_start next))
              end
          end
      end
  end.

(** The vehicle has an ["INIT"] entry and the event that [add_vehicle]
    schedules for it is nominal. *)
Definition nominal_mission (depth : nat) (v : Vehicle) : bool :=
  match sequence (conops v) !! "INIT" with
  | None => false
  | Some a => nominal (conops v) depth (ev_name (activity_start a))
  end.

(** The events that have not fired yet: those on the Future Event List
    and those that wait for their predicate. *)
Definition pending_events (s : Simulator) : list SimEvent :=
  (snd <$> events (future s)) ++ predicates s.

(* ================================================================== *)
(** ** Predicates of the statements *)





(** The pending entry [p] fires in the state [s]: it goes onto the
    Future Event List with the clock of [s] as its time, and leaves the
    pending list. *)
Definition fire (p : SimEvent) (s : Simulator) : Simulator :=
  set_predicates (remove_event p (predicates s))
    (set_future (heappush (future s) (clock s) (set_time (clock s) p)) s).

(** [fires check s s']: the state [s'] comes from [s] by pending entries
    firing one after the other, each one pending in the state it fires
    in and with a predicate that answers true on that very state. *)
Inductive fires (check : Predicate -> SimEvent -> Simulator -> bool)
  : Simulator -> Simulator -> Prop :=
| fires_none (s : Simulator) : fires check s s
| fires_one (s s' : Simulator) (p : SimEvent) (c : Predicate) :
    p ∈ predicates s ->
    se_predicate p = Some c ->
    check c p s = true ->
    fires check (fire p s) s' ->
    fires check s s'.

(** The pending entry [q] has a predicate, and it does not hold on the
    state [s]. *)
Definition quiet (check : Predicate -> SimEvent -> Simulator -> bool)
    (s : Simulator) (q : SimEvent) : Prop :=
  exists c, se_predicate q = Some c /\ check c q s = false.

(** The vehicles of two states are the same objects with the same
    ConOps. *)
Definition same_conops (l l' : list Vehicle) : Prop :=
  Forall2 (fun v v' => conops v = conops v') l l'.

(** Running [m] leaves every vehicle with the ConOps it had. *)
Definition conops_kept {B : Type} (m : M B) : Prop :=
  forall s, same_conops (vehicles s) (vehicles (snd (m s))).


(** Tasks only wait on events that exist. *)
Definition task_known (next : nat) (t : Task) : Prop :=
  match task_body t with
  | Handler _ start _ => (se_id start < next)%nat
  | Driver => True
  end.


(** What the invariant of a nominal run keeps of a pending event: its
    identity and its name. *)
Definition ident (e : SimEvent) : nat * string := (se_id e, se_name e).

Definition idents (s : Simulator) : list (nat * string) :=
  ident <$> pending_events s.

Definition gated (p : SimEvent) : Prop := is_Some (se_predicate p).


(** The event [x] (identity and name) wakes a task of a vehicle in whose
    ConOps the name is nominal within [b] activities. *)
Definition waiter_ok (b : nat -> nat) (s : Simulator) (x : nat * string)
  : Prop :=
  exists i name start vid w v,
    find_waiter x.1 (tasks s) = Some (i, mkTask (Handler name start vid) w) /\
    se_name start = x.2 /\
    vehicles s !! vid = Some v /\
    nominal (conops v) (b x.1) x.2 = true.

Record nominal_state (b : nat -> nat) (s : Simulator) : Prop :=
  mk_nominal_state {
    ns_failures : failures s = [];
    ns_queue : queue_future s = [];
    ns_gated : Forall gated (predicates s);
    ns_nodup : NoDup (idents s).*1;
    ns_fresh : Forall (fun x => (x.1 < next_id s)%nat) (idents s);
    ns_tasks : Forall (task_known (next_id s)) (tasks s);
    ns_waiter : Forall (waiter_ok b s) (idents s)
  }.

(** The number of activities that the pending events still stand for. *)
Definition budget (b : nat -> nat) (s : Simulator) : nat :=
  sum_list_with (fun x => b x.1) (idents s).

Definition rebound (b : nat -> nat) (k d : nat) : nat -> nat :=
  fun n => if decide (n = k) then d else b n.


(** What the loop body does with a result that is not a failure. *)
Definition classify (e : SimEvent) (s : Simulator) : Simulator :=
  match se_class e, se_predicate e, se_time e with
  | ScheduledEvent, Some _, _ => set_predicates (predicates s ++ [e]) s
  | ScheduledEvent, None, Some t => set_future (heappush (future s) t e) s
  | _, _, _ => s
  end.


(** In the ConOps [c] the activity that starts at [k] cannot fail, has
    a duration, and ends in an event that leads back to [k]. *)
Definition loops_on (c : ConOps) (k : string) : Prop :=
  exists a next,
    sequence c !! k = Some a /\
    (activity_p_fail a == 0)%Q /\
    ev_kind (activity_end a) = Plain /\
    isinstance_PredicatedActivity a = false /\
    sequence c !! ev_name (activity_end a) = Some next /\
    ev_name (activity_start next) = k.

(** One event is pending, on the Future Event List, and the task it
    wakes belongs to a vehicle that loops on it. *)
Record looping (s : Simulator) : Prop := mk_looping {
  lp_predicates : predicates s = [];
  lp_queue : queue_future s = [];
  lp_tasks : Forall (task_known (next_id s)) (tasks s);
  lp_event :
    exists t e i name start vid w v,
      events (future s) = [(t, e)] /\
      (se_id e < next_id s)%nat /\
      find_waiter (se_id e) (tasks s)
        = Some (i, mkTask (Handler name start vid) w) /\
      se_name start = se_name e /\
      vehicles s !! vid = Some v /\
      loops_on (conops v) (se_name e)
}.


(* ================================================================== *)
(** ** Reasoning about monadic code *)

(** A computation [preserves] an observation [f] of the state when
    running it, whether it returns or raises, leaves [f] as it was. *)
Definition preserves {A B : Type} (f : Simulator -> A) (m : M B) : Prop :=
  forall s, f (snd (m s)) = f s.


(** [wp m s Q]: running [m] from [s] ends, with a result or an
    exception, in a state that satisfies [Q]. *)
Definition wp {A : Type} (m : M A) (s : Simulator)
    (Q : Result A -> Simulator -> Prop) : Prop :=
  Q (fst (m s)) (snd (m s)).
Arguments wp : simpl never.


(* ================================================================== *)
(** ** Simulator instances and the defaults of the dataclass *)

(** [Simulator] declares [failures] and [future] with a plain default
    value and its other mutable fields with a [default_factory].  A plain
    default is evaluated once, when the class body runs, and the
    generated [__init__] binds that one object to the attribute of every
    instance; a factory is called for each instance.  This module keeps
    the two plainly defaulted attributes by address. *)
Module Instances.

Record Heap : Type := mkHeap {
  fel_objects : list (FutureEventList SimEvent);
  frame_objects : list (list FailureRow)
}.

Definition empty_heap : Heap := mkHeap [] [].

(** The class object: the defaults that the class body evaluated. *)
Record SimulatorClass : Type := mkSimulatorClass {
  default_failures : nat;
  default_future : nat
}.

(** An instance: what its [failures] and [future] attributes refer to. *)
Record Instance : Type := mkInstance {
  failures_ref : nat;
  future_ref : nat
}.

(** Running the class body: [pd.DataFrame(columns=...)] and
    [FutureEventList()] are built here, once. *)
Definition class_body (h : Heap) : Heap * SimulatorClass :=
  (mkHeap (fel_objects h ++ [empty_fel]) (frame_objects h ++ [[]]),
   mkSimulatorClass (length (frame_objects h)) (length (fel_objects h))).

(** [Simulator()] *)
Definition new (cls : SimulatorClass) (h : Heap) : Heap * Instance :=
  (h, mkInstance (default_failures cls) (default_future cls)).

(** [self.schedule(event)]: [heappush(self.future.events, event)] *)
Definition schedule (self : Instance) (event : SimEvent) (h : Heap)
  : Result Heap :=
  match se_time event with
  | Some t =>
      inr (mkHeap (alter (fun f => heappush f t event) (future_ref self)
                     (fel_objects h))
                  (frame_objects h))
  | None => inl TypeError
  end.

(** [self.log_failure(...)]: [pd.concat] builds a new frame and the
    attribute is bound to it; the old frame is not written. *)
Definition log_failure (self : Instance) (row : FailureRow) (h : Heap)
  : Heap * Instance :=
  let old := default [] (frame_objects h !! failures_ref self) in
  (mkHeap (fel_objects h) (frame_objects h ++ [old ++ [row]]),
   mkInstance (length (frame_objects h)) (future_ref self)).

(** What an instance observes. *)
Definition read_future (self : Instance) (h : Heap) : list (Q * SimEvent) :=
  match fel_objects h !! future_ref self with
  | Some f => events f
  | None => []
  end.

Definition read_failures (self : Instance) (h : Heap) : list FailureRow :=
  default [] (frame_objects h !! failures_ref self).

End Instances.

(* ================================================================== *)
(** ** Sample missions *)

Definition sample_activity : AnyActivity :=
  Timed (mkActivity "Launch" (mkEvent "INIT" Plain) (Completor "ORBIT")
           10 0 Failure ∅ "").

Definition sample_event : SimEvent :=
  mkSimEvent 0 ScheduledEvent "INIT" (mkEvent "INIT" Plain) (Some 0%Q) None.

(** Collaborators for the samples: predicates that always hold, a
    failure hook that leaves the vehicle alone, a generator that always
    returns the same number. *)
Definition always_true (c : Predicate) (p : SimEvent) (s : Simulator) : bool :=
  true.
Definition no_hook (v : Vehicle) : Vehicle := v.
Definition constant (u : Q) (n : nat) : Q := u.

(** Two events waiting for their predicate, at clock 5. *)
Definition gated_event (id : nat) (name : string) : SimEvent :=
  mkSimEvent id ScheduledEvent name (mkEvent name Plain) None (Some 0%nat).

Definition two_pending : Simulator :=
  set_predicates [gated_event 1 "DOCK"; gated_event 2 "REFUEL"]
    (set_clock 5%Q Simulator_default).

(** An activity that declares a propellant change of 5 units, and a
    vehicle with 20 units that carries it out, woken at its INIT event. *)
Definition burn : AnyActivity :=
  Timed (mkActivity "Burn" (mkEvent "INIT" Plain) (Completor "DONE")
           10 0 Failure {[ "propload" := 5 ]} "").

Definition tug : Vehicle :=
  mkVehicle "Tug" (mkConOps {[ "INIT" := burn ]}) None 20 false [].

Definition tug_ready : Simulator :=
  snd (add_vehicle tug 0%Q Simulator_default).

(** A launch that is certain to fail, with the default failure end, and
    the simulator that has taken its rocket in at time 3 and started
    the driver. *)
Definition launch : AnyActivity :=
  Timed (mkActivity "Launch" (mkEvent "INIT" Plain) (Completor "ORBIT")
           10 1 Failure ∅ "").

Definition rocket : Vehicle :=
  mkVehicle "Rocket" (mkConOps {[ "INIT" := launch ]}) None 20 false [].

Definition rocket_ready : Simulator :=
  let s := snd (add_vehicle rocket 3%Q Simulator_default) in
  set_tasks (tasks s ++ [mkTask Driver Running]) s.

Definition rocket_init : SimEvent :=
  mkSimEvent 0 ScheduledEvent "INIT" (mkEvent "INIT" Plain) (Some 3%Q) None.


(** The same launch with its failure routed to a recovery activity. *)
Definition recover : AnyActivity :=
  Timed (mkActivity "Recover" (mkEvent "ABORT" Plain) (Completor "LANDED")
           5 0 Failure ∅ "").

Definition launch_with_abort : AnyActivity :=
  Timed (mkActivity "Launch" (mkEvent "INIT" Plain) (Completor "ORBIT")
           10 1 (mkEvent "ABORT" Plain) ∅ "").

Definition shuttle : Vehicle :=
  mkVehicle "Shuttle"
    (mkConOps {[ "INIT" := launch_with_abort; "ABORT" := recover ]})
    None 20 false [].

(** A ferry that loiters until predicate 0 holds and then docks. *)
Definition loiter : PredicatedActivity :=
  mkPredicatedActivity "Loiter" (mkEvent "INIT" Plain) (mkEvent "DOCK" Plain)
    0%nat 0 Failure ∅ "".

Definition dock : AnyActivity :=
  Timed (mkActivity "Dock" (mkEvent "DOCK" Plain) (Completor "DONE")
           2 0 Failure ∅ "").

Definition ferry : Vehicle :=
  mkVehicle "Ferry" (mkConOps {[ "INIT" := Gated loiter; "DOCK" := dock ]})
    None 20 false [].

Definition ferry_ready : Simulator :=
  snd (add_vehicle ferry 0%Q Simulator_default).

Definition ferry_dock : SimEvent :=
  mkSimEvent 1 ScheduledEvent "DOCK" (mkEvent "DOCK" Plain) None (Some 0%nat).

(** Three missions without any failure probability that do not end in
    success: a satellite whose only activity leads back to its own start
    event, a vehicle whose activity ends in an event that its ConOps
    does not know, and a launch whose nominal end is the Failure
    terminal. *)
Definition orbit : AnyActivity :=
  Timed (mkActivity "Orbit" (mkEvent "INIT" Plain) (mkEvent "INIT" Plain)
           1 0 Failure ∅ "").

Definition satellite : Vehicle :=
  mkVehicle "Satellite" (mkConOps {[ "INIT" := orbit ]}) None 20 false [].

Definition satellite_ready : Simulator :=
  let s := snd (add_vehicle satellite 0%Q Simulator_default) in
  set_tasks (tasks s ++ [mkTask Driver Running]) s.

Definition drift : AnyActivity :=
  Timed (mkActivity "Drift" (mkEvent "INIT" Plain) (mkEvent "DOCK" Plain)
           1 0 Failure ∅ "").

Definition stranded : Vehicle :=
  mkVehicle "Stranded" (mkConOps {[ "INIT" := drift ]}) None 20 false [].

Definition scrub : AnyActivity :=
  Timed (mkActivity "Scrub" (mkEvent "INIT" Plain) Failure 1 0 Failure ∅ "").

Definition scrubbed : Vehicle :=
  mkVehicle "Scrubbed" (mkConOps {[ "INIT" := scrub ]}) None 20 false [].

(* ================================================================== *)
(** ** Predicates of further properties *)

(** Running [m] only appends to the list [f] of the state. *)
Definition extends {A B : Type} (f : Simulator -> list A) (m : M B) : Prop :=
  forall s, f s `prefix_of` f (snd (m s)).

(** The coroutines that [self.tasks] holds, whatever their status. *)
Definition task_bodies (s : Simulator) : list TaskBody :=
  task_body <$> tasks s.




(** An event that a task hands to the driver has a time or a predicate,
    and not both. *)
Definition time_xor_predicate (e : SimEvent) : Prop :=
  (is_Some (se_time e) /\ se_predicate e = None) \/
  (se_time e = None /\ is_Some (se_predicate e)).

(** The entries at the even and at the odd indices of a list. *)
Fixpoint even_entries {A : Type} (l : list A) : list A :=
  match l with
  | [] => []
  | x :: l' =>
      x :: match l' with
           | [] => []
           | _ :: l'' => even_entries l''
           end
  end.

Fixpoint odd_entries {A : Type} (l : list A) : list A :=
  match l with
  | [] => []
  | _ :: l' =>
      match l' with
      | [] => []
      | y :: l'' => y :: odd_entries l''
      end
  end.

(* ================================================================== *)
(** ** More sample missions *)

(** A probe whose only activity waits for a predicate and ends in the
    Completion terminal. *)
Definition hold : PredicatedActivity :=
  mkPredicatedActivity "Hold" (mkEvent "INIT" Plain) (Completor "DONE")
    0%nat 0 Failure ∅ "".

Definition probe : Vehicle :=
  mkVehicle "Probe" (mkConOps {[ "INIT" := Gated hold ]}) None 20 false [].

Definition probe_ready : Simulator :=
  snd (add_vehicle probe 0%Q Simulator_default).

(** A lander whose ["INIT"] entry starts at an event of another name,
    which its ConOps does not know. *)
Definition descent : AnyActivity :=
  Timed (mkActivity "Descent" (mkEvent "DEORBIT" Plain) (Completor "LANDED")
           4 0 Failure ∅ "").

Definition lander : Vehicle :=
  mkVehicle "Lander" (mkConOps {[ "INIT" := descent ]}) None 20 false [].

Definition lander_ready : Simulator :=
  snd (add_vehicle lander 0%Q Simulator_default).

Definition lander_init : SimEvent :=
  mkSimEvent 0 ScheduledEvent "DEORBIT" (mkEvent "DEORBIT" Plain) (Some 0%Q)
    None.

(** The stranded vehicle, taken in at time 0. *)
Definition stranded_ready : Simulator :=
  snd (add_vehicle stranded 0%Q Simulator_default).

(** A vehicle without a ConOps entry. *)
Definition idle : Vehicle :=
  mkVehicle "Idle" (mkConOps ∅) None 20 false [].

(** A predicate check that never holds. *)
Definition never_true (c : Predicate) (p : SimEvent) (s : Simulator) : bool :=
  false.

(** A second vehicle that goes by the name of the tug. *)
Definition tug_twin : Vehicle :=
  mkVehicle "Tug" (mkConOps {[ "INIT" := dock ]}) None 7 false [].


(* ================================================================== *)
(** * Properties *)

(** ** The Future Event List *)

Section FutureEventListFacts.

Context {A : Type}.
Implicit Types (l rest : list (Q * A)) (x y : Q * A).

Lemma push_all_events (fel : FutureEventList A) l :
  events (push_all fel l) = events fel ++ l.
Proof.
  revert fel. induction l as [|[t e] l IH]; intros fel; simpl.
  - by rewrite app_nil_r.
  - change (events (push_all (heappush fel t e) l) = events fel ++ (t, e) :: l).
    rewrite IH. simpl. by rewrite <- app_assoc.
Qed.

Lemma pop_min_None l : pop_min l = None -> l = [].
Proof.
  destruct l as [|x l]; [done|]. simpl.
  destruct (pop_min l) as [[y r]|]; [|done].
  by destruct (Qle_bool (fst x) (fst y)).
Qed.

(** What [pop_min] takes out: everything before it is strictly later,
    everything after it is not earlier. *)
Lemma pop_min_split l x rest :
  pop_min l = Some (x, rest) ->
  exists l1 l2,
    l = l1 ++ x :: l2 /\ rest = l1 ++ l2 /\
    Forall (fun y => ~ (fst y <= fst x)%Q) l1 /\
    Forall (fun y => (fst x <= fst y)%Q) l2.
Proof.
  revert x rest. induction l as [|x0 l IH]; intros x rest; simpl; [done|].
  destruct (pop_min l) as [[y r]|] eqn:Hp.
  - destruct (IH y r eq_refl) as (l1 & l2 & -> & -> & H1 & H2).
    destruct (Qle_bool (fst x0) (fst y)) eqn:Hle; intros [= <- <-].
    + apply Qle_bool_iff in Hle.
      exists [], (l1 ++ y :: l2). repeat split; [constructor|].
      apply Forall_app. split; [|constructor].
      * eapply Forall_impl; [exact H1|]. simpl. intros z Hz.
        destruct (Qlt_le_dec (fst z) (fst x0)) as [Hlt|]; [|done].
        exfalso. apply Hz. apply Qlt_le_weak.
        eapply Qlt_le_trans; eauto.
      * done.
      * eapply Forall_impl; [exact H2|]. simpl. intros z Hz.
        eapply Qle_trans; eauto.
    + exists (x0 :: l1), l2. repeat split; [|done].
      constructor; [|done]. intros Hc. apply Qle_bool_iff in Hc. congruence.
  - apply pop_min_None in Hp as ->. intros [= <- <-].
    exists [], []. repeat split; constructor.
Qed.

Lemma pop_min_perm l x rest :
  pop_min l = Some (x, rest) -> Permutation l (x :: rest).
Proof.
  intros (l1 & l2 & -> & -> & _)%pop_min_split.
  symmetry. apply Permutation_middle.
Qed.

Lemma pop_min_least l x rest :
  pop_min l = Some (x, rest) -> Forall (fun y => (fst x <= fst y)%Q) rest.
Proof.
  intros (l1 & l2 & -> & -> & H1 & H2)%pop_min_split.
  apply Forall_app. split; [|done].
  eapply Forall_impl; [exact H1|]. simpl. intros z Hz.
  destruct (Qlt_le_dec (fst x) (fst z)) as [Hlt|]; [|done].
  by apply Qlt_le_weak.
Qed.

(** Entries of time [t] keep their relative order when the minimum is
    taken out. *)
Lemma pop_min_stable l x rest (t : Q) :
  pop_min l = Some (x, rest) ->
  List.filter (fun y => Qeq_bool (fst y) t) l =
  List.filter (fun y => Qeq_bool (fst y) t) (x :: rest).
Proof.
  intros (l1 & l2 & -> & -> & H1 & _)%pop_min_split.
  rewrite List.filter_app. simpl.
  destruct (Qeq_bool (fst x) t) eqn:Hx; [|by rewrite List.filter_app].
  assert (List.filter (fun y => Qeq_bool (fst y) t) l1 = []) as Hnil.
  { induction H1 as [|z l1 Hz _ IH]; [done|]. simpl.
    destruct (Qeq_bool (fst z) t) eqn:Hzt; [|done].
    exfalso. apply Hz. apply Qeq_bool_iff in Hx, Hzt.
    rewrite Hx, Hzt. apply Qle_refl. }
  rewrite List.filter_app, Hnil. done.
Qed.

Lemma drain_perm n l :
  length l = n -> Permutation (drain n (mkFEL l)) l.
Proof.
  revert l. induction n as [|n IH]; intros l Hn.
  - destruct l; [constructor|done].
  - simpl. unfold heappop. simpl.
    destruct (pop_min l) as [[x rest]|] eqn:Hp.
    + pose proof (pop_min_perm _ _ _ Hp) as Hperm.
      rewrite Hperm. constructor. apply IH.
      apply Permutation_length in Hperm. simpl in Hperm. lia.
    + apply pop_min_None in Hp as ->. done.
Qed.

Lemma drain_sorted n l :
  length l = n ->
  StronglySorted (fun x y => (fst x <= fst y)%Q) (drain n (mkFEL l)).
Proof.
  revert l. induction n as [|n IH]; intros l Hn; simpl; [constructor|].
  unfold heappop. simpl.
  destruct (pop_min l) as [[x rest]|] eqn:Hp; [|constructor].
  assert (length rest = n) as Hlen.
  { apply pop_min_perm, Permutation_length in Hp. simpl in Hp. lia. }
  constructor; [by apply IH|].
  eapply Permutation_Forall.
  - symmetry. by apply drain_perm.
  - by eapply pop_min_least.
Qed.

Lemma drain_stable n l (t : Q) :
  length l = n ->
  List.filter (fun y => Qeq_bool (fst y) t) (drain n (mkFEL l)) =
  List.filter (fun y => Qeq_bool (fst y) t) l.
Proof.
  revert l. induction n as [|n IH]; intros l Hn.
  - by destruct l.
  - simpl. unfold heappop. simpl.
    destruct (pop_min l) as [[x rest]|] eqn:Hp.
    + rewrite (pop_min_stable _ _ _ t Hp). simpl.
      assert (length rest = n) as Hlen.
      { apply pop_min_perm, Permutation_length in Hp. simpl in Hp. lia. }
      rewrite (IH rest Hlen). done.
    + apply pop_min_None in Hp as ->. done.
Qed.

End FutureEventListFacts.

(** C5. Whatever is pushed into an empty Future Event List, popping it
    until it is exhausted returns every pushed entry once, in
    non-decreasing order of time, and the entries of any one time come
    out in the order in which they were pushed. *)
Theorem future_event_list_pops_in_time_order_stably :
  forall (A : Type) (pushes : list (Q * A)),
    let pops := drain (length pushes) (push_all empty_fel pushes) in
    StronglySorted (fun x y => (fst x <= fst y)%Q) pops /\
    Permutation pops pushes /\
    forall t : Q,
      List.filter (fun y => Qeq_bool (fst y) t) pops =
      List.filter (fun y => Qeq_bool (fst y) t) pushes.
Proof.
  intros A pushes pops. subst pops.
  assert (push_all empty_fel pushes = mkFEL pushes) as ->.
  { pose proof (push_all_events (@empty_fel A) pushes) as H.
    destruct (push_all empty_fel pushes). simpl in H. by subst. }
  split; [|split].
  - by apply drain_sorted.
  - by apply drain_perm.
  - intros t. by apply drain_stable.
Qed.

(* ================================================================== *)
(** ** ConOps navigation *)

(** C4 (as the program has it). When the name of the event is not a key
    of the ConOps sequence, [after] fails with the [KeyError] of the
    dictionary subscript, carrying that name; it is never a
    [ConfigurationError]. *)
Theorem after_unknown_event_raises_KeyError :
  forall (A : Type) (HA : Named A) (c : ConOps) (event : A),
    sequence c !! name_of event = None ->
    after c event = inl (KeyError (name_of event)) /\
    forall msg, after c event <> inl (ConfigurationError msg).
Proof.
  intros A HA c event Hnone. unfold after. rewrite Hnone. by split.
Qed.

Lemma after_unknown_event_raises_KeyError_witness :
  sequence (mkConOps ∅) !! name_of (mkEvent "DOCK" Plain) = None /\
  after (mkConOps ∅) (mkEvent "DOCK" Plain) = inl (KeyError "DOCK").
Proof.
  assert (sequence (mkConOps ∅) !! name_of (mkEvent "DOCK" Plain) = None)
    as Hnone by reflexivity.
  split; [exact Hnone|].
  apply (proj1 (after_unknown_event_raises_KeyError Event _ (mkConOps ∅)
                  (mkEvent "DOCK" Plain) Hnone)).
Defined.

(** C4 as the specification words it does not hold: on the empty ConOps
    the lookup of ["DOCK"] is not answered with a [ConfigurationError]. *)
Lemma after_unknown_event_not_ConfigurationError :
  ~ (forall (c : ConOps) (event : Event),
        sequence c !! name_of event = None ->
        exists msg, after c event = inl (ConfigurationError msg)).
Proof.
  intros H.
  destruct (H (mkConOps ∅) (mkEvent "DOCK" Plain)) as [msg Hmsg];
    [reflexivity|].
  discriminate Hmsg.
Qed.

(** A known name is answered with its activity. *)
Lemma after_known (A : Type) (HA : Named A) (c : ConOps) (event : A) a :
  sequence c !! name_of event = Some a -> after c event = inr a.
Proof. intros H. unfold after. by rewrite H. Qed.

(** ** ConOps objects are mutable *)

(** Two objects constructed on one dictionary are two objects over that
    one dictionary. *)
Lemma conops_heap_new (h : ConOpsHeap.Heap) (d : nat) :
  let h1 := fst (ConOpsHeap.new h d) in
  let a := snd (ConOpsHeap.new h d) in
  let h2 := fst (ConOpsHeap.new h1 d) in
  let b := snd (ConOpsHeap.new h1 d) in
  a <> b /\
  ConOpsHeap.objects h2 !! a = Some d /\
  ConOpsHeap.objects h2 !! b = Some d /\
  ConOpsHeap.dicts h2 = ConOpsHeap.dicts h.
Proof.
  simpl.
  set (a := fresh (dom (ConOpsHeap.objects h))).
  set (b := fresh (dom (<[a:=d]> (ConOpsHeap.objects h)))).
  assert (a <> b) as Hab.
  { intros Heq. apply (is_fresh (dom (<[a:=d]> (ConOpsHeap.objects h)))).
    fold b. rewrite <- Heq. rewrite dom_insert. set_solver. }
  split_and!; [done| |by rewrite lookup_insert_eq|done].
  rewrite lookup_insert_ne by done. by rewrite lookup_insert_eq.
Qed.

(** On the heap, [first] and [after] leave everything as it was;
    [update] returns the reference it was called on and merges the
    additions over the old entries of the dictionary of that object, so
    that every object on that dictionary holds the merged sequence, and
    an object on another dictionary holds what it held. *)
Lemma conops_heap_update :
  forall (h : ConOpsHeap.Heap) (self d : nat)
         (m : gmap string AnyActivity) (event : Event)
         (additions : gmap string AnyActivity),
    ConOpsHeap.objects h !! self = Some d ->
    ConOpsHeap.dicts h !! d = Some m ->
    fst (ConOpsHeap.call_first h self) = h /\
    fst (ConOpsHeap.call_after h self event) = h /\
    snd (ConOpsHeap.call_update h self additions) = self /\
    (forall other,
        ConOpsHeap.objects h !! other = Some d ->
        exists c',
          ConOpsHeap.read (fst (ConOpsHeap.call_update h self additions)) other
            = Some c' /\
          forall k,
            sequence c' !! k =
            match additions !! k with
            | Some a => Some a
            | None => m !! k
            end) /\
    (forall other d',
        ConOpsHeap.objects h !! other = Some d' ->
        d' <> d ->
        ConOpsHeap.read (fst (ConOpsHeap.call_update h self additions)) other
          = ConOpsHeap.read h other).
Proof.
  intros h self d m event additions Hself Hd.
  unfold ConOpsHeap.call_first, ConOpsHeap.call_after, ConOpsHeap.call_update,
    ConOpsHeap.read.
  rewrite Hself, Hd. simpl. split_and!; try done.
  - intros other ->. rewrite lookup_alter_eq, Hd. simpl.
    eexists. split; [reflexivity|]. intros k. simpl.
    rewrite lookup_union. destruct (additions !! k), (m !! k); done.
  - intros other d' -> Hne. by rewrite lookup_alter_ne.
Qed.

(** C9 as the specification words it does not hold: [update] changes the
    sequence that a ConOps object holds. *)
Lemma conops_update_changes_the_sequence :
  ~ (forall (c : ConOps) (additions : gmap string AnyActivity),
        sequence (update c additions) = sequence c).
Proof.
  intros H.
  specialize (H (mkConOps ∅) {[ "INIT" := sample_activity ]}).
  apply (f_equal (fun m => m !! "INIT")) in H.
  vm_compute in H. discriminate H.
Qed.

(* ================================================================== *)
(** ** Two simulator instances *)

(** C10 fails on the program. Two instances built with the defaults hold
    the same [FutureEventList] object, so an event scheduled through one
    is in the event list that the other observes.  (Their failure logs
    start as one object too, but [log_failure] rebinds the attribute and
    the other instance keeps observing the old frame.) *)
Theorem default_future_is_shared_between_instances :
  forall (h0 : Instances.Heap) (t : Q) (event : SimEvent)
         (row : FailureRow),
    let '(h1, cls) := Instances.class_body h0 in
    let '(h2, a) := Instances.new cls h1 in
    let '(h3, b) := Instances.new cls h2 in
    Instances.future_ref a = Instances.future_ref b /\
    Instances.read_future b h3 = [] /\
    (exists h4,
        Instances.schedule a (set_time t event) h3 = inr h4 /\
        Instances.read_future b h4 = [(t, set_time t event)]) /\
    Instances.read_failures b (fst (Instances.log_failure a row h3)) = [].
Proof.
  intros h0 t event row. simpl. split; [done|].
  unfold Instances.read_future, Instances.read_failures,
    Instances.schedule. simpl.
  rewrite !lookup_app_r by lia. rewrite !Nat.sub_diag. simpl.
  repeat split.
  - eexists. split; [reflexivity|]. simpl.
    rewrite list_lookup_alter.
    rewrite lookup_app_r by lia. rewrite Nat.sub_diag.
    case_decide; [done|congruence].
  - rewrite lookup_app_l by (rewrite length_app; simpl; lia).
    rewrite lookup_app_r by lia. rewrite Nat.sub_diag. done.
Qed.

(* ================================================================== *)
(** ** The re-scan of the pending predicates *)

(** C1 fails on the program. With two pending events whose predicates
    both hold, the scan checks the first, schedules it and removes it;
    the second has moved to the index the iterator has already passed,
    so the scan ends without checking it, and it stays pending although
    its predicate holds. *)
Theorem check_predicates_skips_the_entry_after_a_removal :
  let r := check_predicates always_true two_pending in
  fst r = inr [gated_event 1 "DOCK"] /\
  predicates (snd r) = [gated_event 2 "REFUEL"] /\
  events (future (snd r)) = [(5%Q, set_time 5%Q (gated_event 1 "DOCK"))] /\
  always_true 0%nat (gated_event 2 "REFUEL") (snd r) = true.
Proof. vm_compute. done. Qed.

(* ================================================================== *)
(** ** The vehicle update of the activity task *)

(** C2 fails on the program. The task sets [vehicle.activity] to the
    resolved activity, but it takes one unit off [propload] whatever the
    activity declares: the activity below declares a change of 5, and the
    vehicle goes from 20 to 19. *)
Theorem activity_handler_decrements_propload_by_one :
  let s := snd (activity_handler no_hook (constant 0%Q) "Burn" sample_event
                  0%nat tug_ready) in
  activity_resource_change burn !! "propload" = Some 5 /\
  propload <$> vehicles tug_ready !! 0%nat = Some 20 /\
  activity <$> vehicles s !! 0%nat = Some (Some burn) /\
  propload <$> vehicles s !! 0%nat = Some 19.
Proof. vm_compute. done. Qed.

(* ================================================================== *)
(** ** Frame properties of the engine *)

Section Frame.

Context {A : Type} (f : Simulator -> A).

Lemma preserves_ret {B} (b : B) : preserves f (ret b).
Proof. by intros s. Qed.

Lemma preserves_raise {B} (e : Exception) : preserves f (@raise B e).
Proof. by intros s. Qed.

Lemma preserves_lift {B} (r : Result B) : preserves f (lift r).
Proof. by intros s. Qed.

Lemma preserves_gets {B} (g : Simulator -> B) : preserves f (gets g).
Proof. by intros s. Qed.

Lemma preserves_modify (g : Simulator -> Simulator) :
  (forall s, f (g s) = f s) -> preserves f (modify g).
Proof. intros Hg s. apply Hg. Qed.

Lemma preserves_bind {B C} (m : M B) (k : B -> M C) :
  preserves f m -> (forall b, preserves f (k b)) -> preserves f (bind m k).
Proof.
  intros Hm Hk s. unfold bind. specialize (Hm s).
  destruct (m s) as [[e|b] s1]; simpl in *; [done|].
  by rewrite Hk.
Qed.

Lemma preserves_deref vid : preserves f (deref vid).
Proof. intros s. unfold deref. by destruct (vehicles s !! vid). Qed.

End Frame.

(** Proves [preserves f m] for straight-line monadic code, given how [f]
    sees the setters that [m] uses. *)
Ltac frame :=
  repeat first
    [ apply preserves_ret | apply preserves_raise | apply preserves_lift
    | apply preserves_gets | apply preserves_deref
    | apply preserves_bind; [|intros ?]
    | apply preserves_modify; intros ?; auto; fail
    | match goal with
      | |- preserves _ (match ?x with _ => _ end) => destruct x
      end ].

(* ================================================================== *)
(** ** Running monadic code symbolically *)

Lemma wp_bind {A B : Type} (m : M A) (k : A -> M B) s Q :
  wp m s (fun r s' =>
            match r with
            | inr a => wp (k a) s' Q
            | inl e => Q (inl e) s'
            end) ->
  wp (bind m k) s Q.
Proof. unfold wp, bind. by destruct (m s) as [[e|a] s']. Qed.

Lemma wp_use {A : Type} (m : M A) s r s' Q :
  m s = (r, s') -> wp m s Q -> Q r s'.
Proof. unfold wp. by intros ->. Qed.

Lemma wp_returns {A : Type} (m : M A) s a (P : Simulator -> Prop) :
  wp m s (fun r s' => r = inr a /\ P s') ->
  exists s', m s = (inr a, s') /\ P s'.
Proof.
  unfold wp. destruct (m s) as [r s']. simpl. intros [-> HP]. eauto.
Qed.

Lemma wp_mono {A : Type} (m : M A) s (Q Q' : Result A -> Simulator -> Prop) :
  wp m s Q -> (forall r s', Q r s' -> Q' r s') -> wp m s Q'.
Proof. unfold wp. auto. Qed.

Lemma wp_ret {A : Type} (a : A) s Q : Q (inr a) s -> wp (ret a) s Q.
Proof. done. Qed.
Lemma wp_raise {A : Type} e s Q : Q (inl e) s -> wp (@raise A e) s Q.
Proof. done. Qed.
Lemma wp_lift {A : Type} (r : Result A) s Q : Q r s -> wp (lift r) s Q.
Proof. done. Qed.
Lemma wp_gets {A : Type} (g : Simulator -> A) s Q :
  Q (inr (g s)) s -> wp (gets g) s Q.
Proof. done. Qed.
Lemma wp_modify g s Q : Q (inr tt) (g s) -> wp (modify g) s Q.
Proof. done. Qed.
Lemma wp_deref vid s v Q :
  vehicles s !! vid = Some v -> Q (inr v) s -> wp (deref vid) s Q.
Proof. unfold wp, deref. by intros ->. Qed.
Lemma wp_alloc_vehicle v s Q :
  Q (inr (length (vehicles s))) (set_vehicles (vehicles s ++ [v]) s) ->
  wp (alloc_vehicle v) s Q.
Proof. done. Qed.
Lemma wp_new_event cls name template time predicate s Q :
  Q (inr (mkSimEvent (next_id s) cls name template time predicate))
    (set_next_id (S (next_id s)) s) ->
  wp (new_event cls name template time predicate) s Q.
Proof. done. Qed.
Lemma wp_random_random random s Q :
  Q (inr (random (draws s))) (set_draws (S (draws s)) s) ->
  wp (random_random random) s Q.
Proof. done. Qed.
Lemma wp_schedule e t s Q :
  se_time e = Some t ->
  Q (inr tt) (set_future (heappush (future s) t e) s) ->
  wp (schedule e) s Q.
Proof. unfold wp, schedule. by intros ->. Qed.

(** One statement of straight-line code. *)
Ltac wp_step :=
  lazymatch goal with
  | |- wp (bind _ _) _ _ => apply wp_bind
  | |- wp (ret _) _ _ => apply wp_ret
  | |- wp (raise _) _ _ => apply wp_raise
  | |- wp (gets _) _ _ => apply wp_gets
  | |- wp (modify _) _ _ => apply wp_modify
  | |- wp (lift _) _ _ => apply wp_lift
  | |- wp (new_event _ _ _ _ _) _ _ => apply wp_new_event
  | |- wp (alloc_vehicle _) _ _ => apply wp_alloc_vehicle
  | |- wp (random_random _) _ _ => apply wp_random_random
  | |- wp (modify_vehicle _ _) _ _ => apply wp_modify
  | |- wp (log_failure _ _ _) _ _ => apply wp_modify
  | |- wp (add_activity _ _ _) _ _ => apply wp_modify
  | |- wp (put_nowait _) _ _ => apply wp_modify
  | |- wp cancel_tasks _ _ => apply wp_modify
  end; cbv beta iota.

Section EngineFacts.

Variable check : Predicate -> SimEvent -> Simulator -> bool.
Variable handle_failure : Vehicle -> Vehicle.
Variable random : nat -> Q.

Section FrameOfOperations.

Context {A : Type} (f : Simulator -> A).

Lemma preserves_schedule e :
  (forall x s, f (set_future x s) = f s) -> preserves f (schedule e).
Proof. intros H s. unfold schedule. destruct (se_time e); simpl; auto. Qed.

Lemma preserves_new_event cls name template time predicate :
  (forall x s, f (set_next_id x s) = f s) ->
  preserves f (new_event cls name template time predicate).
Proof. intros H s. apply H. Qed.

Lemma preserves_random_random :
  (forall x s, f (set_draws x s) = f s) -> preserves f (random_random random).
Proof. intros H s. apply H. Qed.

Lemma preserves_scan_predicates fuel i :
  (forall x s, f (set_future x s) = f s) ->
  (forall x s, f (set_predicates x s) = f s) ->
  preserves f (scan_predicates check fuel i).
Proof.
  intros Hfut Hpred. revert i.
  induction fuel as [|fuel IH]; intros i; simpl; [apply preserves_ret|].
  frame; auto using preserves_schedule.
Qed.

Lemma preserves_check_predicates :
  (forall x s, f (set_future x s) = f s) ->
  (forall x s, f (set_predicates x s) = f s) ->
  preserves f (check_predicates check).
Proof.
  intros Hfut Hpred. unfold check_predicates.
  frame. by apply preserves_scan_predicates.
Qed.

Lemma preserves_dispatch e :
  (forall x s, f (set_future x s) = f s) ->
  (forall x s, f (set_predicates x s) = f s) ->
  (forall x s, f (set_tasks x s) = f s) ->
  preserves f (dispatch check e).
Proof.
  intros Hfut Hpred Htasks. unfold dispatch, cancel_tasks.
  frame; auto using preserves_scan_predicates, preserves_schedule.
Qed.

Lemma preserves_activity_handler name start vid :
  (forall x s, f (set_failures x s) = f s) ->
  (forall x s, f (set_vehicles x s) = f s) ->
  (forall x s, f (set_next_id x s) = f s) ->
  (forall x s, f (set_draws x s) = f s) ->
  (forall x s, f (set_tasks x s) = f s) ->
  (forall x s, f (set_queue_future x s) = f s) ->
  preserves f (activity_handler handle_failure random name start vid).
Proof.
  intros Hfail Hveh Hid Hdraws Htasks Hqueue.
  unfold activity_handler, log_failure, modify_vehicle, add_activity,
    put_nowait.
  frame; auto using preserves_new_event, preserves_random_random.
Qed.

End FrameOfOperations.

Lemma preserves_run_eq {A B : Type} (f : Simulator -> A) (m : M B) s r s' :
  preserves f m -> m s = (r, s') -> f s' = f s.
Proof. intros Hp Hm. specialize (Hp s). by rewrite Hm in Hp. Qed.

(** What the activity task does not touch. *)
Lemma activity_handler_frame name start vid s r s' :
  activity_handler handle_failure random name start vid s = (r, s') ->
  success s' = success s /\ future s' = future s /\
  predicates s' = predicates s /\ clock s' = clock s /\
  entities s' = entities s.
Proof.
  intros H.
  repeat split;
    (eapply preserves_run_eq; [|exact H];
     by apply preserves_activity_handler).
Qed.

(** What the classification and the re-scan do not touch. *)
Lemma dispatch_frame e s r s' :
  dispatch check e s = (r, s') ->
  success s' = success s /\ clock s' = clock s /\
  failures s' = failures s /\ vehicles s' = vehicles s /\
  queue_future s' = queue_future s /\ next_id s' = next_id s /\
  draws s' = draws s /\ entities s' = entities s.
Proof.
  intros H.
  repeat split;
    (eapply preserves_run_eq; [|exact H]; by apply preserves_dispatch).
Qed.

(* ------------------------------------------------------------------ *)
(** ** Reception of a [FailureEvent] *)


Lemma dispatch_FailureEvent e s :
  se_class e = FailureEvent ->
  dispatch check e s = (inr Return, set_tasks (map cancel (tasks s)) s).
Proof. intros H. unfold dispatch. by rewrite H. Qed.




(* ------------------------------------------------------------------ *)
(** ** The activity task, branch by branch *)

Lemma trial_fails_certain (trial p_fail : Q) :
  (p_fail == 1)%Q -> (0 < trial)%Q -> trial_fails trial p_fail = true.
Proof.
  intros Hp Hu. unfold trial_fails.
  destruct (Qle_bool trial (1 - p_fail)) eqn:E; [|done].
  apply Qle_bool_iff in E. rewrite Hp in E.
  exfalso. apply (Qlt_not_le _ _ Hu). exact E.
Qed.

Lemma trial_fails_never (trial p_fail : Q) :
  (p_fail == 0)%Q -> (trial <= 1)%Q -> trial_fails trial p_fail = false.
Proof.
  intros Hp Hu. unfold trial_fails.
  assert (Qle_bool trial (1 - p_fail) = true) as ->; [|done].
  apply Qle_bool_iff. rewrite Hp. exact Hu.
Qed.

(** The trial fails and the failure end is the Failure terminal: one
    row is logged at the current clock and a [FailureEvent] goes to the
    driver. *)
Lemma activity_handler_fails name start vid s v ca :
  vehicles s !! vid = Some v ->
  after (conops v) start = inr ca ->
  trial_fails (random (draws s)) (activity_p_fail ca) = true ->
  ev_kind (activity_failure ca) = FailureK ->
  exists s',
    activity_handler handle_failure random name start vid s = (inr tt, s') /\
    failures s' = failures s ++ [(clock s, v_name v, activity_name ca)] /\
    queue_future s' =
      queue_future s ++
      [mkSimEvent (next_id s) FailureEvent (ev_name (activity_failure ca))
         (activity_failure ca) (Some (clock s)) None].
Proof.
  intros Hv Ha Htrial Hkind. apply wp_returns.
  unfold activity_handler.
  wp_step. eapply wp_deref; [done|].
  do 2 wp_step. rewrite Ha. do 3 wp_step. rewrite Htrial.
  repeat wp_step. rewrite Hkind. repeat wp_step. done.
Qed.

(* ------------------------------------------------------------------ *)
(** ** A first activity that is certain to fail *)

(** C3 (as the program has it). One vehicle, handed to a fresh simulator
    at [start_time]; the activity that its first task resolves has
    [p_fail = 1] and the Failure terminal as its failure end.  For every
    positive draw the run ends on the failure: [success] stays false and
    the failure log holds exactly one row, at [start_time]. *)
Theorem first_activity_certain_to_fail :
  forall (fuel : nat) (start_time : Q) (vehicle : Vehicle)
         (a0 a : AnyActivity),
    first (conops vehicle) = inr a0 ->
    sequence (conops vehicle) !! ev_name (activity_start a0) = Some a ->
    (activity_p_fail a == 1)%Q ->
    ev_kind (activity_failure a) = FailureK ->
    (0 < random 0)%Q ->
    exists s,
      run check handle_failure random (S fuel) [(start_time, vehicle)]
        Simulator_default = Failed s /\
      success s = false /\
      failures s = [(start_time, v_name vehicle, activity_name a)].
Proof.
  intros fuel start_time vehicle a0 a Hfirst Ha Hp Hkind Hu.
  unfold run, add_vehicles, add_vehicle.
  unfold bind at 1. unfold bind at 1. unfold alloc_vehicle at 1.
  unfold bind at 1. unfold modify at 1.
  unfold bind at 1. unfold lift at 1. rewrite Hfirst.
  unfold bind, new_event, schedule, add_activity, modify, ret. simpl.
  match goal with
  | |- context [activity_handler _ _ ?n ?st ?vid ?s0] =>
      destruct (activity_handler_fails n st vid s0 vehicle a)
        as (s1 & Hrun & Hfail & Hq)
  end.
  { reflexivity. }
  { unfold after, name_of, SimEvent_Named. simpl. by rewrite Ha. }
  { by apply trial_fails_certain. }
  { exact Hkind. }
  rewrite Hrun. simpl. simpl in Hq. rewrite Hq.
  rewrite dispatch_FailureEvent by done.
  eexists. split; [reflexivity|]. simpl.
  apply activity_handler_frame in Hrun as (Hs & _).
  split; [exact Hs|]. exact Hfail.
Qed.

(* ------------------------------------------------------------------ *)
(** ** The re-scan, round by round *)

(** One round of the scan at index [i]. *)
Lemma scan_predicates_round fuel i s :
  scan_predicates check (S fuel) i s =
  match predicates s !! i with
  | None => (inr [], s)
  | Some p =>
      match se_predicate p with
      | None => (inl (AttributeError "check"), s)
      | Some c =>
          let s1 :=
            if check c p s then
              set_predicates (remove_event p (predicates s))
                (set_future
                   (heappush (future s) (clock s) (set_time (clock s) p)) s)
            else s in
          match scan_predicates check fuel (S i) s1 with
          | (inr rest, s') => (inr (p :: rest), s')
          | (inl e, s') => (inl e, s')
          end
      end
  end.
Proof.
  simpl. unfold bind at 1. unfold gets at 1.
  destruct (predicates s !! i) as [p|]; [|done].
  unfold bind at 1. destruct (se_predicate p) as [c|]; [|done].
  unfold ret at 1. unfold bind at 1. unfold gets at 1.
  destruct (check c p s); simpl; unfold bind, ret, gets, schedule, modify;
    simpl; reflexivity.
Qed.

Lemma remove_event_subseteq p l x : x ∈ remove_event p l -> x ∈ l.
Proof.
  induction l as [|y l IH]; simpl; [done|].
  destruct (se_id y =? se_id p)%nat.
  - intros H. by apply elem_of_cons; right.
  - intros [->|H]%elem_of_cons; apply elem_of_cons; auto.
Qed.

Lemma remove_event_length p l : (length (remove_event p l) <= length l)%nat.
Proof.
  induction l as [|y l IH]; simpl; [done|].
  destruct (se_id y =? se_id p)%nat; simpl; lia.
Qed.

(** The bound that [check_predicates] gives the scan is never what ends
    it: with that many rounds or more, the scan stops because the index
    has left the list. *)
Lemma scan_predicates_fuel fuel fuel' i s :
  (length (predicates s) <= i + fuel)%nat -> (fuel <= fuel')%nat ->
  scan_predicates check fuel' i s = scan_predicates check fuel i s.
Proof.
  revert fuel' i s. induction fuel as [|fuel IH]; intros fuel' i s Hlen Hle.
  - destruct fuel' as [|fuel']; [done|]. rewrite scan_predicates_round.
    rewrite lookup_ge_None_2 by lia. done.
  - destruct fuel' as [|fuel']; [lia|]. rewrite !scan_predicates_round.
    destruct (predicates s !! i) as [p|]; [|done].
    destruct (se_predicate p) as [c|]; [|done].
    cbv zeta. rewrite (IH fuel'); [done| |lia].
    destruct (check c p s); simpl; [|lia].
    pose proof (remove_event_length p (predicates s)). lia.
Qed.





(** What the task of a predicate-gated activity hands to the driver. *)
Lemma activity_handler_gated name start vid s v pa s' :
  vehicles s !! vid = Some v ->
  after (conops v) start = inr (Gated pa) ->
  activity_handler handle_failure random name start vid s = (inr tt, s') ->
  exists e,
    queue_future s' = queue_future s ++ [e] /\
    (se_class e = FailureEvent \/
     se_class e = ScheduledEvent /\ se_time e = None /\
     se_predicate e = Some (pact_predicate pa)).
Proof.
  intros Hv Ha Hrun.
  refine (wp_use _ _ _ _ (fun r s' => r = inr tt -> _) Hrun _ eq_refl).
  unfold activity_handler.
  wp_step. eapply wp_deref; [done|].
  do 2 wp_step. rewrite Ha. do 3 wp_step.
  destruct (trial_fails _ _); cbv beta iota.
  - repeat wp_step. destruct (ev_kind _); cbv beta iota.
    + wp_step.
      eapply wp_deref; [simpl; rewrite !list_lookup_alter_eq, Hv; done|].
      do 2 wp_step. case_match; [done|].
      repeat wp_step. simpl. intros _. eexists. split; [done|]. by right.
    + repeat wp_step. simpl. intros _. eexists. split; [done|]. by left.
    + by repeat wp_step.
  - repeat wp_step. destruct (ev_kind _); cbv beta iota.
    + wp_step.
      eapply wp_deref; [simpl; rewrite !list_lookup_alter_eq, Hv; done|].
      do 2 wp_step. case_match; [done|].
      repeat wp_step. simpl. intros _. eexists. split; [done|]. by right.
    + repeat wp_step. simpl. intros _. eexists. split; [done|]. by left.
    + by repeat wp_step.
Qed.


(* ------------------------------------------------------------------ *)
(** ** Nominal runs *)

Lemma same_conops_refl l : same_conops l l.
Proof. apply Forall_Forall2_diag. by apply Forall_forall. Qed.

Lemma same_conops_alter (F : Vehicle -> Vehicle) vid l l' :
  (forall v, conops (F v) = conops v) ->
  same_conops l l' -> same_conops l (alter F vid l').
Proof.
  intros HF H. apply Forall2_same_length_lookup. split.
  - rewrite length_alter. by eapply Forall2_length.
  - intros i v v' Hv Hv'.
    destruct (decide (vid = i)) as [->|Hne].
    + rewrite list_lookup_alter_eq in Hv'.
      destruct (l' !! i) as [u|] eqn:Hu; [|done]. simpl in Hv'.
      simplify_eq. rewrite HF.
      exact (Forall2_lookup_lr _ l l' i v u H Hv Hu).
    + rewrite list_lookup_alter_ne in Hv' by done.
      exact (Forall2_lookup_lr _ l l' i v v' H Hv Hv').
Qed.

Lemma same_conops_lookup l l' vid v :
  same_conops l l' -> l !! vid = Some v ->
  exists v', l' !! vid = Some v' /\ conops v' = conops v.
Proof.
  intros H Hv. destruct (Forall2_lookup_l _ _ _ _ _ H Hv) as (v' & ? & ?).
  eauto.
Qed.

Lemma nominal_inv c d k :
  nominal c (S d) k = true ->
  exists a,
    sequence c !! k = Some a /\
    (activity_p_fail a == 0)%Q /\
    match ev_kind (activity_end a) with
    | FailureK => False
    | CompletorK => exists t, a = Timed t
    | Plain =>
        exists next,
          sequence c !! ev_name (activity_end a) = Some next /\
          nominal c d (ev_name (activity_start next)) = true
    end.
Proof.
  simpl. destruct (sequence c !! k) as [a|]; [|done].
  intros [Hp Hk]%andb_prop. exists a. split; [done|].
  split; [by apply Qeq_bool_iff|].
  destruct (ev_kind (activity_end a)); [|done|].
  - destruct (sequence c !! ev_name (activity_end a)) as [next|]; [|done].
    eauto.
  - destruct a; [eauto|done].
Qed.

(** The task of an activity that does not fail: nothing is logged, and
    the driver gets either the completion event, or a successor event,
    named after the start of the activity that the end resolves to, with
    a new task of the same vehicle waiting on it. *)
Lemma activity_handler_succeeds name start vid s v a :
  vehicles s !! vid = Some v ->
  sequence (conops v) !! se_name start = Some a ->
  (activity_p_fail a == 0)%Q ->
  (random (draws s) <= 1)%Q ->
  match ev_kind (activity_end a) with
  | FailureK => False
  | CompletorK => exists t, a = Timed t
  | Plain => is_Some (sequence (conops v) !! ev_name (activity_end a))
  end ->
  exists s' e,
    activity_handler handle_failure random name start vid s = (inr tt, s') /\
    queue_future s' = queue_future s ++ [e] /\
    failures s' = failures s /\
    next_id s' = S (next_id s) /\
    se_id e = next_id s /\
    same_conops (vehicles s) (vehicles s') /\
    (ev_kind (activity_end a) = CompletorK /\
     se_class e = CompletionEvent /\ tasks s' = tasks s \/
     ev_kind (activity_end a) = Plain /\
     se_class e = ScheduledEvent /\
     (exists n, tasks s' = tasks s ++ [mkTask (Handler n e vid) Waiting]) /\
     (exists next,
         sequence (conops v) !! ev_name (activity_end a) = Some next /\
         se_name e = ev_name (activity_start next)) /\
     (se_predicate e = None -> is_Some (se_time e)) /\
     (isinstance_PredicatedActivity a = false -> se_predicate e = None)).
Proof.
  intros Hv Ha Hp Hu Hend.
  cut (wp (activity_handler handle_failure random name start vid) s
         (fun r s' => r = inr tt /\ exists e,
            queue_future s' = queue_future s ++ [e] /\
            failures s' = failures s /\
            next_id s' = S (next_id s) /\
            se_id e = next_id s /\
            same_conops (vehicles s) (vehicles s') /\
            (ev_kind (activity_end a) = CompletorK /\
             se_class e = CompletionEvent /\ tasks s' = tasks s \/
             ev_kind (activity_end a) = Plain /\
             se_class e = ScheduledEvent /\
             (exists n,
                 tasks s' = tasks s ++ [mkTask (Handler n e vid) Waiting]) /\
             (exists next,
                 sequence (conops v) !! ev_name (activity_end a) = Some next /\
                 se_name e = ev_name (activity_start next)) /\
             (se_predicate e = None -> is_Some (se_time e)) /\
             (isinstance_PredicatedActivity a = false ->
              se_predicate e = None)))).
  { intros (s' & Hrun & e & H)%wp_returns. eauto. }
  unfold activity_handler.
  wp_step. eapply wp_deref; [done|].
  do 2 wp_step. unfold after, name_of, SimEvent_Named. rewrite Ha.
  do 3 wp_step. rewrite (trial_fails_never _ _ Hp Hu).
  do 6 wp_step.
  destruct (ev_kind (activity_end a)) eqn:Hkind; cbv beta iota; [| done|].
  - destruct Hend as (next & Hnext).
    wp_step.
    eapply wp_deref; [simpl; rewrite !list_lookup_alter_eq, Hv; done|].
    do 2 wp_step. unfold name_of, Event_Named. simpl. rewrite Hnext.
    destruct a as [t|pa]; repeat wp_step; simpl.
    + split; [done|]. eexists. split_and!; try done.
      * repeat (apply same_conops_alter; [done|]). apply same_conops_refl.
      * right. split_and!; eauto.
    + split; [done|]. eexists. split_and!; try done.
      * repeat (apply same_conops_alter; [done|]). apply same_conops_refl.
      * right. split_and!; eauto; done.
  - destruct Hend as (t & ->). repeat wp_step. simpl.
    split; [done|]. eexists. split_and!; try done.
    + repeat (apply same_conops_alter; [done|]). apply same_conops_refl.
    + by left.
Qed.

(** The task of a nominal activity: the successor event, if there is
    one, is nominal in turn. *)
Lemma activity_handler_nominal name start vid s v d :
  vehicles s !! vid = Some v ->
  nominal (conops v) (S d) (se_name start) = true ->
  (random (draws s) <= 1)%Q ->
  exists s' e,
    activity_handler handle_failure random name start vid s = (inr tt, s') /\
    queue_future s' = queue_future s ++ [e] /\
    failures s' = failures s /\
    next_id s' = S (next_id s) /\
    se_id e = next_id s /\
    same_conops (vehicles s) (vehicles s') /\
    (se_class e = CompletionEvent /\ tasks s' = tasks s \/
     se_class e = ScheduledEvent /\
     (exists n, tasks s' = tasks s ++ [mkTask (Handler n e vid) Waiting]) /\
     nominal (conops v) d (se_name e) = true /\
     (se_predicate e = None -> is_Some (se_time e))).
Proof.
  intros Hv (a & Ha & Hp & Hend)%nominal_inv Hu.
  destruct (activity_handler_succeeds name start vid s v a)
    as (s' & e & Hrun & Hq & Hf & Hn & Hid & Hsame & Hcase); [done..| |].
  { destruct (ev_kind (activity_end a)); [|done..].
    destruct Hend as (next & -> & _). done. }
  exists s', e. split_and!; try done.
  destruct Hcase as [(_ & ? & ?)|(Hkind & Hcls & Htasks & Hnext & Htime & _)];
    [by left|right].
  split_and!; try done. rewrite Hkind in Hend.
  destruct Hnext as (next & Hnext & ->).
  destruct Hend as (next' & Hnext' & Hnom). congruence.
Qed.

(** *** Which task an event wakes *)

Lemma waits_on_finish id t : waits_on id (finish t) = false.
Proof. unfold waits_on, finish. simpl. by destruct (task_body t). Qed.

Lemma waits_on_Driver id w : waits_on id (mkTask Driver w) = false.
Proof. done. Qed.

Lemma waits_on_inv id t :
  waits_on id t = true ->
  exists name start vid,
    t = mkTask (Handler name start vid) Waiting /\ se_id start = id.
Proof.
  destruct t as [[name start vid|] []]; unfold waits_on; simpl; try done.
  intros H%Nat.eqb_eq. eauto.
Qed.

Lemma find_waiter_Some id l i t :
  find_waiter id l = Some (i, t) <->
  l !! i = Some t /\ waits_on id t = true /\
  forall j y, l !! j = Some y -> (j < i)%nat -> waits_on id y <> true.
Proof. unfold find_waiter. by rewrite list_find_Some. Qed.

(** Started after the tasks in [l], a task is not the one an event
    wakes if an earlier one waits on it. *)
Lemma find_waiter_app id l l' i t :
  find_waiter id l = Some (i, t) -> find_waiter id (l ++ l') = Some (i, t).
Proof. unfold find_waiter. apply list_find_app_l. Qed.

(** A task that has finished is of no consequence for the events that
    it did not wait on. *)
Lemma find_waiter_finish id l i j t u :
  find_waiter id l = Some (i, t) ->
  l !! j = Some u -> waits_on id u = false ->
  find_waiter id (alter finish j l) = Some (i, t).
Proof.
  intros (Hi & Ht & Hfirst)%find_waiter_Some Hj Hu.
  assert (j <> i) as Hne by (intros ->; simplify_eq; congruence).
  apply find_waiter_Some. split_and!; [|done|].
  - by rewrite list_lookup_alter_ne.
  - intros k y Hk Hlt. destruct (decide (j = k)) as [->|Hjk].
    + rewrite list_lookup_alter_eq, Hj in Hk. simpl in Hk. simplify_eq.
      by rewrite waits_on_finish.
    + rewrite list_lookup_alter_ne in Hk by done. by eapply Hfirst.
Qed.

(** An event that no earlier task waits on wakes the task that was
    created for it. *)
Lemma find_waiter_new id l name start vid :
  Forall (fun t => waits_on id t = false) l ->
  se_id start = id ->
  find_waiter id (l ++ [mkTask (Handler name start vid) Waiting])
  = Some (length l, mkTask (Handler name start vid) Waiting).
Proof.
  intros Hl Hid. apply find_waiter_Some. split_and!.
  - by rewrite lookup_app_r, Nat.sub_diag.
  - unfold waits_on. simpl. by apply Nat.eqb_eq.
  - intros j y Hj Hlt. rewrite lookup_app_l in Hj by done.
    rewrite Forall_lookup in Hl. by rewrite (Hl _ _ Hj).
Qed.

Lemma task_known_not_waiting next id t :
  task_known next t -> (next <= id)%nat -> waits_on id t = false.
Proof.
  unfold task_known, waits_on. destruct (task_body t); [|done].
  destruct (task_status t); try done.
  intros H1 H2. apply Nat.eqb_neq. lia.
Qed.

Lemma task_known_finish next l i :
  Forall (task_known next) l -> Forall (task_known next) (alter finish i l).
Proof.
  intros H. apply Forall_lookup. intros j t Hj.
  rewrite Forall_lookup in H.
  destruct (decide (i = j)) as [->|Hne].
  - rewrite list_lookup_alter_eq in Hj.
    destruct (l !! j) as [u|] eqn:Hu; [|done]. simpl in Hj. simplify_eq.
    by apply (H j u).
  - rewrite list_lookup_alter_ne in Hj by done. by apply (H j t).
Qed.

Lemma task_known_mono next next' t :
  (next <= next')%nat -> task_known next t -> task_known next' t.
Proof. unfold task_known. destruct (task_body t); [lia|done]. Qed.

(** *** The pending events across the re-scan *)

Lemma remove_event_delete l i p :
  NoDup (se_id <$> l) -> l !! i = Some p -> remove_event p l = delete i l.
Proof.
  revert i. induction l as [|x l IH]; intros i Hnd Hi; [done|].
  rewrite fmap_cons in Hnd. apply NoDup_cons in Hnd as [Hx Hnd].
  destruct i as [|i]; simpl in *.
  - simplify_eq. by rewrite Nat.eqb_refl.
  - destruct (se_id x =? se_id p)%nat eqn:E.
    + apply Nat.eqb_eq in E. exfalso. apply Hx. rewrite E.
      apply list_elem_of_fmap. exists p. split; [done|].
      by eapply list_elem_of_lookup_2.
    + f_equal. by apply IH.
Qed.

Lemma scan_predicates_nominal fuel i s :
  Forall gated (predicates s) ->
  NoDup (se_id <$> predicates s) ->
  exists checked s',
    scan_predicates check fuel i s = (inr checked, s') /\
    idents s' ≡ₚ idents s /\
    Forall gated (predicates s').
Proof.
  revert i s. induction fuel as [|fuel IH]; intros i s Hg Hnd.
  { exists [], s. done. }
  rewrite scan_predicates_round.
  destruct (predicates s !! i) as [p|] eqn:Hp; [|by exists [], s].
  assert (gated p) as [c Hc].
  { rewrite Forall_lookup in Hg. by eapply Hg. }
  rewrite Hc. cbv zeta. destruct (check c p s).
  - rewrite (remove_event_delete _ i) by done.
    edestruct (IH (S i)) as (checked & s' & -> & Hperm & Hg'); simpl.
    + by apply Forall_delete.
    + eapply sublist_NoDup; [exact Hnd|].
      apply fmap_sublist, sublist_delete.
    + exists (p :: checked), s'. split_and!; [done| |done].
      rewrite Hperm. unfold idents, pending_events. simpl.
      rewrite !fmap_app. simpl. rewrite <- !app_assoc. simpl.
      apply Permutation_app_head.
      rewrite (delete_Permutation _ _ _ Hp) at 2. done.
  - edestruct (IH (S i) s) as (checked & s' & -> & Hperm & Hg'); [done..|].
    exists (p :: checked), s'. done.
Qed.

(** *** The invariant of a nominal run *)

Lemma sum_list_with_agree {A} (f g : A -> nat) (l : list A) :
  Forall (fun x => f x = g x) l -> sum_list_with f l = sum_list_with g l.
Proof. induction 1 as [|x l Hx _ IH]; simpl; [done|]. by rewrite Hx, IH. Qed.

Lemma idents_predicates_NoDup s :
  NoDup (idents s).*1 -> NoDup (se_id <$> predicates s).
Proof.
  unfold idents, pending_events. rewrite !fmap_app.
  intros (_ & _ & H)%NoDup_app. rewrite <- list_fmap_compose in H.
  exact H.
Qed.

(** The re-scan keeps the invariant and the budget. *)
Lemma check_predicates_nominal b s :
  nominal_state b s ->
  exists checked s',
    check_predicates check s = (inr checked, s') /\
    nominal_state b s' /\ budget b s' = budget b s.
Proof.
  intros [Hf Hq Hg Hnd Hfresh Htasks Hw].
  unfold check_predicates, bind, gets.
  destruct (scan_predicates_nominal (length (predicates s)) 0 s Hg)
    as (checked & s' & Hscan & Hperm & Hg').
  { by apply idents_predicates_NoDup. }
  exists checked, s'. split; [done|].
  assert (failures s' = failures s /\ queue_future s' = queue_future s /\
          next_id s' = next_id s /\ tasks s' = tasks s /\
          vehicles s' = vehicles s) as (Ef & Eq & En & Et & Ev).
  { split_and!;
      (eapply preserves_run_eq; [|exact Hscan];
       by apply preserves_scan_predicates). }
  split.
  - constructor; [congruence|congruence|done|..].
    + by rewrite Hperm.
    + rewrite Hperm, En. done.
    + by rewrite En, Et.
    + rewrite Hperm. eapply Forall_impl; [exact Hw|].
      intros x (i & name & start & vid & w & v & H1 & H2 & H3 & H4).
      exists i, name, start, vid, w, v. by rewrite Et, Ev.
  - unfold budget. by rewrite Hperm.
Qed.

Lemma dispatch_nominal b e s :
  se_class e <> FailureEvent ->
  (se_class e = ScheduledEvent -> se_predicate e = None ->
   is_Some (se_time e)) ->
  nominal_state b (classify e s) ->
  exists s',
    dispatch check e s = (inr Next, s') /\
    nominal_state b s' /\ budget b s' = budget b (classify e s).
Proof.
  intros Hcls Htime Hns.
  destruct (check_predicates_nominal _ _ Hns)
    as (checked & s' & Hscan & Hns' & Hb).
  exists s'. split; [|done].
  unfold dispatch, classify in *. destruct (se_class e); [| done |].
  - destruct (se_predicate e) as [c|].
    + unfold bind at 1. unfold modify at 1. unfold bind at 1.
      by rewrite Hscan.
    + destruct Htime as [t Ht]; [done..|]. rewrite Ht in Hscan.
      unfold bind at 1. unfold schedule at 1. rewrite Ht.
      unfold bind at 1. by rewrite Hscan.
  - unfold bind at 1. destruct (se_predicate e), (se_time e);
      by rewrite Hscan.
Qed.

(** A pending event other than the one that has just fired still wakes
    its task, and the vehicle of that task has kept its ConOps. *)
Lemma waiter_ok_advance b b' s s' x i tk extra y :
  waiter_ok b s y ->
  y.1 <> x ->
  b' y.1 = b y.1 ->
  find_waiter x (tasks s) = Some (i, tk) ->
  tasks s' = alter finish i (tasks s) ++ extra ->
  same_conops (vehicles s) (vehicles s') ->
  waiter_ok b' s' y.
Proof.
  intros (i2 & name & start & vid & w & v & Hfind & Hname & Hv & Hnom)
    Hne Hb Hx Ht Hsame.
  apply find_waiter_Some in Hx as (Hi & Hw & _).
  apply waits_on_inv in Hw as (n0 & st0 & vid0 & -> & Hid).
  destruct (same_conops_lookup _ _ _ _ Hsame Hv) as (v' & Hv' & Hc).
  exists i2, name, start, vid, w, v'. split_and!; [|done|done|].
  - rewrite Ht. apply find_waiter_app.
    eapply find_waiter_finish; [done|exact Hi|].
    unfold waits_on. simpl. apply Nat.eqb_neq. congruence.
  - by rewrite Hc, Hb.
Qed.

(** One round of the driver, seen from the invariant: the event [x] has
    fired, its task has finished and has left at most one new pending
    event, whose identity is the next free one. *)
Lemma nominal_state_advance b s s' x others new i tk extra d :
  nominal_state b s ->
  idents s ≡ₚ x :: others ->
  find_waiter x.1 (tasks s) = Some (i, tk) ->
  tasks s' = alter finish i (tasks s) ++ extra ->
  Forall (task_known (S (next_id s))) extra ->
  same_conops (vehicles s) (vehicles s') ->
  next_id s' = S (next_id s) ->
  failures s' = [] -> queue_future s' = [] ->
  Forall gated (predicates s') ->
  idents s' ≡ₚ others ++ new ->
  NoDup new.*1 ->
  Forall (fun y => y.1 = next_id s) new ->
  Forall (waiter_ok (rebound b (next_id s) d) s') new ->
  nominal_state (rebound b (next_id s) d) s' /\
  (budget (rebound b (next_id s) d) s' + b x.1 =
     budget b s + sum_list_with (fun _ => d) new)%nat.
Proof.
  intros [Hf Hq Hg Hnd Hfresh Htasks Hw] Hperm Hfind Ht Hextra Hsame Hnext
    Hf' Hq' Hg' Hperm' Hndnew Hidnew Hwnew.
  rewrite Hperm in Hnd, Hfresh, Hw.
  rewrite fmap_cons in Hnd. apply NoDup_cons in Hnd as [Hx Hnd].
  apply Forall_cons in Hfresh as [Hxfresh Hfresh].
  apply Forall_cons in Hw as [Hwx Hw].
  assert (Forall (fun y => y.1 <> x.1 /\ (y.1 < next_id s)%nat) others)
    as Hothers.
  { apply Forall_forall. intros y Hy. split.
    - intros E. apply Hx. rewrite <- E. by apply list_elem_of_fmap_2.
    - rewrite Forall_forall in Hfresh. by apply Hfresh. }
  assert (Forall (fun y => rebound b (next_id s) d y.1 = b y.1) others)
    as Hb.
  { eapply Forall_impl; [exact Hothers|]. intros y [_ Hlt].
    unfold rebound. case_decide; [lia|done]. }
  split.
  - constructor; [done|done|done|..].
    + rewrite Hperm', fmap_app. apply NoDup_app. split_and!; [done| |done].
      intros k Hk Hk'.
      apply list_elem_of_fmap in Hk as (y & -> & Hy).
      apply list_elem_of_fmap in Hk' as (z & E & Hz).
      rewrite Forall_forall in Hothers, Hidnew.
      destruct (Hothers y Hy) as [_ Hlt]. specialize (Hidnew z Hz). lia.
    + rewrite Hperm', Hnext. apply Forall_app. split.
      * eapply Forall_impl; [exact Hothers|]. simpl. intros y [_ ?]. lia.
      * eapply Forall_impl; [exact Hidnew|]. simpl. intros y ->. lia.
    + rewrite Hnext, Ht. apply Forall_app. split; [|done].
      apply task_known_finish.
      eapply Forall_impl; [exact Htasks|].
      intros t. apply task_known_mono. lia.
    + rewrite Hperm'. apply Forall_app. split; [|done].
      apply Forall_forall. intros y Hy.
      rewrite Forall_forall in Hw, Hothers, Hb.
      destruct (Hothers y Hy) as [Hne _].
      eapply waiter_ok_advance; eauto.
  - unfold budget. rewrite Hperm', Hperm, sum_list_with_app. simpl.
    rewrite (sum_list_with_agree _ _ _ Hb).
    rewrite (sum_list_with_agree
               (fun x0 => rebound b (next_id s) d x0.1) (fun _ => d) new).
    + lia.
    + eapply Forall_impl; [exact Hidnew|]. simpl. intros y ->.
      unfold rebound. by rewrite decide_True.
Qed.

Lemma idents_fields s :
  idents s =
  (ident ∘ snd <$> events (future s)) ++ (ident <$> predicates s).
Proof.
  unfold idents, pending_events. by rewrite fmap_app, <- list_fmap_compose.
Qed.

Lemma heappop_idents s t e rest :
  heappop (future s) = Some ((t, e), rest) ->
  idents s ≡ₚ ident e :: idents (set_future rest s).
Proof.
  unfold heappop. destruct (pop_min _) as [[x r]|] eqn:Hp; [|done].
  intros [= -> <-]. apply pop_min_perm in Hp.
  rewrite !idents_fields. simpl. by rewrite Hp.
Qed.

(** The new pending event wakes the task that was created with it. *)
Lemma waiter_ok_new b s s' i n e vid v d :
  Forall (task_known (next_id s)) (tasks s) ->
  tasks s' = alter finish i (tasks s) ++ [mkTask (Handler n e vid) Waiting] ->
  se_id e = next_id s ->
  same_conops (vehicles s) (vehicles s') ->
  vehicles s !! vid = Some v ->
  nominal (conops v) d (se_name e) = true ->
  waiter_ok (rebound b (next_id s) d) s' (ident e).
Proof.
  intros Htasks Ht Hid Hsame Hv Hnom.
  destruct (same_conops_lookup _ _ _ _ Hsame Hv) as (v' & Hv' & Hc).
  exists (length (alter finish i (tasks s))), n, e, vid, Waiting, v'.
  simpl. split_and!; [|done|done|].
  - rewrite Ht, Hid. apply find_waiter_new; [|done].
    eapply Forall_impl; [by apply task_known_finish|].
    intros u Hu. by eapply task_known_not_waiting.
  - rewrite Hc, Hid. unfold rebound. by rewrite decide_True.
Qed.

Lemma classify_frame e s :
  tasks (classify e s) = tasks s /\ vehicles (classify e s) = vehicles s /\
  next_id (classify e s) = next_id s /\
  failures (classify e s) = failures s /\
  queue_future (classify e s) = queue_future s.
Proof.
  unfold classify.
  by destruct (se_class e), (se_predicate e), (se_time e).
Qed.

Lemma classify_CompletionEvent e s :
  se_class e = CompletionEvent -> classify e s = s.
Proof. unfold classify. by intros ->. Qed.

(** A successor event becomes pending, on the event list or among the
    predicates. *)
Lemma classify_ScheduledEvent e s :
  se_class e = ScheduledEvent ->
  (se_predicate e = None -> is_Some (se_time e)) ->
  idents (classify e s) ≡ₚ idents s ++ [ident e] /\
  (Forall gated (predicates s) -> Forall gated (predicates (classify e s))).
Proof.
  intros Hcls Htime. unfold classify. rewrite Hcls.
  destruct (se_predicate e) as [c|] eqn:Hc.
  - split.
    + rewrite !idents_fields. simpl. by rewrite fmap_app, <- app_assoc.
    + intros Hg. simpl. apply Forall_app. split; [done|].
      apply Forall_singleton. by exists c.
  - destruct Htime as [t Ht]; [done|]. rewrite Ht. split; [|done].
    rewrite !idents_fields. simpl. rewrite fmap_app. simpl.
    rewrite <- !app_assoc. apply Permutation_app_head. simpl.
    apply Permutation_cons_append.
Qed.

(** One round of the driver from a nominal state: the popped event
    wakes its task, the task returns a result that is no failure, the
    driver goes on to the next round, and the budget has gone down. *)
Lemma process_events_round awaited fuel b s t e rest :
  (forall n, (random n <= 1)%Q) ->
  nominal_state b s ->
  heappop (future s) = Some ((t, e), rest) ->
  exists b' s2,
    process_events check handle_failure random awaited (S fuel) s =
    process_events check handle_failure random awaited fuel s2 /\
    nominal_state b' s2 /\ (budget b' s2 < budget b s)%nat.
Proof.
  intros Hrand Hns Hpop.
  pose proof (heappop_idents _ _ _ _ Hpop) as Hperm.
  assert (waiter_ok b s (ident e)) as Hwx.
  { pose proof (ns_waiter _ _ Hns) as Hw. rewrite Hperm in Hw.
    by apply Forall_cons in Hw as [? _]. }
  destruct Hwx as (i & name & start & vid & w & v & Hfind & Hname & Hv & Hnom).
  simpl in Hfind, Hname, Hnom.
  destruct (b (se_id e)) as [|d] eqn:Hb; [done|].
  set (s0 := set_clock t (set_future rest s)).
  destruct (activity_handler_nominal name start vid s0 v d)
    as (s1 & e' & Hrun & Hqueue & Hfail & Hnext & Hid & Hsame & Hcase);
    [done|by rewrite Hname|apply Hrand|].
  pose proof (activity_handler_frame _ _ _ _ _ _ Hrun) as (_ & Hfut & Hpred & _).
  simpl in Hqueue, Hfail, Hnext, Hid, Hsame, Hfut, Hpred.
  rewrite (ns_queue _ _ Hns) in Hqueue. simpl in Hqueue.
  rewrite (ns_failures _ _ Hns) in Hfail.
  set (sq := set_queue_future [] (finish_task i s1)).
  assert (i < length (tasks s))%nat as Hi.
  { apply find_waiter_Some in Hfind as (Hi & _). by eapply lookup_lt_Some. }
  assert (idents sq = idents (set_future rest s)) as Hsq.
  { rewrite !idents_fields. simpl. by rewrite Hfut, Hpred. }
  destruct (classify_frame e' sq) as (Ct & Cv & Cn & Cf & Cq).
  simpl in Ct, Cv, Cn, Cf, Cq.
  assert (exists new : list (nat * string),
             nominal_state (rebound b (next_id s) d) (classify e' sq) /\
             (budget (rebound b (next_id s) d) (classify e' sq) + S d =
              budget b s + sum_list_with (fun _ => d) new)%nat /\
             (length new <= 1)%nat /\
             se_class e' <> FailureEvent /\
             (se_class e' = ScheduledEvent -> se_predicate e' = None ->
              is_Some (se_time e')))
    as (new & Hns' & Hbud & Hlen & Hcls & Htime).
  { destruct Hcase as [[Hcls Htasks]|(Hcls & [n Htasks] & Hnom' & Htime)].
    - exists []. rewrite <- Hb.
      destruct (nominal_state_advance b s (classify e' sq) (ident e)
                  (idents (set_future rest s)) [] i _ [] d
                  Hns Hperm Hfind) as [Hns' Hbud].
      + by rewrite Ct, Htasks, app_nil_r.
      + constructor.
      + by rewrite Cv.
      + by rewrite Cn.
      + by rewrite Cf.
      + by rewrite Cq.
      + rewrite classify_CompletionEvent by done. simpl. rewrite Hpred.
        by apply (ns_gated _ _ Hns).
      + rewrite classify_CompletionEvent by done.
        by rewrite Hsq, app_nil_r.
      + constructor.
      + constructor.
      + constructor.
      + split_and!; [done|done|simpl; lia|congruence|congruence].
    - assert (Forall (task_known (S (next_id s)))
                [mkTask (Handler n e' vid) Waiting]) as Hknown.
      { apply Forall_singleton. unfold task_known. simpl. lia. }
      assert (tasks (classify e' sq) =
              alter finish i (tasks s) ++
              [mkTask (Handler n e' vid) Waiting]) as Htq.
      { rewrite Ct, Htasks. by apply alter_app_l. }
      destruct (classify_ScheduledEvent e' sq Hcls Htime) as [Hid' Hg'].
      exists [ident e']. rewrite <- Hb.
      destruct (nominal_state_advance b s (classify e' sq) (ident e)
                  (idents (set_future rest s)) [ident e'] i _ _ d
                  Hns Hperm Hfind Htq Hknown) as [Hns' Hbud].
      + by rewrite Cv.
      + by rewrite Cn.
      + by rewrite Cf.
      + by rewrite Cq.
      + apply Hg'. simpl. rewrite Hpred. by apply (ns_gated _ _ Hns).
      + by rewrite Hid', Hsq.
      + apply NoDup_singleton.
      + by apply Forall_singleton.
      + apply Forall_singleton.
        eapply (waiter_ok_new b s _ i n e' vid v d);
          [by apply (ns_tasks _ _ Hns)|exact Htq|done| |done|done].
        by rewrite Cv.
      + split_and!; [done|done|simpl; lia|congruence|done]. }
  destruct (dispatch_nominal _ e' sq Hcls Htime Hns')
    as (s2 & Hd & Hns2 & Hbud2).
  exists (rebound b (next_id s) d), s2. split; [|split; [done|]].
  - simpl. rewrite Hpop. simpl. rewrite Hfind. fold s0. rewrite Hrun.
    simpl. rewrite Hqueue. fold sq. by rewrite Hd.
  - rewrite Hbud2.
    assert (sum_list_with (fun _ : nat * string => d) new <= d)%nat.
    { destruct new as [|y [|z new]]; simpl in *; lia. }
    lia.
Qed.

(** From a nominal state the driver exhausts the event list. *)
Lemma process_events_nominal awaited fuel b s :
  (forall n, (random n <= 1)%Q) ->
  nominal_state b s ->
  (budget b s < fuel)%nat ->
  exists s',
    process_events check handle_failure random awaited fuel s = Completed s' /\
    success s' = true /\ failures s' = [].
Proof.
  intros Hrand. revert b s.
  induction fuel as [|fuel IH]; intros b s Hns Hlt; [lia|].
  destruct (heappop (future s)) as [[[t e] rest]|] eqn:Hpop.
  - destruct (process_events_round awaited fuel b s t e rest)
      as (b' & s2 & Heq & Hns2 & Hlt2); [done..|].
    rewrite Heq. apply (IH b' s2); [done|lia].
  - simpl. rewrite Hpop. eexists. split; [done|]. simpl.
    split; [done|]. by apply (ns_failures _ _ Hns).
Qed.

(** *** The state that [run] starts the driver in *)

Lemma nominal_state_default depth :
  nominal_state (fun _ => depth) Simulator_default.
Proof. constructor; try done; simpl; constructor. Qed.

Lemma add_vehicle_nominal depth v t s :
  nominal_mission depth v = true ->
  nominal_state (fun _ => depth) s ->
  exists s',
    add_vehicle v t s = (inr tt, s') /\
    nominal_state (fun _ => depth) s' /\
    length (idents s') = S (length (idents s)).
Proof.
  unfold nominal_mission.
  destruct (sequence (conops v) !! "INIT") as [a|] eqn:Ha; [|done].
  intros Hnom [Hf Hq Hg Hnd Hfresh Htasks Hw].
  cut (wp (add_vehicle v t) s
         (fun r s' => r = inr tt /\
            nominal_state (fun _ => depth) s' /\
            length (idents s') = S (length (idents s)))).
  { intros (s' & Hrun & H)%wp_returns. eauto. }
  unfold add_vehicle. do 5 wp_step. unfold first. rewrite Ha.
  do 4 wp_step. eapply wp_schedule; [done|]. wp_step.
  split; [done|].
  set (INIT := mkSimEvent _ _ _ _ _ _).
  match goal with |- nominal_state _ ?st /\ _ => set (s' := st) end.
  assert (idents s' ≡ₚ idents s ++ [ident INIT]) as Hperm.
  { rewrite !idents_fields. simpl. rewrite fmap_app. simpl.
    rewrite <- !app_assoc. apply Permutation_app_head. simpl.
    apply Permutation_cons_append. }
  split.
  - constructor; [done|done|done|..].
    + rewrite Hperm, fmap_app. simpl. apply NoDup_app.
      split_and!; [done| |apply NoDup_singleton].
      intros k Hk Hk'. apply list_elem_of_singleton in Hk' as ->.
      apply list_elem_of_fmap in Hk as (y & E & Hy).
      rewrite Forall_forall in Hfresh. specialize (Hfresh y Hy). lia.
    + rewrite Hperm. simpl. apply Forall_app. split.
      * eapply Forall_impl; [exact Hfresh|]. simpl. lia.
      * apply Forall_singleton. simpl. lia.
    + simpl. apply Forall_app. split.
      * eapply Forall_impl; [exact Htasks|].
        intros u. apply task_known_mono. lia.
      * apply Forall_singleton. unfold task_known. simpl. lia.
    + rewrite Hperm. apply Forall_app. split.
      * eapply Forall_impl; [exact Hw|].
        intros x (i & name & start & vid & w & u & H1 & H2 & H3 & H4).
        exists i, name, start, vid, w, u. simpl. split_and!; [|done| |done].
        -- by apply find_waiter_app.
        -- by apply lookup_app_l_Some.
      * apply Forall_singleton.
        exists (length (tasks s)), (activity_name a), INIT,
          (length (vehicles s)), Waiting, v.
        simpl. split_and!; [|done| |done].
        -- apply find_waiter_new; [|done].
           eapply Forall_impl; [exact Htasks|].
           intros u Hu. by eapply task_known_not_waiting.
        -- by rewrite lookup_app_r, Nat.sub_diag.
  - apply Permutation_length in Hperm. rewrite Hperm, length_app. simpl. lia.
Qed.

Lemma add_vehicles_nominal depth vs s :
  Forall (fun tv => nominal_mission depth tv.2 = true) vs ->
  nominal_state (fun _ => depth) s ->
  exists s',
    add_vehicles vs s = (inr tt, s') /\
    nominal_state (fun _ => depth) s' /\
    length (idents s') = (length (idents s) + length vs)%nat.
Proof.
  revert s. induction vs as [|[t v] vs IH]; intros s Hvs Hns.
  - exists s. simpl. split_and!; [done|done|lia].
  - apply Forall_cons in Hvs as [Hv Hvs].
    destruct (add_vehicle_nominal depth v t s Hv Hns) as (s1 & H1 & Hns1 & L1).
    destruct (IH s1 Hvs Hns1) as (s2 & H2 & Hns2 & L2).
    exists s2. split_and!; [|done|simpl; lia].
    simpl. unfold bind. by rewrite H1.
Qed.

Lemma nominal_state_driver b s :
  nominal_state b s ->
  nominal_state b (set_tasks (tasks s ++ [mkTask Driver Running]) s).
Proof.
  intros [Hf Hq Hg Hnd Hfresh Htasks Hw]. constructor; try done.
  - simpl. apply Forall_app. split; [done|]. by apply Forall_singleton.
  - change (idents (set_tasks _ s)) with (idents s).
    eapply Forall_impl; [exact Hw|].
    intros x (i & name & start & vid & w & u & H1 & H2 & H3 & H4).
    exists i, name, start, vid, w, u. simpl. split_and!; [|done..].
    by apply find_waiter_app.
Qed.

Lemma budget_constant depth s :
  budget (fun _ => depth) s = (length (idents s) * depth)%nat.
Proof.
  unfold budget. induction (idents s) as [|x l IH]; simpl; [done|].
  by rewrite IH.
Qed.

(** C6 (as the program has it). Vehicles whose missions are nominal
    within [depth] activities (every activity that a task reaches has
    [p_fail = 0], and the ends lead to the Completion terminal), handed
    to a fresh simulator: for every random source with draws in [0,1)
    the run exhausts the event list, within [depth] rounds for each
    vehicle, and ends with [success] set and an empty failure log. *)
Theorem nominal_run_succeeds :
  forall (depth fuel : nat) (initial_vehicles : list (Q * Vehicle)),
    (forall n, (0 <= random n < 1)%Q) ->
    Forall (fun tv => nominal_mission depth tv.2 = true) initial_vehicles ->
    (length initial_vehicles * depth < fuel)%nat ->
    exists s,
      run check handle_failure random fuel initial_vehicles Simulator_default
        = Completed s /\
      success s = true /\ failures s = [].
Proof.
  intros depth fuel vs Hrand Hvs Hfuel.
  destruct (add_vehicles_nominal depth vs Simulator_default Hvs
              (nominal_state_default depth)) as (s1 & Hadd & Hns & Hlen).
  unfold run. rewrite Hadd.
  apply (process_events_nominal _ _ (fun _ => depth)).
  - intros n. apply Qlt_le_weak. apply Hrand.
  - by apply nominal_state_driver.
  - rewrite budget_constant.
    change (idents (set_tasks _ s1)) with (idents s1).
    rewrite Hlen. simpl. lia.
Qed.

(* ------------------------------------------------------------------ *)
(** ** Runs that never end *)

Lemma looping_round awaited fuel s :
  (forall n, (random n <= 1)%Q) ->
  looping s ->
  exists s2,
    process_events check handle_failure random awaited (S fuel) s =
    process_events check handle_failure random awaited fuel s2 /\
    looping s2.
Proof.
  intros Hrand [Hpreds Hqueue Htasks Hevent].
  destruct Hevent as (t & e & i & name & start & vid & w & v & Hev & Hlt &
                      Hfind & Hname & Hv & Hloop).
  destruct Hloop as (a & next & Ha & Hp & Hkind & Htimed & Hnext & Hback).
  assert (heappop (future s) = Some ((t, e), mkFEL [])) as Hpop.
  { unfold heappop. by rewrite Hev. }
  set (s0 := set_clock t (set_future (mkFEL []) s)).
  destruct (activity_handler_succeeds name start vid s0 v a)
    as (s1 & e' & Hrun & Hq & _ & Hn & Hid & Hsame & Hcase);
    [done|by rewrite Hname|done|apply Hrand|by rewrite Hkind, Hnext|].
  destruct Hcase as [(Hk & _)|(_ & Hcls & [n Ht] & (next' & Hnext' & Hname') &
                               Htime & Hpred)]; [congruence|].
  specialize (Hpred Htimed). destruct (Htime Hpred) as [t' Ht'].
  pose proof (activity_handler_frame _ _ _ _ _ _ Hrun) as (_ & Hfut & Hps & _).
  simpl in Hq, Hn, Hid, Hsame, Ht, Hfut, Hps.
  rewrite Hqueue in Hq. simpl in Hq.
  assert (i < length (tasks s))%nat as Hi.
  { apply find_waiter_Some in Hfind as (Hi & _). by eapply lookup_lt_Some. }
  set (sq := set_queue_future [] (finish_task i s1)).
  exists (set_future (heappush (future sq) t' e') sq). split.
  - simpl. rewrite Hpop. simpl. rewrite Hfind. fold s0. rewrite Hrun.
    simpl. rewrite Hq. fold sq.
    unfold dispatch. rewrite Hcls, Hpred.
    unfold bind at 1. unfold schedule at 1. rewrite Ht'.
    unfold check_predicates, gets. unfold bind. simpl. rewrite Hps, Hpreds.
    reflexivity.
  - assert (tasks sq = alter finish i (tasks s) ++
                       [mkTask (Handler n e' vid) Waiting]) as Htq.
    { simpl. rewrite Ht. by apply alter_app_l. }
    destruct (same_conops_lookup _ _ _ _ Hsame Hv) as (v' & Hv' & Hc).
    constructor.
    + simpl. by rewrite Hps.
    + done.
    + change (Forall (task_known (next_id s1)) (tasks sq)).
      rewrite Htq, Hn. apply Forall_app. split.
      * apply task_known_finish. eapply Forall_impl; [exact Htasks|].
        intros u. apply task_known_mono. lia.
      * apply Forall_singleton. unfold task_known. simpl. lia.
    + exists t', e', (length (alter finish i (tasks s))), n, e', vid, Waiting, v'.
      split_and!; try done.
      * simpl. by rewrite Hfut.
      * simpl. rewrite Hn, Hid. lia.
      * change (find_waiter (se_id e') (tasks sq) =
                Some (length (alter finish i (tasks s)),
                      mkTask (Handler n e' vid) Waiting)).
        rewrite Htq, Hid. apply find_waiter_new; [|done].
        eapply Forall_impl; [by apply task_known_finish|].
        intros u Hu. by eapply task_known_not_waiting.
      * rewrite Hc, Hname'. assert (next' = next) as -> by congruence.
        rewrite Hback. exists a, next. done.
Qed.

(** A looping state never lets the driver finish: whatever the number of
    rounds, it is still running after them. *)
Lemma looping_forever awaited fuel s :
  (forall n, (random n <= 1)%Q) ->
  looping s ->
  exists s',
    process_events check handle_failure random awaited fuel s = OutOfFuel s'.
Proof.
  intros Hrand. revert s. induction fuel as [|fuel IH]; intros s Hloop.
  - by exists s.
  - destruct (looping_round awaited fuel s Hrand Hloop) as (s2 & -> & Hloop2).
    by apply IH.
Qed.

(* ------------------------------------------------------------------ *)
(** ** The engine does not write a ConOps *)

Lemma same_conops_trans l1 l2 l3 :
  same_conops l1 l2 -> same_conops l2 l3 -> same_conops l1 l3.
Proof.
  unfold same_conops. apply Forall2_trans. intros x y z. congruence.
Qed.

Lemma conops_kept_preserves {B} (m : M B) :
  preserves vehicles m -> conops_kept m.
Proof. intros H s. rewrite H. apply same_conops_refl. Qed.

Lemma conops_kept_bind {B C} (m : M B) (k : B -> M C) :
  conops_kept m -> (forall b, conops_kept (k b)) -> conops_kept (bind m k).
Proof.
  intros Hm Hk s. unfold bind. specialize (Hm s).
  destruct (m s) as [[e|b] s1]; simpl in *; [done|].
  eapply same_conops_trans; [exact Hm|apply Hk].
Qed.

Lemma conops_kept_modify_vehicle vid (F : Vehicle -> Vehicle) :
  (forall v, conops (F v) = conops v) -> conops_kept (modify_vehicle vid F).
Proof.
  intros HF s. simpl. apply same_conops_alter; [done|apply same_conops_refl].
Qed.

Lemma activity_handler_keeps_conops name start vid :
  (forall v, conops (handle_failure v) = conops v) ->
  conops_kept (activity_handler handle_failure random name start vid).
Proof.
  intros Hhook. unfold activity_handler.
  repeat first
    [ apply conops_kept_bind; [|intros ?]
    | apply conops_kept_modify_vehicle; done
    | apply conops_kept_preserves;
      unfold log_failure, add_activity, put_nowait;
      frame; auto using preserves_new_event, preserves_random_random; fail
    | match goal with
      | |- conops_kept (match ?x with _ => _ end) => destruct x
      end ].
Qed.

(** However a run of the driver ends or is cut off, every vehicle has
    the ConOps it had, provided the failure hook leaves it alone. *)
Lemma process_events_keeps_conops awaited fuel s :
  (forall v, conops (handle_failure v) = conops v) ->
  same_conops (vehicles s)
    (vehicles (final_state
                 (process_events check handle_failure random awaited fuel s))).
Proof.
  intros Hhook. revert s.
  induction fuel as [|fuel IH]; intros s; simpl; [apply same_conops_refl|].
  destruct (heappop (future s)) as [[[time event] rest]|];
    [|apply same_conops_refl].
  destruct (find_waiter _ _) as [[i [[name start vid|] w]]|];
    [|apply same_conops_refl..].
  pose proof (activity_handler_keeps_conops name start vid Hhook
                (set_clock time (set_future rest s))) as Hh.
  destruct (activity_handler _ _ _ _ _ _) as [[e|[]] s1]; simpl in Hh.
  { by destruct (i <? awaited)%nat. }
  simpl. destruct (queue_future s1) as [|new_event queue]; [done|].
  destruct (dispatch _ _ _) as [[e|[]] s2] eqn:Hd;
    apply dispatch_frame in Hd as (_ & _ & _ & Hv & _); simpl in Hv.
  - simpl. by rewrite Hv.
  - eapply same_conops_trans; [exact Hh|]. rewrite <- Hv. apply IH.
  - simpl. by rewrite Hv.
Qed.

(** C9 (as the program has it). A ConOps is a mutable mapping, and what
    changes it is [update].  On the heap, [first] and [after] leave
    everything as it was.  [update] returns the reference it was called
    on and writes, in place, the dictionary that the [sequence] of that
    object refers to, merging the additions over its old entries: the
    object, and every other ConOps built on that dictionary, holds the
    merged sequence afterwards, and a ConOps built on another dictionary
    holds what it held.  And a run of the driver, with a failure hook
    that leaves the ConOps alone, leaves every vehicle with the ConOps
    it had. *)
Theorem conops_sequence_changes_only_through_update :
  forall (h : ConOpsHeap.Heap) (self d : nat)
         (m : gmap string AnyActivity) (event : Event)
         (additions : gmap string AnyActivity)
         (awaited fuel : nat) (s : Simulator),
    ConOpsHeap.objects h !! self = Some d ->
    ConOpsHeap.dicts h !! d = Some m ->
    (forall v, conops (handle_failure v) = conops v) ->
    fst (ConOpsHeap.call_first h self) = h /\
    fst (ConOpsHeap.call_after h self event) = h /\
    snd (ConOpsHeap.call_update h self additions) = self /\
    (forall other,
        ConOpsHeap.objects h !! other = Some d ->
        exists c',
          ConOpsHeap.read (fst (ConOpsHeap.call_update h self additions)) other
            = Some c' /\
          forall k,
            sequence c' !! k =
            match additions !! k with
            | Some a => Some a
            | None => m !! k
            end) /\
    (forall other d',
        ConOpsHeap.objects h !! other = Some d' ->
        d' <> d ->
        ConOpsHeap.read (fst (ConOpsHeap.call_update h self additions)) other
          = ConOpsHeap.read h other) /\
    same_conops (vehicles s)
      (vehicles (final_state
                   (process_events check handle_failure random awaited fuel
                      s))).
Proof.
  intros h self d m event additions awaited fuel s Hself Hd Hhook.
  destruct (conops_heap_update h self d m event additions Hself Hd)
    as (H1 & H2 & H3 & H4 & H5).
  split_and!; try done. by apply process_events_keeps_conops.
Qed.

(* ------------------------------------------------------------------ *)
(** ** What a removal does to the scan, in general *)

Lemma remove_event_drop l i p :
  l !! i = Some p -> drop (S i) (remove_event p l) ⊆ drop (S i) l.
Proof.
  revert i. induction l as [|x l IH]; intros i Hi; [done|].
  simpl. destruct (se_id x =? se_id p)%nat eqn:E.
  - intros y Hy.
    replace (drop (S i) l) with (drop 1 (drop i l)) in Hy
      by (rewrite drop_drop; f_equal; lia).
    by apply (sublist_subseteq _ _ (sublist_drop _ _)) in Hy.
  - destruct i as [|i]; simpl in *.
    + simplify_eq. by rewrite Nat.eqb_refl in E.
    + by apply IH.
Qed.

(** The entries that a scan checks from index [i] on were at index [i]
    or later when it got there. *)
Lemma scan_predicates_checked fuel i s checked s' :
  scan_predicates check fuel i s = (inr checked, s') ->
  checked ⊆ drop i (predicates s).
Proof.
  revert i s checked s'.
  induction fuel as [|fuel IH]; intros i s checked s'.
  { intros [= <- <-]. intros x Hx. by apply elem_of_nil in Hx. }
  rewrite scan_predicates_round.
  destruct (predicates s !! i) as [p|] eqn:Hp.
  2:{ intros [= <- <-]. intros x Hx. by apply elem_of_nil in Hx. }
  destruct (se_predicate p) as [c|]; [|done].
  cbv zeta.
  destruct (scan_predicates check fuel (S i) _) as [[e|rest] s1] eqn:Hrec;
    [done|].
  intros [= <- <-]. apply IH in Hrec.
  rewrite (drop_S _ _ _ Hp).
  intros x [->|Hx]%elem_of_cons; [by apply elem_of_cons; left|].
  apply elem_of_cons. right. apply Hrec in Hx.
  destruct (check c p s); simpl in Hx; [|done].
  by apply (remove_event_drop _ _ _ Hp).
Qed.

(** Whenever the first pending entry fires, the scan goes on with what
    came after the second: the second entry is not checked, whatever the
    other entries, the predicates and the clock are. *)
Lemma scan_skips_the_successor_of_a_removed_entry s p q l c checked s' :
  predicates s = p :: q :: l ->
  se_predicate p = Some c ->
  check c p s = true ->
  check_predicates check s = (inr checked, s') ->
  exists rest, checked = p :: rest /\ rest ⊆ l.
Proof.
  intros Hps Hc Hfire. unfold check_predicates, bind, gets.
  rewrite Hps. change (length (p :: q :: l)) with (S (S (length l))).
  rewrite scan_predicates_round, Hps.
  change ((p :: q :: l) !! 0%nat) with (Some p). cbv beta iota.
  rewrite Hc. cbv zeta. rewrite Hfire.
  destruct (scan_predicates check (S (length l)) 1 _)
    as [[e|rest] s1] eqn:Hrec; [done|].
  intros [= <- <-]. exists rest. split; [done|].
  apply scan_predicates_checked in Hrec. simpl in Hrec.
  rewrite Nat.eqb_refl in Hrec. simpl in Hrec.
  by rewrite drop_0 in Hrec.
Qed.

(* ------------------------------------------------------------------ *)
(** ** What the task takes off the propellant, in general *)

(** Whenever the trial does not fail, the vehicle of the task ends up
    with the resolved activity as its current one and with one unit of
    propellant less, whatever the activity declares as its resource
    change. *)
Lemma activity_handler_takes_one_unit name start vid s v a s' :
  vehicles s !! vid = Some v ->
  after (conops v) start = inr a ->
  trial_fails (random (draws s)) (activity_p_fail a) = false ->
  activity_handler handle_failure random name start vid s = (inr tt, s') ->
  exists v',
    vehicles s' !! vid = Some v' /\
    activity v' = Some a /\
    propload v' = propload v - 1.
Proof.
  intros Hv Ha Htrial Hrun.
  refine (wp_use _ _ _ _ (fun r s' => r = inr tt -> _) Hrun _ eq_refl).
  unfold activity_handler.
  wp_step. eapply wp_deref; [done|].
  do 2 wp_step. rewrite Ha. do 3 wp_step. rewrite Htrial.
  do 6 wp_step.
  destruct (ev_kind (activity_end a)); cbv beta iota.
  - wp_step.
    eapply wp_deref; [simpl; rewrite !list_lookup_alter_eq, Hv; done|].
    do 2 wp_step. case_match; [done|].
    destruct a; repeat wp_step; simpl; intros _;
      rewrite !list_lookup_alter_eq, Hv; simpl; eauto.
  - repeat wp_step. simpl. intros _.
    rewrite !list_lookup_alter_eq, Hv. simpl. eauto.
  - do 3 wp_step. destruct (activity_duration a); [done|].
    repeat wp_step. simpl. intros _.
    rewrite !list_lookup_alter_eq, Hv. simpl. eauto.
Qed.

(* ------------------------------------------------------------------ *)
(** ** When a gated event is scheduled *)

(** The re-scan is a sequence of firings. *)
Lemma scan_predicates_fires fuel i s r s' :
  scan_predicates check fuel i s = (r, s') -> fires check s s'.
Proof.
  revert i s r s'. induction fuel as [|fuel IH]; intros i s r s'.
  { intros [= <- <-]. constructor. }
  rewrite scan_predicates_round.
  destruct (predicates s !! i) as [p|] eqn:Hp;
    [|intros [= <- <-]; constructor].
  destruct (se_predicate p) as [c|] eqn:Hc;
    [|intros [= <- <-]; constructor].
  cbv zeta. destruct (check c p s) eqn:Hfire.
  - destruct (scan_predicates check fuel (S i) _) as [r1 s1] eqn:Hrec.
    intros Hres. assert (s1 = s') as -> by (destruct r1; by simplify_eq).
    apply IH in Hrec. econstructor; [|exact Hc|exact Hfire|exact Hrec].
    by eapply list_elem_of_lookup_2.
  - destruct (scan_predicates check fuel (S i) s) as [r1 s1] eqn:Hrec.
    intros Hres. assert (s1 = s') as -> by (destruct r1; by simplify_eq).
    by apply IH in Hrec.
Qed.

Lemma check_predicates_fires s r s' :
  check_predicates check s = (r, s') -> fires check s s'.
Proof. unfold check_predicates, bind, gets. apply scan_predicates_fires. Qed.

(** Whatever the driver receives that is not a failure event, it
    classifies it, and the rest of the round is a sequence of
    firings. *)
Lemma dispatch_fires e s r s' :
  dispatch check e s = (r, s') ->
  se_class e <> FailureEvent ->
  fires check (classify e s) s'.
Proof.
  unfold dispatch, classify. destruct (se_class e); [| done |].
  - destruct (se_predicate e) as [c|].
    + unfold bind at 1. unfold modify at 1. unfold bind at 1.
      destruct (check_predicates check _) as [r1 s1] eqn:Hscan.
      intros Hres _. assert (s1 = s') as ->
        by (destruct r1; unfold ret in Hres; by simplify_eq).
      by apply check_predicates_fires in Hscan.
    + unfold bind at 1. unfold schedule at 1.
      destruct (se_time e) as [t|]; [|intros [= <- <-] _; constructor].
      unfold bind at 1.
      destruct (check_predicates check _) as [r1 s1] eqn:Hscan.
      intros Hres _. assert (s1 = s') as ->
        by (destruct r1; unfold ret in Hres; by simplify_eq).
      by apply check_predicates_fires in Hscan.
  - unfold bind at 1.
    destruct (check_predicates check _) as [r1 s1] eqn:Hscan.
    intros Hres _. assert (s1 = s') as ->
      by (destruct r1; unfold ret in Hres; by simplify_eq).
    destruct (se_predicate e), (se_time e);
      by apply check_predicates_fires in Hscan.
Qed.

(** Firings only add to the Future Event List and only take from the
    pending list. *)
Lemma fires_future s s' :
  fires check s s' -> events (future s) `prefix_of` events (future s').
Proof.
  induction 1 as [s|s s' p c _ _ _ _ IH]; [done|].
  etrans; [|exact IH]. simpl. by apply prefix_app_r.
Qed.

Lemma fires_predicates s s' x :
  fires check s s' -> x ∈ predicates s' -> x ∈ predicates s.
Proof.
  induction 1 as [s|s s' p c _ _ _ _ IH]; [done|].
  intros Hx. apply IH in Hx. simpl in Hx. by eapply remove_event_subseteq.
Qed.

Lemma fires_clock s s' : fires check s s' -> clock s' = clock s.
Proof. induction 1 as [s|s s' p c _ _ _ _ IH]; [done|]. by rewrite IH. Qed.

Lemma fires_trans s1 s2 s3 :
  fires check s1 s2 -> fires check s2 s3 -> fires check s1 s3.
Proof.
  induction 1 as [s|s s' p c Hp Hc Hfire _ IH]; [done|].
  intros H3. econstructor; eauto.
Qed.

(** Every entry that a sequence of firings has added to the Future
    Event List was pushed by one of its firings. *)
Lemma fires_entry s s' entry :
  fires check s s' ->
  entry ∈ events (future s') ->
  entry ∈ events (future s) \/
  exists p c s0,
    fires check s s0 /\ p ∈ predicates s0 /\ se_predicate p = Some c /\
    check c p s0 = true /\ fires check (fire p s0) s' /\
    entry = (clock s0, set_time (clock s0) p).
Proof.
  induction 1 as [s|s s' p c Hp Hc Hfire Hrest IH]; [by left|].
  intros [Hin|(p' & c' & s0 & H0 & Hp' & Hc' & Hfire' & Hrest' & ->)]%IH.
  - simpl in Hin. apply elem_of_app in Hin as [Hin|Hin]; [by left|].
    apply list_elem_of_singleton in Hin as ->. right.
    exists p, c, s. split_and!; try done. constructor.
  - right. exists p', c', s0. split_and!; try done.
    econstructor; eauto.
Qed.

Lemma remove_event_gone l p :
  NoDup (se_id <$> l) -> p ∈ l -> p ∉ remove_event p l.
Proof.
  intros Hnd [i Hi]%list_elem_of_lookup.
  rewrite (remove_event_delete _ i) by done.
  intros [j Hj]%list_elem_of_lookup.
  assert (exists j', j' <> i /\ l !! j' = Some p) as (j' & Hne & Hj').
  { destruct (decide (j < i)%nat).
    - exists j. split; [lia|]. by rewrite list_lookup_delete_lt in Hj.
    - exists (S j). split; [lia|]. by rewrite list_lookup_delete_ge in Hj by lia. }
  apply Hne. eapply (NoDup_lookup (se_id <$> l)); [done| |].
  - by rewrite list_lookup_fmap, Hj'.
  - by rewrite list_lookup_fmap, Hi.
Qed.

Lemma scan_predicates_past_end fuel i s :
  (length (predicates s) <= i)%nat ->
  scan_predicates check fuel i s = (inr [], s).
Proof.
  intros Hlen. destruct fuel as [|fuel]; [done|].
  rewrite scan_predicates_round. by rewrite lookup_ge_None_2.
Qed.

(** The scan up to the first entry that fires: the entries before it
    are checked and left alone, the entry fires in the state that the
    scan started in, and what follows is a sequence of firings. *)
Lemma scan_predicates_first_firing fuel i s pre p post c :
  predicates s = pre ++ p :: post ->
  Forall (quiet check s) pre ->
  se_predicate p = Some c ->
  check c p s = true ->
  (i <= length pre)%nat ->
  (length pre - i < fuel)%nat ->
  exists r s',
    scan_predicates check fuel i s = (r, s') /\ fires check (fire p s) s'.
Proof.
  intros Hps Hquiet Hc Hfire. revert i.
  induction fuel as [|fuel IH]; intros i Hi Hfuel; [lia|].
  rewrite scan_predicates_round, Hps.
  destruct (decide (i = length pre)) as [->|Hne].
  - rewrite list_lookup_middle by done. rewrite Hc. cbv zeta.
    rewrite <- Hps, Hfire.
    destruct (scan_predicates check fuel (S (length pre)) _)
      as [r1 s1] eqn:Hrec.
    apply scan_predicates_fires in Hrec.
    destruct r1; eexists; eexists; (split; [reflexivity|exact Hrec]).
  - assert (i < length pre)%nat as Hlt by lia.
    destruct (lookup_lt_is_Some_2 pre i Hlt) as [q Hq].
    rewrite lookup_app_l, Hq by done.
    rewrite Forall_lookup in Hquiet.
    destruct (Hquiet i q Hq) as (cq & -> & ->). cbv zeta.
    destruct (IH (S i)) as (r & s' & -> & Hfires); [lia..|].
    destruct r; eexists; eexists; (split; [reflexivity|exact Hfires]).
Qed.

Lemma remove_event_last pre e :
  Forall (fun q => se_id q <> se_id e) pre ->
  remove_event e (pre ++ [e]) = pre.
Proof.
  induction 1 as [|q pre Hq _ IH]; simpl.
  - by rewrite Nat.eqb_refl.
  - apply Nat.eqb_neq in Hq. by rewrite Hq, IH.
Qed.

(** The scan of a pending list whose last entry is [e], when no entry
    before [e] holds. *)
Lemma scan_predicates_last fuel i s pre e c :
  predicates s = pre ++ [e] ->
  Forall (quiet check s) pre ->
  Forall (fun q => se_id q <> se_id e) pre ->
  se_predicate e = Some c ->
  (i <= length pre)%nat ->
  (length pre - i < fuel)%nat ->
  exists checked,
    scan_predicates check fuel i s
    = (inr checked, if check c e s then fire e s else s).
Proof.
  intros Hps Hquiet Hids Hc. revert i.
  induction fuel as [|fuel IH]; intros i Hi Hfuel; [lia|].
  rewrite scan_predicates_round, Hps.
  destruct (decide (i = length pre)) as [->|Hne].
  - rewrite list_lookup_middle by done. rewrite Hc. cbv zeta.
    rewrite <- Hps. destruct (check c e s).
    + rewrite scan_predicates_past_end; [by eexists|].
      simpl. rewrite Hps, remove_event_last by done. lia.
    + rewrite scan_predicates_past_end; [by eexists|].
      rewrite Hps, length_app. simpl. lia.
  - assert (i < length pre)%nat as Hlt by lia.
    destruct (lookup_lt_is_Some_2 pre i Hlt) as [q Hq].
    rewrite lookup_app_l, Hq by done.
    rewrite Forall_lookup in Hquiet.
    destruct (Hquiet i q Hq) as (cq & -> & ->). cbv zeta.
    destruct (IH (S i)) as (checked & ->); [lia..|]. by eexists.
Qed.

(** C8. The task of a predicate-gated activity never touches the Future
    Event List, and what it hands to the driver is either the failure
    event or a successor event that carries the predicate of the
    activity and no time.  The driver puts a received event that has a
    predicate on the pending list, not on the Future Event List, and
    whatever a round of the driver does after it has classified the
    received event is a sequence of firings: each firing takes an entry
    that is pending in the state of the simulator at that moment and
    whose predicate answers true on that very state, pushes it with its
    time set to the clock, and removes it from the pending list; nothing
    else is pushed.  Conversely an entry whose predicate holds is
    scheduled: when the entries before it in the pending list do not
    hold, the scan pushes it at the current clock and it is pending no
    more; in particular a received gated event, when no older pending
    entry holds, is scheduled at the clock in the same round if its
    predicate holds on the state with the event pending, and stays
    pending, off the Future Event List, if it does not. *)
Theorem gated_event_is_scheduled_when_its_predicate_holds :
  (forall name start vid s v pa s',
      vehicles s !! vid = Some v ->
      after (conops v) start = inr (Gated pa) ->
      activity_handler handle_failure random name start vid s
        = (inr tt, s') ->
      future s' = future s /\
      exists e,
        queue_future s' = queue_future s ++ [e] /\
        (se_class e = FailureEvent \/
         se_class e = ScheduledEvent /\ se_time e = None /\
         se_predicate e = Some (pact_predicate pa))) /\
  (forall new_event s r s' t x,
      dispatch check new_event s = (r, s') ->
      (t, x) ∈ events (future s') ->
      (t, x) ∈ events (future s) \/
      (x = new_event /\ se_predicate x = None /\ se_time x = Some t) \/
      (t = clock s /\ se_time x = Some (clock s) /\
       exists p c s0,
         p ∈ predicates s ++ [new_event] /\
         se_predicate p = Some c /\
         clock s0 = clock s /\ check c p s0 = true /\
         x = set_time (clock s) p /\
         fires check (classify new_event s) s0 /\
         p ∈ predicates s0 /\
         fires check (fire p s0) s')) /\
  (forall e c s r s',
      se_class e = ScheduledEvent ->
      se_predicate e = Some c ->
      dispatch check e s = (r, s') ->
      fires check (set_predicates (predicates s ++ [e]) s) s') /\
  (forall e s r s',
      se_class e <> FailureEvent ->
      dispatch check e s = (r, s') ->
      fires check (classify e s) s') /\
  (forall s pre p post c,
      predicates s = pre ++ p :: post ->
      NoDup (se_id <$> predicates s) ->
      Forall (quiet check s) pre ->
      se_predicate p = Some c ->
      check c p s = true ->
      exists r s',
        check_predicates check s = (r, s') /\
        fires check (fire p s) s' /\
        (clock s, set_time (clock s) p) ∈ events (future s') /\
        p ∉ predicates s') /\
  (forall e c s,
      se_class e = ScheduledEvent ->
      se_predicate e = Some c ->
      Forall (fun q => se_id q <> se_id e) (predicates s) ->
      let s1 := set_predicates (predicates s ++ [e]) s in
      Forall (quiet check s1) (predicates s) ->
      dispatch check e s =
      (inr Next,
       if check c e s1
       then set_future
              (heappush (future s) (clock s) (set_time (clock s) e)) s
       else s1)).
Proof.
  split_and!.
  - intros name start vid s v pa s' Hv Ha Hrun. split.
    + by apply activity_handler_frame in Hrun as (_ & Hf & _).
    + by eapply activity_handler_gated.
  - intros new_event s r s' t x Hd Hin.
    assert (se_class new_event = FailureEvent \/
            se_class new_event <> FailureEvent) as [Hcls|Hcls]
      by (destruct (se_class new_event); auto).
    { rewrite dispatch_FailureEvent in Hd by done. left. by simplify_eq. }
    pose proof (dispatch_fires _ _ _ _ Hd Hcls) as Hfires.
    assert (clock (classify new_event s) = clock s /\
            (forall q, q ∈ predicates (classify new_event s) ->
                       q ∈ predicates s ++ [new_event]) /\
            (forall y, y ∈ events (future (classify new_event s)) ->
                       y ∈ events (future s) \/
                       exists t', se_predicate new_event = None /\
                                  se_time new_event = Some t' /\
                                  y = (t', new_event)))
      as (Hclock & Hpend & Hfut).
    { unfold classify. split_and!.
      - by repeat case_match.
      - intros q. repeat case_match; simpl; intros Hq; try done;
          apply elem_of_app; by left.
      - intros y. repeat case_match; simpl; intros Hy; try (by left).
        apply elem_of_app in Hy as [Hy|Hy]; [by left|].
        apply list_elem_of_singleton in Hy as ->. right. eauto. }
    apply (fires_entry _ _ _ Hfires) in Hin
      as [Hold|(p & c & s0 & H0 & Hp & Hc & Hfire & Hrest & Heq)].
    + apply Hfut in Hold as [Hold|(t' & Hnone & Htime & Heq)]; [by left|].
      right. left. by simplify_eq.
    + right. right.
      pose proof (fires_clock _ _ H0) as Hs0. rewrite Hclock in Hs0.
      rewrite Hs0 in Heq. simplify_eq. split_and!; [done..|].
      exists p, c, s0. split_and!; try done.
      apply Hpend. exact (fires_predicates _ _ _ H0 Hp).
  - intros e c s r s' Hcls Hc Hd.
    apply dispatch_fires in Hd; [|by rewrite Hcls].
    unfold classify in Hd. by rewrite Hcls, Hc in Hd.
  - intros e s r s' Hcls Hd. by eapply dispatch_fires.
  - intros s pre p post c Hps Hnd Hquiet Hc Hfire.
    destruct (scan_predicates_first_firing (length (predicates s)) 0 s
                pre p post c Hps Hquiet Hc Hfire)
      as (r & s' & Hscan & Hfires).
    { lia. }
    { rewrite Hps, length_app. simpl. lia. }
    exists r, s'. split_and!; [done|done| |].
    + destruct (fires_future _ _ Hfires) as [k Hk]. rewrite Hk. simpl.
      rewrite <- app_assoc. apply elem_of_app. right.
      apply elem_of_cons. by left.
    + intros Hin. apply (fires_predicates _ _ _ Hfires) in Hin.
      simpl in Hin. revert Hin. apply remove_event_gone; [done|].
      rewrite Hps. apply elem_of_app. right. apply elem_of_cons. by left.
  - intros e c s Hcls Hc Hids s1 Hquiet.
    unfold dispatch. rewrite Hcls, Hc.
    unfold bind at 1. unfold modify at 1. fold s1.
    unfold bind at 1. unfold check_predicates, bind, gets.
    destruct (scan_predicates_last (length (predicates s1)) 0 s1
                (predicates s) e c eq_refl Hquiet Hids Hc)
      as (checked & ->).
    { lia. }
    { subst s1. simpl. rewrite length_app. simpl. lia. }
    unfold ret. f_equal. destruct (check c e s1); [|done].
    unfold fire. subst s1. simpl. rewrite remove_event_last by done.
    by destruct s.
Qed.

(* ================================================================== *)
(** ** The activity task, whatever it resolves *)

Lemma wp_deref_cases vid s (Q : Result Vehicle -> Simulator -> Prop) :
  (forall v, vehicles s !! vid = Some v -> Q (inr v) s) ->
  (vehicles s !! vid = None -> Q (inl ReferenceError) s) ->
  wp (deref vid) s Q.
Proof.
  intros Hsome Hnone. unfold wp, deref.
  destruct (vehicles s !! vid) as [v|]; simpl; auto.
Qed.

(** Closes a branch of the task: the vehicle is [v], the resolved
    activity and the event are read off the goal. *)
Ltac handed_over v Htrial :=
  simpl; intros _; exists v; eexists; eexists;
  split_and!; try done; rewrite ?Htrial, ?app_nil_r; try done; eauto 10.

(** An activation that returns has resolved its activity, drawn one
    number, logged a row exactly if the trial failed, and handed one
    new event to the driver; a [ScheduledEvent] comes with a new task of
    the same vehicle that waits on it, a terminal event with none. *)
Lemma activity_handler_returns name start vid s s' :
  activity_handler handle_failure random name start vid s = (inr tt, s') ->
  exists v a e,
    vehicles s !! vid = Some v /\
    after (conops v) start = inr a /\
    queue_future s' = queue_future s ++ [e] /\
    se_id e = next_id s /\
    next_id s' = S (next_id s) /\
    draws s' = S (draws s) /\
    failures s' =
      failures s ++
      (if trial_fails (random (draws s)) (activity_p_fail a)
       then [(clock s, v_name v, activity_name a)] else []) /\
    (se_class e = ScheduledEvent /\
     (exists n, tasks s' = tasks s ++ [mkTask (Handler n e vid) Waiting]) \/
     se_class e <> ScheduledEvent /\ tasks s' = tasks s) /\
    (se_class e = FailureEvent /\ se_predicate e = None /\
     se_time e = Some (clock s) \/
     se_class e <> FailureEvent /\ se_predicate e = None /\
     (exists t, a = Timed t /\
                se_time e = Some (clock s + act_duration t)%Q) \/
     se_class e = ScheduledEvent /\ se_time e = None /\
     exists pa, a = Gated pa /\ se_predicate e = Some (pact_predicate pa)).
Proof.
  intros Hrun.
  refine (wp_use _ _ _ _ (fun r s' => r = inr tt -> _) Hrun _ eq_refl).
  unfold activity_handler.
  wp_step. apply wp_deref_cases; [intros v Hv|done].
  do 2 wp_step. destruct (after (conops v) start) as [e|a] eqn:Ha; [done|].
  do 3 wp_step.
  destruct (trial_fails _ _) eqn:Htrial; cbv beta iota.
  - repeat wp_step. destruct (ev_kind _); cbv beta iota.
    + wp_step. apply wp_deref_cases; [intros v' Hv'|done].
      do 2 wp_step. case_match; [done|].
      destruct a as [t|pa]; repeat wp_step; handed_over v Htrial.
    + repeat wp_step. handed_over v Htrial.
    + do 3 wp_step. destruct a as [t|pa]; simpl; [|done].
      repeat wp_step. handed_over v Htrial.
  - repeat wp_step. destruct (ev_kind _); cbv beta iota.
    + wp_step. apply wp_deref_cases; [intros v' Hv'|done].
      do 2 wp_step. case_match; [done|].
      destruct a as [t|pa]; repeat wp_step; handed_over v Htrial.
    + repeat wp_step. handed_over v Htrial.
    + do 3 wp_step. destruct a as [t|pa]; simpl; [|done].
      repeat wp_step. handed_over v Htrial.
Qed.

(** X1. An activation of the activity task that returns has put exactly
    one new event at the end of the inbound channel of the driver, and
    that event has a time or a predicate and not both; the activation
    has taken exactly one number from the random generator, and it has
    touched neither the Future Event List, nor the pending predicates,
    nor the clock. *)
Theorem activity_handler_hands_over_one_event :
  forall (name : string) (start : SimEvent) (vid : nat) (s s' : Simulator),
    activity_handler handle_failure random name start vid s = (inr tt, s') ->
    exists e,
      queue_future s' = queue_future s ++ [e] /\
      time_xor_predicate e /\
      draws s' = S (draws s) /\
      future s' = future s /\
      predicates s' = predicates s /\
      clock s' = clock s.
Proof.
  intros name start vid s s' Hrun.
  pose proof (activity_handler_frame _ _ _ _ _ _ Hrun)
    as (_ & Hfut & Hpred & Hclock & _).
  apply activity_handler_returns in Hrun
    as (v & a & e & _ & _ & Hq & _ & _ & Hdraws & _ & _ & Htime).
  exists e. split_and!; try done.
  destruct Htime
    as [(_ & Hnone & Ht)|[(_ & Hnone & t & _ & Ht)|(_ & Ht & pa & _ & Hp)]].
  - left. by rewrite Ht.
  - left. by rewrite Ht.
  - right. by rewrite Hp.
Qed.

(** What the task has written to the failure log, however it ends. *)
Lemma activity_handler_log name start vid s v a r s' :
  vehicles s !! vid = Some v ->
  after (conops v) start = inr a ->
  activity_handler handle_failure random name start vid s = (r, s') ->
  failures s' =
    failures s ++
    (if trial_fails (random (draws s)) (activity_p_fail a)
     then [(clock s, v_name v, activity_name a)] else []).
Proof.
  intros Hv Ha Hrun.
  refine (wp_use _ _ _ _ (fun r s' => _) Hrun _).
  unfold activity_handler.
  wp_step. eapply wp_deref; [done|].
  do 2 wp_step. rewrite Ha. do 3 wp_step.
  destruct (trial_fails _ _); cbv beta iota.
  - repeat wp_step. destruct (ev_kind _); cbv beta iota.
    + wp_step. apply wp_deref_cases; [intros v' Hv'|done].
      do 2 wp_step. case_match; [done|].
      destruct a; repeat wp_step; done.
    + by repeat wp_step.
    + do 3 wp_step. destruct (activity_duration a); [done|].
      by repeat wp_step.
  - repeat wp_step. destruct (ev_kind _); cbv beta iota.
    + wp_step. apply wp_deref_cases; [intros v' Hv'|by rewrite app_nil_r].
      do 2 wp_step. case_match; [by rewrite app_nil_r|].
      destruct a; repeat wp_step; simpl; by rewrite app_nil_r.
    + repeat wp_step. simpl. by rewrite app_nil_r.
    + do 3 wp_step. destruct (activity_duration a); [by rewrite app_nil_r|].
      repeat wp_step. simpl. by rewrite app_nil_r.
Qed.

(** X2. The failure log after an activation, however the activation
    ends: when the trial [u > 1 - p_fail] fails, exactly one row has been
    added at the end, with the current clock, the name of the vehicle and
    the name of the resolved activity; when it does not, the log is as it
    was. *)
Theorem activity_handler_logs_exactly_the_failed_trial :
  forall (name : string) (start : SimEvent) (vid : nat) (s s' : Simulator)
         (v : Vehicle) (a : AnyActivity) (r : Result unit),
    vehicles s !! vid = Some v ->
    after (conops v) start = inr a ->
    activity_handler handle_failure random name start vid s = (r, s') ->
    failures s' =
      failures s ++
      (if trial_fails (random (draws s)) (activity_p_fail a)
       then [(clock s, v_name v, activity_name a)] else []).
Proof. intros. by eapply activity_handler_log. Qed.

Lemma activity_handler_KeyError name start vid s v :
  vehicles s !! vid = Some v ->
  sequence (conops v) !! se_name start = None ->
  activity_handler handle_failure random name start vid s
    = (inl (KeyError (se_name start)), s).
Proof.
  intros Hv Hnone.
  unfold activity_handler, bind at 1, deref. rewrite Hv.
  unfold bind at 1, lift, after, name_of, SimEvent_Named. by rewrite Hnone.
Qed.

(** X3. A task that is woken by an event whose name the ConOps of its
    vehicle does not know stops with the [KeyError] of that name before
    it has done anything: no number is drawn, nothing is logged, the
    vehicle is not updated and nothing is handed to the driver. *)
Theorem activity_handler_unknown_start_event :
  forall (name : string) (start : SimEvent) (vid : nat) (s : Simulator)
         (v : Vehicle),
    vehicles s !! vid = Some v ->
    sequence (conops v) !! se_name start = None ->
    activity_handler handle_failure random name start vid s
      = (inl (KeyError (se_name start)), s).
Proof. intros. by eapply activity_handler_KeyError. Qed.

(** X4. A [PredicatedActivity] cannot end in the Completion terminal:
    the task reads [current_activity.duration] to time the completion
    event, and the class has no such attribute.  The activation stops
    with [AttributeError] after the vehicle has been updated, and hands
    nothing to the driver. *)
Theorem activity_handler_predicated_activity_cannot_complete :
  forall (name : string) (start : SimEvent) (vid : nat) (s : Simulator)
         (v : Vehicle) (pa : PredicatedActivity),
    vehicles s !! vid = Some v ->
    after (conops v) start = inr (Gated pa) ->
    trial_fails (random (draws s)) (pact_p_fail pa) = false ->
    ev_kind (pact_end pa) = CompletorK ->
    exists s' v',
      activity_handler handle_failure random name start vid s
        = (inl (AttributeError "duration"), s') /\
      queue_future s' = queue_future s /\
      tasks s' = tasks s /\
      vehicles s' !! vid = Some v' /\
      activity v' = Some (Gated pa) /\
      propload v' = propload v - 1 /\
      completed_conops v' = completed_conops v.
Proof.
  intros name start vid s v pa Hv Ha Htrial Hkind.
  cut (wp (activity_handler handle_failure random name start vid) s
         (fun r s' => r = inl (AttributeError "duration") /\
            exists v',
            queue_future s' = queue_future s /\
            tasks s' = tasks s /\
            vehicles s' !! vid = Some v' /\
            activity v' = Some (Gated pa) /\
            propload v' = propload v - 1 /\
            completed_conops v' = completed_conops v)).
  { unfold wp.
    destruct (activity_handler _ _ _ _ _ _) as [r s'].
    simpl. intros (-> & v' & H). exists s', v'. by split. }
  unfold activity_handler.
  wp_step. eapply wp_deref; [done|].
  do 2 wp_step. rewrite Ha. do 3 wp_step.
  simpl activity_p_fail. rewrite Htrial. do 6 wp_step.
  simpl activity_end. rewrite Hkind. cbv beta iota.
  repeat wp_step. simpl. split; [done|].
  eexists. split_and!; [done|done|by rewrite !list_lookup_alter_eq, Hv|done..].
Qed.

(** X5. When the end of the activity is an ordinary event that the
    ConOps does not know, the activation stops with the [KeyError] of
    that name only after it has updated the vehicle: the resolved
    activity is the current one and one unit of propellant is gone; no
    successor task exists and nothing has been handed to the driver. *)
Theorem activity_handler_unresolved_successor :
  forall (name : string) (start : SimEvent) (vid : nat) (s : Simulator)
         (v : Vehicle) (a : AnyActivity),
    vehicles s !! vid = Some v ->
    after (conops v) start = inr a ->
    trial_fails (random (draws s)) (activity_p_fail a) = false ->
    ev_kind (activity_end a) = Plain ->
    sequence (conops v) !! ev_name (activity_end a) = None ->
    exists s' v',
      activity_handler handle_failure random name start vid s
        = (inl (KeyError (ev_name (activity_end a))), s') /\
      queue_future s' = queue_future s /\
      tasks s' = tasks s /\
      failures s' = failures s /\
      vehicles s' !! vid = Some v' /\
      activity v' = Some a /\
      propload v' = propload v - 1.
Proof.
  intros name start vid s v a Hv Ha Htrial Hkind Hnone.
  cut (wp (activity_handler handle_failure random name start vid) s
         (fun r s' => r = inl (KeyError (ev_name (activity_end a))) /\
            exists v',
            queue_future s' = queue_future s /\
            tasks s' = tasks s /\
            failures s' = failures s /\
            vehicles s' !! vid = Some v' /\
            activity v' = Some a /\
            propload v' = propload v - 1)).
  { unfold wp.
    destruct (activity_handler _ _ _ _ _ _) as [r s'].
    simpl. intros (-> & v' & H). exists s', v'. by split. }
  unfold activity_handler.
  wp_step. eapply wp_deref; [done|].
  do 2 wp_step. rewrite Ha. do 3 wp_step. rewrite Htrial. do 6 wp_step.
  rewrite Hkind. cbv beta iota.
  wp_step. eapply wp_deref; [simpl; by rewrite !list_lookup_alter_eq, Hv|].
  do 2 wp_step. unfold after, name_of, Event_Named. simpl. rewrite Hnone.
  split; [done|]. rewrite !list_lookup_alter_eq, Hv. simpl.
  eexists. split_and!; done.
Qed.

(** X6. The update of the vehicle is not reserved to activities that
    succeed: when the trial fails, and after the failure hook has run,
    the failed activity becomes the current one and one unit is taken
    off the propellant that the hook has left. *)
Theorem failed_activity_still_updates_the_vehicle :
  forall (name : string) (start : SimEvent) (vid : nat) (s s' : Simulator)
         (v : Vehicle) (a : AnyActivity),
    vehicles s !! vid = Some v ->
    after (conops v) start = inr a ->
    trial_fails (random (draws s)) (activity_p_fail a) = true ->
    activity_handler handle_failure random name start vid s = (inr tt, s') ->
    exists v',
      vehicles s' !! vid = Some v' /\
      activity v' = Some a /\
      propload v' = propload (handle_failure v) - 1.
Proof.
  intros name start vid s s' v a Hv Ha Htrial Hrun.
  refine (wp_use _ _ _ _ (fun r s' => r = inr tt -> _) Hrun _ eq_refl).
  unfold activity_handler.
  wp_step. eapply wp_deref; [done|].
  do 2 wp_step. rewrite Ha. do 3 wp_step. rewrite Htrial.
  repeat wp_step.
  destruct (ev_kind (activity_failure a)); cbv beta iota.
  - wp_step.
    eapply wp_deref; [simpl; rewrite !list_lookup_alter_eq, Hv; done|].
    do 2 wp_step. case_match; [done|].
    destruct a; repeat wp_step; simpl; intros _;
      rewrite !list_lookup_alter_eq, Hv; simpl; eauto.
  - repeat wp_step. simpl. intros _.
    rewrite !list_lookup_alter_eq, Hv. simpl. eauto.
  - do 3 wp_step. destruct (activity_duration a); [done|].
    repeat wp_step. simpl. intros _.
    rewrite !list_lookup_alter_eq, Hv. simpl. eauto.
Qed.

(* ------------------------------------------------------------------ *)
(** ** What a run keeps and what it only adds to *)

Section Extends.

Context {A : Type} (f : Simulator -> list A).

Lemma extends_preserves {B} (m : M B) : preserves f m -> extends f m.
Proof. intros H s. by rewrite H. Qed.

Lemma extends_bind {B C} (m : M B) (k : B -> M C) :
  extends f m -> (forall b, extends f (k b)) -> extends f (bind m k).
Proof.
  intros Hm Hk s. unfold bind. specialize (Hm s).
  destruct (m s) as [[e|b] s1]; simpl in *; [done|].
  etrans; [exact Hm|apply Hk].
Qed.

Lemma extends_modify (g : Simulator -> Simulator) :
  (forall s, f s `prefix_of` f (g s)) -> extends f (modify g).
Proof. intros H s. apply H. Qed.

End Extends.

Lemma preserves_add_vehicle {A} (f : Simulator -> A) vehicle start_time :
  (forall x s, f (set_vehicles x s) = f s) ->
  (forall x s, f (set_entities x s) = f s) ->
  (forall x s, f (set_next_id x s) = f s) ->
  (forall x s, f (set_future x s) = f s) ->
  (forall x s, f (set_tasks x s) = f s) ->
  preserves f (add_vehicle vehicle start_time).
Proof.
  intros Hveh Hent Hid Hfut Htasks.
  unfold add_vehicle, add_activity.
  apply preserves_bind; [intros s; apply Hveh|intros vid].
  frame; auto using preserves_new_event, preserves_schedule.
Qed.

Lemma preserves_add_vehicles {A} (f : Simulator -> A) initial_vehicles :
  (forall x s, f (set_vehicles x s) = f s) ->
  (forall x s, f (set_entities x s) = f s) ->
  (forall x s, f (set_next_id x s) = f s) ->
  (forall x s, f (set_future x s) = f s) ->
  (forall x s, f (set_tasks x s) = f s) ->
  preserves f (add_vehicles initial_vehicles).
Proof.
  intros Hveh Hent Hid Hfut Htasks.
  induction initial_vehicles as [|[t v] l IH]; simpl; [apply preserves_ret|].
  apply preserves_bind; [by apply preserves_add_vehicle|done].
Qed.

(** The driver loop, step by step: a preorder on states that every step
    of a round respects relates the state a run starts in to the state
    it ends in. *)
Lemma process_events_steps (R : relation Simulator) (HR : PreOrder R) :
  (forall s, R s (set_success true s)) ->
  (forall s time rest, R s (set_clock time (set_future rest s))) ->
  (forall name start vid s,
      R s (snd (activity_handler handle_failure random name start vid s))) ->
  (forall i s, R s (finish_task i s)) ->
  (forall q s, R s (set_queue_future q s)) ->
  (forall e s, R s (snd (dispatch check e s))) ->
  forall awaited fuel s,
    R s (final_state
           (process_events check handle_failure random awaited fuel s)).
Proof.
  intros Hsucc Hpop Hhandler Hfinish Hqueue Hdispatch awaited fuel.
  induction fuel as [|fuel IH]; intros s; simpl; [done|].
  destruct (heappop (future s)) as [[[time event] rest]|]; [|apply Hsucc].
  pose proof (Hpop s time rest) as H1.
  destruct (find_waiter _ _) as [[i [[name start vid|] w]]|]; [|done..].
  pose proof (Hhandler name start vid (set_clock time (set_future rest s)))
    as H2.
  destruct (activity_handler _ _ _ _ _ _) as [[e|[]] s1]; simpl in H2.
  { destruct (i <? awaited)%nat; simpl; by etrans. }
  simpl. pose proof (Hfinish i s1) as H3.
  destruct (queue_future s1) as [|new_event queue].
  { simpl. etrans; [exact H1|]. by etrans. }
  pose proof (Hqueue queue (finish_task i s1)) as H4.
  pose proof (Hdispatch new_event (set_queue_future queue (finish_task i s1)))
    as H5.
  assert (R s (snd (dispatch check new_event
                      (set_queue_future queue (finish_task i s1))))) as H6.
  { etrans; [exact H1|]. etrans; [exact H2|]. etrans; [exact H3|].
    by etrans. }
  destruct (dispatch _ _ _) as [[e|[]] s2]; simpl in *; [done| |done].
  etrans; [exact H6|apply IH].
Qed.

Lemma process_events_success awaited fuel s :
  match process_events check handle_failure random awaited fuel s with
  | Completed s' => success s' = true
  | o => success (final_state o) = success s
  end.
Proof.
  revert s. induction fuel as [|fuel IH]; intros s; simpl; [done|].
  destruct (heappop (future s)) as [[[time event] rest]|]; [|done].
  destruct (find_waiter _ _) as [[i [[name start vid|] w]]|]; [|done..].
  destruct (activity_handler _ _ _ _ _ _) as [[e|[]] s1] eqn:Hh;
    apply activity_handler_frame in Hh as (Hs1 & _); simpl in Hs1.
  { by destruct (i <? awaited)%nat. }
  simpl. destruct (queue_future s1) as [|new_event queue]; [done|].
  destruct (dispatch _ _ _) as [[e|[]] s2] eqn:Hd;
    apply dispatch_frame in Hd as (Hs2 & _); simpl in Hs2.
  - simpl. congruence.
  - specialize (IH s2).
    destruct (process_events _ _ _ _ _ s2); simpl in *; congruence.
  - simpl. congruence.
Qed.

(** X7. The one statement that sets [success] is the one after the
    loop over the Future Event List: a run that ends in any other way (on
    a failure event, with an exception, waiting for a task that will not
    answer) leaves [success] exactly as it found it.  Nothing resets the
    flag, so on a simulator that has succeeded once it stays set through
    a later run that fails. *)
Theorem success_is_written_only_after_the_loop :
  forall (fuel : nat) (initial_vehicles : list (Q * Vehicle))
         (s : Simulator),
    match run check handle_failure random fuel initial_vehicles s with
    | Completed s' => success s' = true
    | o => success (final_state o) = success s
    end.
Proof.
  intros fuel initial_vehicles s. unfold run.
  pose proof (preserves_add_vehicles success initial_vehicles) as Hadd.
  specialize (Hadd (fun _ _ => eq_refl) (fun _ _ => eq_refl)
                (fun _ _ => eq_refl) (fun _ _ => eq_refl)
                (fun _ _ => eq_refl) s).
  destruct (add_vehicles _ _) as [[e|[]] s1]; simpl in Hadd; [done|].
  match goal with
  | |- context [process_events _ _ _ ?n fuel ?s0] =>
      pose proof (process_events_success n fuel s0) as H
  end.
  destruct (process_events _ _ _ _ _ _); simpl in *; congruence.
Qed.

Lemma activity_handler_extends_failures name start vid :
  extends failures (activity_handler handle_failure random name start vid).
Proof.
  unfold activity_handler.
  repeat first
    [ apply extends_bind; [|intros ?]
    | apply extends_preserves;
      unfold modify_vehicle, add_activity, put_nowait;
      frame; auto using preserves_new_event, preserves_random_random; fail
    | apply extends_modify; intros ?; simpl; by apply prefix_app_r
    | match goal with
      | |- extends _ (match ?x with _ => _ end) => destruct x
      end ].
Qed.

Lemma process_events_extends_failures awaited fuel s :
  failures s `prefix_of`
  failures (final_state
              (process_events check handle_failure random awaited fuel s)).
Proof.
  apply (process_events_steps
           (fun s s' => failures s `prefix_of` failures s')).
  - split; [by intros ?|]. intros x y z Hxy Hyz. by etrans.
  - done.
  - done.
  - intros. apply activity_handler_extends_failures.
  - done.
  - done.
  - intros e s0.
    destruct (dispatch check e s0) as [r s1] eqn:Hd.
    apply dispatch_frame in Hd as (_ & _ & Hf & _). simpl. by rewrite Hf.
Qed.

(** X8. The failure log is only ever appended to: whatever the
    vehicles, the predicates and the draws, and however the run ends or
    is cut off, the rows that were in the log when [run] was called are
    still there, in their order, at the beginning of the log. *)
Theorem failure_log_is_append_only :
  forall (fuel : nat) (initial_vehicles : list (Q * Vehicle))
         (s : Simulator),
    failures s `prefix_of`
    failures (final_state
                (run check handle_failure random fuel initial_vehicles s)).
Proof.
  intros fuel initial_vehicles s. unfold run.
  pose proof (preserves_add_vehicles failures initial_vehicles) as Hadd.
  specialize (Hadd (fun _ _ => eq_refl) (fun _ _ => eq_refl)
                (fun _ _ => eq_refl) (fun _ _ => eq_refl)
                (fun _ _ => eq_refl) s).
  destruct (add_vehicles _ _) as [[e|[]] s1]; simpl in Hadd.
  - simpl. by rewrite Hadd.
  - rewrite <- Hadd.
    match goal with
    | |- context [process_events _ _ _ ?n fuel ?s0] =>
        apply (process_events_extends_failures n fuel s0)
    end.
Qed.

Lemma task_bodies_alter (F : Task -> Task) i (l : list Task) :
  (forall t, task_body (F t) = task_body t) ->
  task_body <$> alter F i l = task_body <$> l.
Proof.
  intros HF. revert i.
  induction l as [|t l IH]; intros [|i]; simpl; [done..| |].
  - by rewrite HF.
  - f_equal. apply IH.
Qed.

Lemma task_bodies_cancel (l : list Task) :
  task_body <$> map cancel l = task_body <$> l.
Proof.
  induction l as [|t l IH]; simpl; [done|]. f_equal; [|exact IH].
  unfold cancel. by destruct (task_status t).
Qed.

Lemma add_activity_extends_tasks name start vid :
  extends task_bodies (add_activity name start vid).
Proof.
  apply extends_modify. intros s. unfold task_bodies. simpl.
  rewrite fmap_app. by apply prefix_app_r.
Qed.

Lemma activity_handler_extends_tasks name start vid :
  extends task_bodies (activity_handler handle_failure random name start vid).
Proof.
  unfold activity_handler.
  repeat first
    [ apply extends_bind; [|intros ?]
    | apply add_activity_extends_tasks
    | apply extends_preserves;
      unfold modify_vehicle, log_failure, put_nowait;
      frame; auto using preserves_new_event, preserves_random_random; fail
    | match goal with
      | |- extends _ (match ?x with _ => _ end) => destruct x
      end ].
Qed.

Lemma add_vehicles_extends_tasks initial_vehicles :
  extends task_bodies (add_vehicles initial_vehicles).
Proof.
  induction initial_vehicles as [|[t v] l IH]; simpl; [by intros s|].
  apply extends_bind; [|done].
  unfold add_vehicle.
  apply extends_bind; [by intros s|intros vid].
  repeat first
    [ apply extends_bind; [|intros ?]
    | apply add_activity_extends_tasks
    | apply extends_preserves;
      frame; auto using preserves_new_event, preserves_schedule; fail ].
Qed.

(** X9. [self.tasks] is never pruned.  However a run ends or is cut
    off, the coroutines that were in the list when [run] was called are
    still its first entries, in their order: [run] and the activity tasks
    only append, and finishing or cancelling a task leaves its entry in
    place. *)
Theorem tasks_are_never_removed :
  forall (fuel : nat) (initial_vehicles : list (Q * Vehicle))
         (s : Simulator),
    task_bodies s `prefix_of`
    task_bodies (final_state
                   (run check handle_failure random fuel initial_vehicles s)).
Proof.
  intros fuel initial_vehicles s. unfold run.
  pose proof (add_vehicles_extends_tasks initial_vehicles s) as Hadd.
  destruct (add_vehicles _ _) as [[e|[]] s1]; simpl in Hadd; [done|].
  etrans; [exact Hadd|].
  etrans; [|apply (process_events_steps
                     (fun s s' => task_bodies s `prefix_of` task_bodies s'))].
  - unfold task_bodies. simpl. rewrite fmap_app. by apply prefix_app_r.
  - split; [by intros ?|]. intros x y z Hxy Hyz. by etrans.
  - done.
  - done.
  - intros. apply activity_handler_extends_tasks.
  - intros i s0. unfold task_bodies, finish_task. simpl.
    by rewrite task_bodies_alter.
  - done.
  - intros e s0. unfold dispatch.
    destruct (se_class e).
    + apply extends_preserves.
      frame; auto using preserves_scan_predicates, preserves_schedule.
    + unfold bind, cancel_tasks, modify, ret, task_bodies. simpl.
      by rewrite task_bodies_cancel.
    + apply extends_preserves.
      frame; auto using preserves_scan_predicates.
Qed.

(* ------------------------------------------------------------------ *)
(** ** The clock *)





(* ------------------------------------------------------------------ *)
(** ** Taking vehicles in and starting the run *)

(** What [add_vehicle] does for a vehicle whose ConOps has an ["INIT"]
    entry. *)
Lemma add_vehicle_runs vehicle start_time s a :
  first (conops vehicle) = inr a ->
  add_vehicle vehicle start_time s =
  (inr tt,
   let vid := length (vehicles s) in
   let INIT :=
     mkSimEvent (next_id s) ScheduledEvent (ev_name (activity_start a))
       (activity_start a) (Some start_time) None in
   mkSimulator (<[v_name vehicle := vid]> (entities s)) (failures s)
     (heappush (future s) start_time INIT)
     (tasks s ++ [mkTask (Handler (activity_name a) INIT vid) Waiting])
     (predicates s) (clock s) (success s) (queue_future s)
     (vehicles s ++ [vehicle]) (S (next_id s)) (draws s)).
Proof.
  intros H. unfold add_vehicle, bind, alloc_vehicle, modify, lift.
  rewrite H. reflexivity.
Qed.

(** X11. With no vehicle to add and nothing on the Future Event List,
    [run] succeeds at once: the loop body never runs, so apart from the
    driver task that [run] has created and the [success] flag the
    simulator is as it was. *)
Theorem run_without_vehicles_succeeds_at_once :
  forall (fuel : nat) (s : Simulator),
    events (future s) = [] ->
    run check handle_failure random (S fuel) [] s =
    Completed (set_success true
                 (set_tasks (tasks s ++ [mkTask Driver Running]) s)).
Proof.
  intros fuel s Hempty. unfold run. simpl. unfold heappop. simpl.
  by rewrite Hempty.
Qed.

(** X12. A vehicle whose ConOps has no ["INIT"] entry makes
    [add_vehicle] stop with [KeyError] at [conops.first()], and by then
    the vehicle is already registered under its name in [entities];
    nothing is scheduled for it and no task is created.  [run] passes the
    exception on before it creates the driver task, whatever vehicles
    come after in the list. *)
Theorem add_vehicle_without_INIT_entry :
  forall (fuel : nat) (vehicle : Vehicle) (start_time : Q)
         (others : list (Q * Vehicle)) (s : Simulator),
    sequence (conops vehicle) !! "INIT" = None ->
    exists s',
      add_vehicle vehicle start_time s = (inl (KeyError "INIT"), s') /\
      entities s' = <[v_name vehicle := length (vehicles s)]> (entities s) /\
      future s' = future s /\
      tasks s' = tasks s /\
      run check handle_failure random fuel ((start_time, vehicle) :: others) s
        = Raised (KeyError "INIT") s'.
Proof.
  intros fuel vehicle start_time others s Hnone.
  assert (first (conops vehicle) = inl (KeyError "INIT")) as Hfirst.
  { unfold first. by rewrite Hnone. }
  eexists. split.
  { unfold add_vehicle, bind, alloc_vehicle, modify, lift.
    rewrite Hfirst. reflexivity. }
  split_and!; [done..|].
  unfold run. simpl. unfold add_vehicle at 1, bind, alloc_vehicle, modify, lift.
  rewrite Hfirst. reflexivity.
Qed.

(** X13. The first task of a vehicle does not run the ["INIT"] entry as
    such: [add_vehicle] names the initial event after the start event of
    that entry, and the task looks that name up again.  When the start
    event of the ["INIT"] entry has a name that is not a key of the
    ConOps, the run of that one vehicle stops at its start time with the
    [KeyError] of that name. *)
Theorem first_activity_is_looked_up_by_its_start_event :
  forall (fuel : nat) (start_time : Q) (vehicle : Vehicle)
         (a0 : AnyActivity),
    first (conops vehicle) = inr a0 ->
    sequence (conops vehicle) !! ev_name (activity_start a0) = None ->
    exists s,
      run check handle_failure random (S fuel) [(start_time, vehicle)]
        Simulator_default
        = Raised (KeyError (ev_name (activity_start a0))) s /\
      clock s = start_time /\
      success s = false /\
      failures s = [].
Proof.
  intros fuel start_time vehicle a0 Hfirst Hnone.
  unfold run, add_vehicles. unfold bind at 1.
  rewrite (add_vehicle_runs _ _ _ _ Hfirst). simpl.
  match goal with
  | |- context [activity_handler _ _ ?n ?st ?vid ?s0] =>
      rewrite (activity_handler_KeyError n st vid s0 vehicle)
  end; [|reflexivity|exact Hnone].
  simpl. eexists. split; [reflexivity|]. done.
Qed.

(** X14. A vehicle whose only activity has a duration, cannot fail and
    ends in the Completion terminal: the run succeeds, and its clock
    stops at the start time of the vehicle, whatever the duration.  The
    completion event is timed at the end of the activity, but the driver
    only logs it and does not put it on the Future Event List, so the
    clock never gets to the end of the last activity. *)
Theorem mission_clock_stops_at_the_start_of_the_last_activity :
  forall (fuel : nat) (start_time : Q) (vehicle : Vehicle)
         (a0 : AnyActivity) (t : Activity),
    first (conops vehicle) = inr a0 ->
    sequence (conops vehicle) !! ev_name (activity_start a0)
      = Some (Timed t) ->
    (act_p_fail t == 0)%Q ->
    (random 0 <= 1)%Q ->
    ev_kind (act_end t) = CompletorK ->
    exists s,
      run check handle_failure random (S (S fuel)) [(start_time, vehicle)]
        Simulator_default = Completed s /\
      clock s = start_time /\
      success s = true /\
      events (future s) = [] /\
      failures s = [].
Proof.
  intros fuel start_time vehicle a0 t Hfirst Ha Hp Hu Hkind.
  unfold run, add_vehicles. unfold bind at 1.
  rewrite (add_vehicle_runs _ _ _ _ Hfirst). cbv zeta. cbv beta iota.
  remember (S fuel) as fuel1 eqn:Hfuel. simpl.
  match goal with
  | |- context [activity_handler _ _ ?n ?st ?vid ?s0] =>
      destruct (activity_handler_succeeds n st vid s0 vehicle (Timed t))
        as (s1 & e & Hrun & Hq & Hf & _ & _ & _ & Hcase);
        [reflexivity|exact Ha|exact Hp|exact Hu| |]
  end.
  { simpl. rewrite Hkind. eauto. }
  rewrite Hrun.
  pose proof (activity_handler_frame _ _ _ _ _ _ Hrun)
    as (Hs1 & Hf1 & Hp1 & Hc1 & _).
  simpl in Hq, Hf, Hs1, Hf1, Hp1, Hc1.
  destruct Hcase as [(_ & Hcls & _)|(Hplain & _)];
    [|simpl in Hplain; congruence].
  simpl. rewrite Hq.
  unfold dispatch. rewrite Hcls.
  unfold check_predicates, bind, gets. simpl. rewrite Hp1. simpl.
  subst fuel1. simpl. unfold heappop. simpl. rewrite Hf1. simpl.
  eexists. split; [reflexivity|]. simpl.
  rewrite Hc1, Hf1, Hf. done.
Qed.

(** X15. [entities] is keyed by the name of the vehicle.  Two vehicles
    of one name, added one after the other, leave one entry under that
    name, and it refers to the second; yet each has its initial event on
    the Future Event List and its own task waiting for it, so both are
    simulated. *)
Theorem vehicles_of_one_name_share_an_entry :
  forall (v1 v2 : Vehicle) (t1 t2 : Q) (a1 a2 : AnyActivity)
         (s : Simulator),
    v_name v1 = v_name v2 ->
    first (conops v1) = inr a1 ->
    first (conops v2) = inr a2 ->
    exists s' e1 e2,
      add_vehicles [(t1, v1); (t2, v2)] s = (inr tt, s') /\
      entities s' = <[v_name v2 := S (length (vehicles s))]> (entities s) /\
      vehicles s' = vehicles s ++ [v1; v2] /\
      events (future s') = events (future s) ++ [(t1, e1); (t2, e2)] /\
      tasks s' =
        tasks s ++
        [mkTask (Handler (activity_name a1) e1 (length (vehicles s))) Waiting;
         mkTask (Handler (activity_name a2) e2 (S (length (vehicles s))))
           Waiting] /\
      se_id e1 <> se_id e2.
Proof.
  intros v1 v2 t1 t2 a1 a2 s Hname H1 H2.
  unfold add_vehicles. unfold bind at 1.
  rewrite (add_vehicle_runs _ _ _ _ H1). cbv zeta. cbv beta iota.
  unfold bind at 1.
  rewrite (add_vehicle_runs _ _ _ _ H2). cbv zeta. cbv beta iota.
  simpl. do 3 eexists. split; [reflexivity|]. simpl.
  rewrite !length_app. simpl. rewrite !Nat.add_1_r, <- !app_assoc. simpl.
  split_and!.
  - rewrite Hname. by rewrite insert_insert_eq.
  - done.
  - reflexivity.
  - reflexivity.
  - simpl. lia.
Qed.

(* ------------------------------------------------------------------ *)
(** ** The re-scan of the pending predicates, in general *)

Lemma scan_predicates_past_the_end fuel i s :
  (length (predicates s) <= i)%nat ->
  scan_predicates check fuel i s = (inr [], s).
Proof.
  intros Hlen. destruct fuel as [|fuel]; [done|].
  rewrite scan_predicates_round. by rewrite lookup_ge_None_2.
Qed.

Lemma scan_predicates_quiet fuel i s :
  Forall (fun p => exists c, se_predicate p = Some c /\ check c p s = false)
    (predicates s) ->
  (length (predicates s) <= i + fuel)%nat ->
  scan_predicates check fuel i s = (inr (drop i (predicates s)), s).
Proof.
  intros Hall. revert i. induction fuel as [|fuel IH]; intros i Hlen.
  { rewrite drop_ge by lia. done. }
  rewrite scan_predicates_round.
  destruct (predicates s !! i) as [p|] eqn:Hp.
  - rewrite Forall_lookup in Hall. destruct (Hall i p Hp) as (c & -> & ->).
    cbv zeta. rewrite IH by lia. by rewrite (drop_S _ _ _ Hp).
  - apply lookup_ge_None_1 in Hp. by rewrite drop_ge.
Qed.

Lemma check_predicates_quiet s :
  Forall (fun p => exists c, se_predicate p = Some c /\ check c p s = false)
    (predicates s) ->
  check_predicates check s = (inr (predicates s), s).
Proof.
  intros Hall. unfold check_predicates, bind, gets.
  rewrite scan_predicates_quiet; [done|done|lia].
Qed.

(** X16. When no pending predicate holds, the re-scan checks every
    pending entry exactly once, in the order of the list, and changes
    nothing: nothing is scheduled and the list of pending entries is as
    it was. *)
Theorem check_predicates_checks_every_entry_when_none_fires :
  forall (s : Simulator),
    Forall (fun p => exists c, se_predicate p = Some c /\ check c p s = false)
      (predicates s) ->
    check_predicates check s = (inr (predicates s), s).
Proof. intros s. apply check_predicates_quiet. Qed.

(** X17. The re-scan loses no event and duplicates none.  When every
    pending entry has a predicate and the entries are distinct objects,
    the scan returns without an exception, and the events that are
    pending or on the Future Event List afterwards are, by identity and
    name, the ones that were before: an entry is either where it was or
    has moved to the Future Event List. *)
Theorem check_predicates_loses_no_event :
  forall (s : Simulator),
    Forall gated (predicates s) ->
    NoDup (se_id <$> predicates s) ->
    exists checked s',
      check_predicates check s = (inr checked, s') /\
      idents s' ≡ₚ idents s /\
      checked ⊆ predicates s /\
      Forall gated (predicates s').
Proof.
  intros s Hg Hnd. unfold check_predicates, bind, gets.
  destruct (scan_predicates_nominal (length (predicates s)) 0 s Hg Hnd)
    as (checked & s' & Hscan & Hperm & Hg').
  exists checked, s'. split_and!; try done.
  apply scan_predicates_checked in Hscan. by rewrite drop_0 in Hscan.
Qed.

Lemma remove_event_middle pre x l :
  NoDup (se_id <$> (pre ++ x :: l)) ->
  remove_event x (pre ++ x :: l) = pre ++ l.
Proof.
  intros Hnd. rewrite (remove_event_delete _ (length pre)); [|done|].
  - rewrite delete_middle. done.
  - by rewrite list_lookup_middle.
Qed.

Lemma scan_predicates_all_fire fuel pre l s :
  (forall c p s0, check c p s0 = true) ->
  predicates s = pre ++ l ->
  Forall gated l ->
  NoDup (se_id <$> (pre ++ l)) ->
  (length l <= fuel)%nat ->
  exists s',
    scan_predicates check fuel (length pre) s = (inr (even_entries l), s') /\
    predicates s' = pre ++ odd_entries l /\
    events (future s') =
      events (future s) ++
      ((fun p => (clock s, set_time (clock s) p)) <$> even_entries l) /\
    clock s' = clock s.
Proof.
  intros Hcheck. revert pre l s.
  induction fuel as [|fuel IH]; intros pre l s Hps Hg Hnd Hlen.
  { destruct l; [|simpl in Hlen; lia]. exists s. simpl.
    rewrite !app_nil_r in *. done. }
  rewrite scan_predicates_round, Hps.
  destruct l as [|x l].
  { rewrite lookup_ge_None_2 by (rewrite app_nil_r; lia).
    exists s. simpl. rewrite !app_nil_r in *. done. }
  rewrite list_lookup_middle by done.
  apply Forall_cons in Hg as [[c Hc] Hg]. rewrite Hc. cbv zeta.
  rewrite Hcheck, remove_event_middle by done.
  destruct l as [|y l].
  - rewrite scan_predicates_past_the_end by (simpl; rewrite app_nil_r; lia).
    eexists. split; [reflexivity|]. done.
  - apply Forall_cons in Hg as [Hy Hg].
    edestruct (IH (pre ++ [y]) l) as (s' & Hscan & Hpred & Hev & Hclock);
      [..|rewrite length_app, Nat.add_1_r in Hscan; rewrite Hscan].
    + simpl. by rewrite <- app_assoc.
    + done.
    + rewrite <- app_assoc. simpl.
      eapply sublist_NoDup; [exact Hnd|].
      apply fmap_sublist, sublist_app; [done|]. by apply sublist_cons.
    + simpl in Hlen. lia.
    + eexists. split; [reflexivity|]. simpl in *.
      rewrite Hpred, Hev, Hclock, <- !app_assoc. done.
Qed.

(** X18. When every pending predicate holds, the re-scan fires only
    every other entry.  With distinct pending entries that all have a
    predicate, it checks and schedules the entries at the even indices,
    each at the current clock and in their order, and leaves the entries
    at the odd indices pending and unchecked: each removal moves the next
    entry to the index that the iteration has just left. *)
Theorem check_predicates_fires_every_other_entry :
  forall (s : Simulator),
    (forall c p s0, check c p s0 = true) ->
    Forall gated (predicates s) ->
    NoDup (se_id <$> predicates s) ->
    exists s',
      check_predicates check s = (inr (even_entries (predicates s)), s') /\
      predicates s' = odd_entries (predicates s) /\
      events (future s') =
        events (future s) ++
        ((fun p => (clock s, set_time (clock s) p))
           <$> even_entries (predicates s)).
Proof.
  intros s Hcheck Hg Hnd. unfold check_predicates, bind, gets.
  destruct (scan_predicates_all_fire (length (predicates s)) [] (predicates s)
              s Hcheck eq_refl Hg Hnd (le_n _))
    as (s' & Hscan & Hpred & Hev & _).
  exists s'. done.
Qed.

(* ------------------------------------------------------------------ *)
(** ** The failure log and the way a run ends *)




(* ------------------------------------------------------------------ *)
(** ** What the driver is handed, and what may be left over *)

(** X20. An activation that returns creates a successor task exactly
    when the event it hands to the driver is a [ScheduledEvent], and that
    task, of the same vehicle, waits on the very event object that was
    handed over; with a completion or failure event no task is
    created. *)
Theorem activity_handler_spawns_the_task_of_its_successor :
  forall (name : string) (start : SimEvent) (vid : nat) (s s' : Simulator),
    activity_handler handle_failure random name start vid s = (inr tt, s') ->
    exists e,
      queue_future s' = queue_future s ++ [e] /\
      (se_class e = ScheduledEvent /\
       (exists n, tasks s' = tasks s ++ [mkTask (Handler n e vid) Waiting]) \/
       se_class e <> ScheduledEvent /\ tasks s' = tasks s).
Proof.
  intros name start vid s s' Hrun.
  apply activity_handler_returns in Hrun
    as (v & a & e & _ & _ & Hq & _ & _ & _ & _ & Htasks & _).
  by exists e.
Qed.

(** X21. How the event that a task hands to the driver is timed.  A
    failure event carries the current clock itself, whatever the
    duration of the activity: the failure is stamped at the start of the
    failed activity.  A completion event, and the successor event of an
    activity with a duration, carry a time and no predicate, also when
    the trial has failed and the failure end leads on to another
    activity.  The successor event of a predicate-gated activity is a
    [ScheduledEvent] that carries no time. *)
Theorem handed_over_event_is_timed_by_its_class :
  forall (name : string) (start : SimEvent) (vid : nat) (s s' : Simulator)
         (v : Vehicle) (a : AnyActivity),
    vehicles s !! vid = Some v ->
    after (conops v) start = inr a ->
    activity_handler handle_failure random name start vid s = (inr tt, s') ->
    exists e,
      queue_future s' = queue_future s ++ [e] /\
      match se_class e with
      | FailureEvent => se_time e = Some (clock s) /\ se_predicate e = None
      | _ =>
          match a with
          | Timed _ => is_Some (se_time e) /\ se_predicate e = None
          | Gated _ => se_class e = ScheduledEvent /\ se_time e = None
          end
      end.
Proof.
  intros name start vid s s' v a Hv Ha Hrun.
  apply activity_handler_returns in Hrun
    as (v' & a' & e & Hv' & Ha' & Hq & _ & _ & _ & _ & _ & Htime).
  assert (v' = v) as -> by congruence.
  assert (a' = a) as -> by congruence.
  exists e. split; [done|].
  destruct Htime
    as [(Hcls & Hp & Ht)|[(Hcls & Hp & t & -> & Ht)|(Hcls & Ht & pa & -> & _)]].
  - by rewrite Hcls.
  - rewrite Ht. by destruct (se_class e).
  - by rewrite Hcls.
Qed.

Lemma process_events_Completed awaited fuel s s' :
  process_events check handle_failure random awaited fuel s = Completed s' ->
  events (future s') = [].
Proof.
  revert s. induction fuel as [|fuel IH]; intros s; simpl; [done|].
  unfold heappop.
  destruct (pop_min (events (future s))) as [[[time event] rest]|] eqn:Hp.
  2:{ intros [= <-]. simpl. by apply pop_min_None. }
  destruct (find_waiter _ _) as [[i [[name start vid|] w]]|]; [|done..].
  destruct (activity_handler _ _ _ _ _ _) as [[e|[]] s1].
  { by destruct (i <? awaited)%nat. }
  simpl. destruct (queue_future s1) as [|new_event queue]; [done|].
  destruct (dispatch _ _ _) as [[e|[]] s2]; [done| |done].
  apply IH.
Qed.

(** X22. A run that completes has exhausted the Future Event List: when
    [run] ends through the normal exit of the loop, no event is left on
    the list.  (Events that wait for their predicate are not on the list;
    see the next property.) *)
Theorem completed_run_has_exhausted_the_event_list :
  forall (fuel : nat) (initial_vehicles : list (Q * Vehicle))
         (s s' : Simulator),
    run check handle_failure random fuel initial_vehicles s = Completed s' ->
    events (future s') = [].
Proof.
  intros fuel initial_vehicles s s'. unfold run.
  destruct (add_vehicles _ _) as [[e|[]] s1]; [done|].
  apply process_events_Completed.
Qed.

(** X23. A run can succeed with an event still waiting.  One vehicle
    whose first activity is predicate-gated and cannot fail, with an end
    that the ConOps resolves: if the predicate never holds, the successor
    event stays in the pending list, the Future Event List runs empty and
    the run ends with [success] set, the task of the successor activity
    still waiting. *)
Theorem run_succeeds_with_an_event_still_pending :
  forall (fuel : nat) (start_time : Q) (vehicle : Vehicle)
         (a0 next : AnyActivity) (pa : PredicatedActivity),
    (forall c p s, check c p s = false) ->
    first (conops vehicle) = inr a0 ->
    sequence (conops vehicle) !! ev_name (activity_start a0)
      = Some (Gated pa) ->
    (pact_p_fail pa == 0)%Q ->
    (random 0 <= 1)%Q ->
    ev_kind (pact_end pa) = Plain ->
    sequence (conops vehicle) !! ev_name (pact_end pa) = Some next ->
    exists s e,
      run check handle_failure random (S (S fuel)) [(start_time, vehicle)]
        Simulator_default = Completed s /\
      success s = true /\
      predicates s = [e] /\
      se_name e = ev_name (activity_start next) /\
      se_predicate e = Some (pact_predicate pa) /\
      (exists n, tasks s !! 2%nat = Some (mkTask (Handler n e 0) Waiting)).
Proof.
  intros fuel start_time vehicle a0 next pa Hcheck Hfirst Ha Hp Hu Hkind Hnext.
  unfold run, add_vehicles. unfold bind at 1.
  rewrite (add_vehicle_runs _ _ _ _ Hfirst). cbv zeta. cbv beta iota.
  remember (S fuel) as fuel1 eqn:Hfuel. simpl.
  match goal with
  | |- context [activity_handler _ _ ?n ?st ?vid ?s0] =>
      destruct (activity_handler_succeeds n st vid s0 vehicle (Gated pa))
        as (s1 & e & Hrun & Hq & Hf & _ & _ & _ & Hcase);
        [reflexivity|exact Ha|exact Hp|exact Hu| |]
  end.
  { simpl. rewrite Hkind. simpl. by rewrite Hnext. }
  rewrite Hrun.
  pose proof (activity_handler_frame _ _ _ _ _ _ Hrun)
    as (Hs1 & Hf1 & Hp1 & Hc1 & _).
  match type of Hrun with
  | activity_handler _ _ ?n ?st ?vid ?s0 = _ =>
      destruct (activity_handler_gated n st vid s0 vehicle pa s1)
        as (e' & Hq' & Hgated); [reflexivity| |exact Hrun|]
  end.
  { unfold after, name_of, SimEvent_Named. simpl. by rewrite Ha. }
  simpl in Hq, Hq', Hf, Hs1, Hf1, Hp1, Hc1.
  assert (e' = e) as -> by congruence.
  destruct Hcase as [(Hcompl & _)|(_ & Hcls & (n & Htasks) & Hname & _)];
    [simpl in Hcompl; congruence|].
  destruct Hgated as [Hfail|(_ & Htime & Hpred)]; [congruence|].
  destruct Hname as (next' & Hnext' & Hname). simpl in Hnext'.
  assert (next' = next) as -> by congruence.
  simpl. rewrite Hq.
  unfold dispatch. rewrite Hcls, Hpred.
  unfold bind at 1. unfold modify at 1. unfold bind at 1.
  rewrite check_predicates_quiet.
  2:{ simpl. rewrite Hp1. simpl. repeat constructor.
      exists (pact_predicate pa). by rewrite Hcheck. }
  unfold ret. simpl.
  subst fuel1. simpl. unfold heappop. simpl. rewrite Hf1. simpl.
  eexists. exists e. split; [reflexivity|]. simpl.
  rewrite Hp1. simpl. split_and!; try done.
  exists n. by rewrite Htasks.
Qed.

End EngineFacts.

(* ================================================================== *)
(** ** The properties on the sample missions *)

Lemma first_activity_certain_to_fail_witness :
  exists s,
    run always_true no_hook (constant (1 # 2)) 1 [(3%Q, rocket)]
      Simulator_default = Failed s /\
    success s = false /\
    failures s = [(3%Q, "Rocket", "Launch")].
Proof.
  apply (first_activity_certain_to_fail always_true no_hook
           (constant (1 # 2)) 0 3%Q rocket launch launch);
    reflexivity.
Defined.

(** C3 as the specification words it does not hold.  With [p_fail = 1]
    the trial is [u > 0], and the draw [u = 0] passes it: the rocket
    then reaches orbit, the run ends with [success] set and nothing is
    ever logged.  And a failure that the ConOps routes to a recovery
    activity is logged but does not end the run: the shuttle lands and
    [success] is set. *)
Lemma certain_failure_is_missed_by_the_draw_zero :
  (0 <= 0 < 1)%Q /\
  activity_p_fail launch = 1%Q /\
  (forall fuel,
      failures (final_state
                  (run always_true no_hook (constant 0%Q) fuel
                     [(3%Q, rocket)] Simulator_default)) = []) /\
  (exists s,
      run always_true no_hook (constant 0%Q) 2 [(3%Q, rocket)]
        Simulator_default = Completed s /\ success s = true) /\
  (exists s,
      run always_true no_hook (constant (1 # 2)) 3 [(3%Q, shuttle)]
        Simulator_default = Completed s /\
      success s = true /\ failures s = [(3%Q, "Shuttle", "Launch")]).
Proof.
  split; [split; [apply Qle_refl|reflexivity]|].
  split; [reflexivity|]. split; [|split].
  - intros [|[|fuel]]; reflexivity.
  - eexists. split; [vm_compute; reflexivity|reflexivity].
  - eexists. split; [vm_compute; reflexivity|]. split; reflexivity.
Qed.


Lemma gated_event_is_scheduled_when_its_predicate_holds_witness :
  let s' := snd (activity_handler no_hook (constant 0%Q) "Loiter"
                   sample_event 0 ferry_ready) in
  (future s' = future ferry_ready /\
   exists e,
     queue_future s' = queue_future ferry_ready ++ [e] /\
     (se_class e = FailureEvent \/
      se_class e = ScheduledEvent /\ se_time e = None /\
      se_predicate e = Some (pact_predicate loiter))) /\
  dispatch always_true ferry_dock ferry_ready =
  (inr Next,
   set_future
     (heappush (future ferry_ready) (clock ferry_ready)
        (set_time (clock ferry_ready) ferry_dock))
     ferry_ready).
Proof.
  destruct (gated_event_is_scheduled_when_its_predicate_holds
              always_true no_hook (constant 0%Q))
    as (Htask & _ & _ & _ & _ & Hlive).
  split.
  - apply (Htask "Loiter" sample_event 0%nat ferry_ready ferry loiter);
      reflexivity.
  - apply (Hlive ferry_dock 0%nat ferry_ready); [reflexivity..| |];
      constructor.
Defined.

Lemma nominal_run_succeeds_witness :
  exists s,
    run always_true no_hook (constant (1 # 2)) 5 [(0%Q, ferry); (5%Q, tug)]
      Simulator_default = Completed s /\
    success s = true /\ failures s = [].
Proof.
  apply (nominal_run_succeeds always_true no_hook (constant (1 # 2)) 2 5
           [(0%Q, ferry); (5%Q, tug)]).
  - intros n. unfold constant. split; [discriminate|reflexivity].
  - repeat constructor.
  - simpl. lia.
Defined.

Lemma satellite_ready_looping : looping satellite_ready.
Proof.
  constructor; [done|done|repeat constructor|].
  exists 0%Q, sample_event, 0%nat, "Orbit", sample_event, 0%nat, Waiting,
    satellite.
  split_and!; try reflexivity.
  - vm_compute. lia.
  - exists orbit, orbit. split_and!; reflexivity.
Qed.

(** C6 as the specification words it does not hold.  Each of the three
    ConOps below has [p_fail = 0] in every activity.  The satellite's
    activity leads back to its own start event: the run never exhausts
    the event list, [success] is never set.  The stranded vehicle's
    activity ends in an event that its ConOps does not know: the run
    stops with the [KeyError].  The scrubbed launch ends, nominally, in
    the Failure terminal: the driver receives a [FailureEvent] and
    returns. *)
Lemma run_without_failure_probability_need_not_succeed :
  (activity_p_fail orbit = 0%Q /\ activity_p_fail drift = 0%Q /\
   activity_p_fail scrub = 0%Q) /\
  (forall fuel, exists s,
      run always_true no_hook (constant 0%Q) fuel [(0%Q, satellite)]
        Simulator_default = OutOfFuel s) /\
  (forall fuel, exists s,
      run always_true no_hook (constant 0%Q) (S fuel) [(0%Q, stranded)]
        Simulator_default = Raised (KeyError "DOCK") s /\
      success s = false) /\
  (forall fuel, exists s,
      run always_true no_hook (constant 0%Q) (S fuel) [(0%Q, scrubbed)]
        Simulator_default = Failed s /\
      success s = false).
Proof.
  split; [done|]. split; [|split].
  - intros fuel.
    assert (run always_true no_hook (constant 0%Q) fuel [(0%Q, satellite)]
              Simulator_default
            = process_events always_true no_hook (constant 0%Q) 2 fuel
                satellite_ready) as -> by (vm_compute; reflexivity).
    apply looping_forever; [|apply satellite_ready_looping].
    intros n. discriminate.
  - intros fuel. eexists. split; vm_compute; reflexivity.
  - intros fuel. eexists. split; vm_compute; reflexivity.
Qed.

Lemma conops_sequence_changes_only_through_update_witness :
  let h :=
    ConOpsHeap.mkHeap {[ 3%nat := ∅ ]} {[ 7%nat := 3%nat; 8%nat := 3%nat ]}
  in
  fst (ConOpsHeap.call_after h 7 (mkEvent "INIT" Plain)) = h /\
  (exists c',
      ConOpsHeap.read
        (fst (ConOpsHeap.call_update h 7 {[ "INIT" := sample_activity ]})) 8
        = Some c' /\
      sequence c' !! "INIT" = Some sample_activity) /\
  same_conops (vehicles rocket_ready)
    (vehicles (final_state
                 (process_events always_true no_hook (constant (1 # 2)) 2 2
                    rocket_ready))).
Proof.
  intros h.
  assert (ConOpsHeap.objects h !! 7%nat = Some 3%nat) as Hobj by reflexivity.
  assert (ConOpsHeap.dicts h !! 3%nat = Some ∅) as Hdict by reflexivity.
  assert (ConOpsHeap.objects h !! 8%nat = Some 3%nat) as Hother
    by reflexivity.
  assert (forall v, conops (no_hook v) = conops v) as Hhook by reflexivity.
  destruct (conops_sequence_changes_only_through_update
              always_true no_hook (constant (1 # 2))
              h 7 3 ∅ (mkEvent "INIT" Plain)
              {[ "INIT" := sample_activity ]} 2 2 rocket_ready
              Hobj Hdict Hhook)
    as (_ & Hafter & _ & Hshared & _ & Hrun).
  split; [exact Hafter|]. split; [|exact Hrun].
  destruct (Hshared 8%nat Hother) as (c' & Hread & Hseq).
  exists c'. split; [exact Hread|]. by rewrite Hseq.
Defined.

(* ================================================================== *)
(** ** Further properties on the sample missions *)

(** ** The trial *)

Lemma trial_fails_true (u p_fail : Q) :
  trial_fails u p_fail = true <-> (1 - p_fail < u)%Q.
Proof.
  unfold trial_fails. rewrite negb_true_iff.
  destruct (Qle_bool u (1 - p_fail)) eqn:E.
  - apply Qle_bool_iff in E. split; [done|]. intros H. lra.
  - split; [|done]. intros _.
    destruct (Qlt_le_dec (1 - p_fail) u) as [|Hle]; [done|].
    apply Qle_bool_iff in Hle. congruence.
Qed.

Lemma trial_fails_false (u p_fail : Q) :
  trial_fails u p_fail = false <-> (u <= 1 - p_fail)%Q.
Proof.
  unfold trial_fails. rewrite negb_false_iff. apply Qle_bool_iff.
Qed.

(** X24. The trial [u > 1 - p_fail] over the draws of [random.random()],
    which are in [0, 1): the failure is certain exactly when [p_fail] is
    greater than 1; with [p_fail = 1] the trial fails for every draw but
    0; and with [p_fail] at 0 or below no draw fails.  No value of
    [p_fail] is rejected.  (Each part is decided by the sign of
    [1 - p_fail], or by [1 - p_fail] being 1 or more, which the rounding
    of the difference keeps.) *)
Theorem trial_is_certain_only_beyond_one :
  forall p_fail : Q,
    ((forall u, (0 <= u)%Q -> (u < 1)%Q -> trial_fails u p_fail = true)
     <-> (1 < p_fail)%Q) /\
    ((p_fail == 1)%Q ->
     forall u, trial_fails u p_fail = true <-> (0 < u)%Q) /\
    ((p_fail <= 0)%Q ->
     forall u, (u < 1)%Q -> trial_fails u p_fail = false).
Proof.
  intros p_fail. split_and!.
  - split.
    + intros H. specialize (H 0%Q). apply trial_fails_true in H; lra.
    + intros Hp u Hu0 Hu1. apply trial_fails_true. lra.
  - intros Hp u. rewrite trial_fails_true. split; intros H; lra.
  - intros Hp u Hu1. apply trial_fails_false. lra.
Qed.

(** ** Successive updates of a ConOps *)

(** X25. [ConOps.update] composes like [dict.update]: two updates in a
    row are one update with the additions merged, the later ones winning;
    an update with no additions changes nothing; repeating an update
    changes nothing more; and no update removes a key. *)
Theorem update_composes :
  forall (c : ConOps) (a b : gmap string AnyActivity),
    update (update c a) b = update c (b ∪ a) /\
    update c ∅ = c /\
    update (update c a) a = update c a /\
    (forall k, is_Some (sequence c !! k) ->
               is_Some (sequence (update c a) !! k)).
Proof.
  intros [m] a b. unfold update. simpl. split_and!.
  - by rewrite (assoc_L (∪)).
  - by rewrite (left_id_L ∅ (∪)).
  - by rewrite (assoc_L (∪)), (idemp_L (∪)).
  - intros k [x Hx]. rewrite lookup_union.
    rewrite Hx. destruct (a !! k); by eexists.
Qed.

(** ** The further properties at work *)

Lemma activity_handler_hands_over_one_event_witness :
  let s' := snd (activity_handler no_hook (constant 0%Q) "Burn" sample_event
                   0 tug_ready) in
  exists e,
    queue_future s' = queue_future tug_ready ++ [e] /\
    time_xor_predicate e /\
    draws s' = S (draws tug_ready) /\
    future s' = future tug_ready /\
    predicates s' = predicates tug_ready /\
    clock s' = clock tug_ready.
Proof.
  apply (activity_handler_hands_over_one_event no_hook (constant 0%Q) "Burn"
           sample_event 0%nat tug_ready).
  reflexivity.
Defined.

Lemma activity_handler_logs_exactly_the_failed_trial_witness :
  failures (snd (activity_handler no_hook (constant (1 # 2)) "Launch"
                   rocket_init 0 rocket_ready))
  = failures rocket_ready ++
    (if trial_fails (constant (1 # 2) (draws rocket_ready))
          (activity_p_fail launch)
     then [(clock rocket_ready, v_name rocket, activity_name launch)]
     else []).
Proof.
  apply (activity_handler_logs_exactly_the_failed_trial no_hook
           (constant (1 # 2)) "Launch" rocket_init 0%nat rocket_ready _
           rocket launch
           (fst (activity_handler no_hook (constant (1 # 2)) "Launch"
                   rocket_init 0 rocket_ready)));
    reflexivity.
Defined.

Lemma activity_handler_unknown_start_event_witness :
  activity_handler no_hook (constant 0%Q) "Descent" lander_init 0 lander_ready
  = (inl (KeyError "DEORBIT"), lander_ready).
Proof.
  apply (activity_handler_unknown_start_event no_hook (constant 0%Q)
           "Descent" lander_init 0%nat lander_ready lander);
    reflexivity.
Defined.

Lemma activity_handler_predicated_activity_cannot_complete_witness :
  exists s' v',
    activity_handler no_hook (constant 0%Q) "Hold" sample_event 0 probe_ready
      = (inl (AttributeError "duration"), s') /\
    queue_future s' = queue_future probe_ready /\
    tasks s' = tasks probe_ready /\
    vehicles s' !! 0%nat = Some v' /\
    activity v' = Some (Gated hold) /\
    propload v' = propload probe - 1 /\
    completed_conops v' = completed_conops probe.
Proof.
  apply (activity_handler_predicated_activity_cannot_complete no_hook
           (constant 0%Q) "Hold" sample_event 0%nat probe_ready probe hold);
    reflexivity.
Defined.

Lemma activity_handler_unresolved_successor_witness :
  exists s' v',
    activity_handler no_hook (constant 0%Q) "Drift" sample_event 0
      stranded_ready = (inl (KeyError "DOCK"), s') /\
    queue_future s' = queue_future stranded_ready /\
    tasks s' = tasks stranded_ready /\
    failures s' = failures stranded_ready /\
    vehicles s' !! 0%nat = Some v' /\
    activity v' = Some drift /\
    propload v' = propload stranded - 1.
Proof.
  apply (activity_handler_unresolved_successor no_hook (constant 0%Q)
           "Drift" sample_event 0%nat stranded_ready stranded drift);
    reflexivity.
Defined.

Lemma failed_activity_still_updates_the_vehicle_witness :
  exists v',
    vehicles (snd (activity_handler no_hook (constant (1 # 2)) "Launch"
                     rocket_init 0 rocket_ready)) !! 0%nat = Some v' /\
    activity v' = Some launch /\
    propload v' = propload (no_hook rocket) - 1.
Proof.
  apply (failed_activity_still_updates_the_vehicle no_hook
           (constant (1 # 2)) "Launch" rocket_init 0%nat rocket_ready _
           rocket launch);
    reflexivity.
Defined.


Lemma run_without_vehicles_succeeds_at_once_witness :
  run always_true no_hook (constant 0%Q) 1 [] Simulator_default =
  Completed (set_success true
               (set_tasks (tasks Simulator_default ++ [mkTask Driver Running])
                  Simulator_default)).
Proof.
  apply (run_without_vehicles_succeeds_at_once always_true no_hook
           (constant 0%Q) 0 Simulator_default).
  reflexivity.
Defined.

Lemma add_vehicle_without_INIT_entry_witness :
  exists s',
    add_vehicle idle 0%Q Simulator_default = (inl (KeyError "INIT"), s') /\
    entities s' = <[ "Idle" := 0%nat ]> (entities Simulator_default) /\
    future s' = future Simulator_default /\
    tasks s' = tasks Simulator_default /\
    run always_true no_hook (constant 0%Q) 1 [(0%Q, idle); (5%Q, tug)]
      Simulator_default = Raised (KeyError "INIT") s'.
Proof.
  apply (add_vehicle_without_INIT_entry always_true no_hook (constant 0%Q)
           1 idle 0%Q [(5%Q, tug)] Simulator_default).
  reflexivity.
Defined.

Lemma first_activity_is_looked_up_by_its_start_event_witness :
  exists s,
    run always_true no_hook (constant 0%Q) 1 [(0%Q, lander)]
      Simulator_default = Raised (KeyError "DEORBIT") s /\
    clock s = 0%Q /\
    success s = false /\
    failures s = [].
Proof.
  apply (first_activity_is_looked_up_by_its_start_event always_true no_hook
           (constant 0%Q) 0 0%Q lander descent);
    reflexivity.
Defined.

Lemma mission_clock_stops_at_the_start_of_the_last_activity_witness :
  exists s,
    run always_true no_hook (constant 0%Q) 2 [(5%Q, tug)] Simulator_default
      = Completed s /\
    clock s = 5%Q /\
    success s = true /\
    events (future s) = [] /\
    failures s = [].
Proof.
  apply (mission_clock_stops_at_the_start_of_the_last_activity always_true
           no_hook (constant 0%Q) 0 5%Q tug burn
           (mkActivity "Burn" (mkEvent "INIT" Plain) (Completor "DONE")
              10 0 Failure {[ "propload" := 5 ]} "")).
  - reflexivity.
  - reflexivity.
  - reflexivity.
  - unfold constant, Qle. simpl. lia.
  - reflexivity.
Defined.

Lemma vehicles_of_one_name_share_an_entry_witness :
  exists s' e1 e2,
    add_vehicles [(0%Q, tug); (3%Q, tug_twin)] Simulator_default
      = (inr tt, s') /\
    entities s' = <[ "Tug" := 1%nat ]> (entities Simulator_default) /\
    vehicles s' = vehicles Simulator_default ++ [tug; tug_twin] /\
    events (future s')
      = events (future Simulator_default) ++ [(0%Q, e1); (3%Q, e2)] /\
    tasks s' =
      tasks Simulator_default ++
      [mkTask (Handler "Burn" e1 0) Waiting;
       mkTask (Handler "Dock" e2 1) Waiting] /\
    se_id e1 <> se_id e2.
Proof.
  apply (vehicles_of_one_name_share_an_entry tug tug_twin 0%Q 3%Q burn dock
           Simulator_default);
    reflexivity.
Defined.

Lemma check_predicates_checks_every_entry_when_none_fires_witness :
  check_predicates never_true two_pending
  = (inr (predicates two_pending), two_pending).
Proof.
  apply (check_predicates_checks_every_entry_when_none_fires never_true
           two_pending).
  repeat constructor; exists 0%nat; split; reflexivity.
Defined.

Lemma check_predicates_loses_no_event_witness :
  exists checked s',
    check_predicates always_true two_pending = (inr checked, s') /\
    idents s' ≡ₚ idents two_pending /\
    checked ⊆ predicates two_pending /\
    Forall gated (predicates s').
Proof.
  apply (check_predicates_loses_no_event always_true two_pending).
  - repeat constructor; by exists 0%nat.
  - apply (bool_decide_unpack _). vm_compute. exact I.
Defined.

Lemma check_predicates_fires_every_other_entry_witness :
  exists s',
    check_predicates always_true two_pending
      = (inr (even_entries (predicates two_pending)), s') /\
    predicates s' = odd_entries (predicates two_pending) /\
    events (future s') =
      events (future two_pending) ++
      ((fun p => (clock two_pending, set_time (clock two_pending) p))
         <$> even_entries (predicates two_pending)).
Proof.
  apply (check_predicates_fires_every_other_entry always_true two_pending).
  - reflexivity.
  - repeat constructor; by exists 0%nat.
  - apply (bool_decide_unpack _). vm_compute. exact I.
Defined.


Lemma activity_handler_spawns_the_task_of_its_successor_witness :
  let s' := snd (activity_handler no_hook (constant 0%Q) "Loiter" sample_event
                   0 ferry_ready) in
  exists e,
    queue_future s' = queue_future ferry_ready ++ [e] /\
    (se_class e = ScheduledEvent /\
     (exists n,
         tasks s' = tasks ferry_ready ++ [mkTask (Handler n e 0) Waiting]) \/
     se_class e <> ScheduledEvent /\ tasks s' = tasks ferry_ready).
Proof.
  apply (activity_handler_spawns_the_task_of_its_successor no_hook
           (constant 0%Q) "Loiter" sample_event 0%nat ferry_ready).
  reflexivity.
Defined.

Lemma handed_over_event_is_timed_by_its_class_witness :
  let s' := snd (activity_handler no_hook (constant (1 # 2)) "Launch"
                   rocket_init 0 rocket_ready) in
  exists e,
    queue_future s' = queue_future rocket_ready ++ [e] /\
    match se_class e with
    | FailureEvent =>
        se_time e = Some (clock rocket_ready) /\ se_predicate e = None
    | _ =>
        match launch with
        | Timed _ => is_Some (se_time e) /\ se_predicate e = None
        | Gated _ => se_class e = ScheduledEvent /\ se_time e = None
        end
    end.
Proof.
  apply (handed_over_event_is_timed_by_its_class no_hook (constant (1 # 2))
           "Launch" rocket_init 0%nat rocket_ready _ rocket launch);
    reflexivity.
Defined.

Lemma completed_run_has_exhausted_the_event_list_witness :
  events (future (final_state
                    (run always_true no_hook (constant 0%Q) 2 [(5%Q, tug)]
                       Simulator_default))) = [].
Proof.
  apply (completed_run_has_exhausted_the_event_list always_true no_hook
           (constant 0%Q) 2 [(5%Q, tug)] Simulator_default).
  vm_compute. reflexivity.
Defined.

Lemma run_succeeds_with_an_event_still_pending_witness :
  exists s e,
    run never_true no_hook (constant 0%Q) 2 [(0%Q, ferry)] Simulator_default
      = Completed s /\
    success s = true /\
    predicates s = [e] /\
    se_name e = "DOCK" /\
    se_predicate e = Some 0%nat /\
    (exists n, tasks s !! 2%nat = Some (mkTask (Handler n e 0) Waiting)).
Proof.
  apply (run_succeeds_with_an_event_still_pending never_true no_hook
           (constant 0%Q) 0 0%Q ferry (Gated loiter) dock loiter).
  - reflexivity.
  - reflexivity.
  - reflexivity.
  - reflexivity.
  - unfold constant, Qle. simpl. lia.
  - reflexivity.
  - reflexivity.
Defined.
